(** * gcode: the generation-to-merge pipeline, embedded and verified

    A shallow embedding of the algorithmic core of the repository:

    - [Store]   the zustand files store (staged changes, local edits);
    - [Text]    the JavaScript string operations the other modules rely on;
    - [Diff]    [unifiedDiff] (LCS alignment) and the tolerant
                [applyUnifiedDiff] / [applyUnifiedDiffClient];
    - [Codec]   [parseOutputToJson], the tagged-block parser;
    - [Gen]     [decideRoute] and the [POST] orchestrator of /api/gen;
    - [Recall]  [cosineSimilarity] and the similar-records query.

    On top of these, further parts of the code and more of their
    properties:

    - [StoreOps], [DiffProps], [GenProps], [RecallProps]
                  the remaining store actions, and more about the diff
                  engine, the generation route and the order of ties in
                  the similar-records query;
    - [DiffView]  the rows of the editor's diff view;
    - [GenPage]   the generator page, from the model picker to staging;
    - [Integrate] the integration route: intent detection, its parser,
                  the call limit and the chained generator;
    - [Blocks]    the tagged-block format, written and read back;
    - [Harden]    the hardening route and its diff blocks;
    - [Stream]    the streaming client of the fast model;
    - [Debug]     the retrying collector of the debug route.

    JavaScript strings are modelled as [string] (a sequence of 8-bit code
    units), objects used as dictionaries as [gmap string _], [Set<string>]
    as [gset string], arrays as [list], and numbers that only count as
    [nat].  Similarity scores are idealised as real numbers. *)

From Stdlib Require Import Ascii String Reals Lra ZArith.
From stdpp Require Import gmap strings list fin_maps sorting.

#[local] Arguments String.append : simpl nomatch.

(** ** The files store (zustand) *)

Module Store.

Inductive Model := grok | claude.

Record StagedChange := {
  path : string;
  before : string;
  after : string;
  modelUsed : option Model
}.

Record FilesState := {
  files : gmap string string;
  userEdits : gset string;
  openTabs : list string;
  activePath : option string;
  stagedChanges : list StagedChange
}.

Record ApplyResult := { applied : nat; skipped : nat }.

(** The assignment [obj[key] = value] of a string to a plain object (one
    whose prototype is the object prototype) with the own properties
    [obj]: the property is created or overwritten - except under the name
    [__proto__] when the object has no own property of that name: the
    assignment then reaches the accessor the prototype has under that
    name, and its setter ignores a string.  Every other name the
    prototype has is an ordinary writable property, which an assignment
    shadows by an own one. *)
Definition js_set (obj : gmap string string) (key value : string)
  : gmap string string :=
  if bool_decide (key = "__proto__") && bool_decide (obj !! key = None)
  then obj
  else <[key := value]> obj.

(** The mutable locals of [applyStagedChanges]:
    [applied], [skipped], [nextFiles], [edits]. *)
Record Locals := {
  l_applied : nat;
  l_skipped : nat;
  l_nextFiles : gmap string string;
  l_edits : gset string
}.

(** One iteration of [for (const change of stagedChanges)]. *)
Definition apply_iter (st : Locals) (change : StagedChange) : Locals :=
  if decide (path change ∈ l_edits st) then
    (* skipped++; continue; *)
    {| l_applied := l_applied st; l_skipped := S (l_skipped st);
       l_nextFiles := l_nextFiles st; l_edits := l_edits st |}
  else
    let nextFiles := js_set (l_nextFiles st) (path change) (after change) in
    let edits :=
      if decide (path change ∈ l_edits st)
      then l_edits st ∖ {[path change]}
      else l_edits st in
    {| l_applied := S (l_applied st); l_skipped := l_skipped st;
       l_nextFiles := nextFiles; l_edits := edits |}.

Definition apply_loop (s : FilesState) : Locals :=
  foldl apply_iter
    {| l_applied := 0; l_skipped := 0;
       l_nextFiles := files s; l_edits := userEdits s |}
    (stagedChanges s).

(** [applyStagedChanges]: the new store state (zustand's [set] merges the
    three named fields into the previous state) and the returned counts. *)
Definition applyStagedChanges (s : FilesState) : FilesState * ApplyResult :=
  let st := apply_loop s in
  ({| files := l_nextFiles st;
      userEdits := l_edits st;
      openTabs := openTabs s;
      activePath := activePath s;
      stagedChanges := [] |},
   {| applied := l_applied st; skipped := l_skipped st |}).

Definition setStagedChanges (changes : list StagedChange) (s : FilesState)
  : FilesState :=
  {| files := files s; userEdits := userEdits s; openTabs := openTabs s;
     activePath := activePath s; stagedChanges := changes |}.

(** [updateFile]: the new file map is an object literal with the computed
    key [path], which defines an own property under every name. *)
Definition updateFile (p content : string) (s : FilesState) : FilesState :=
  {| files := <[p := content]> (files s);
     userEdits := userEdits s ∪ {[p]};
     openTabs := openTabs s; activePath := activePath s;
     stagedChanges := stagedChanges s |}.

(** Staged changes that do / do not collide with a local edit. *)
Definition conflicting (edits : gset string) (c : StagedChange) : bool :=
  bool_decide (path c ∈ edits).

Definition write_change (m : gmap string string) (c : StagedChange)
  : gmap string string :=
  js_set m (path c) (after c).

(** An assignment under [key] takes effect on [obj]: every name but
    [__proto__], and that one too when [obj] has it as an own property. *)
Definition writable (obj : gmap string string) (key : string) : Prop :=
  key ≠ "__proto__" ∨ is_Some (obj !! key).

(** *** Assignments *)

Lemma js_set_lookup_ne m k v p : k ≠ p → js_set m k v !! p = m !! p.
Proof.
  intros Hne. unfold js_set.
  destruct (bool_decide (k = "__proto__") && bool_decide (m !! k = None));
    [done|]. by apply lookup_insert_ne.
Qed.

Lemma js_set_lookup_eq m k v : writable m k → js_set m k v !! k = Some v.
Proof.
  intros Hw. unfold js_set.
  destruct (bool_decide (k = "__proto__") && bool_decide (m !! k = None))
    eqn:Hno; [|apply lookup_insert_eq].
  apply andb_true_iff in Hno as [Hk Hm].
  apply bool_decide_eq_true in Hk. apply bool_decide_eq_true in Hm.
  destruct Hw as [Hw|[x Hx]]; [done|congruence].
Qed.

Lemma js_set_unwritable m k v : ¬ writable m k → js_set m k v = m.
Proof.
  intros Hw. unfold js_set.
  destruct (decide (k = "__proto__")) as [Hk|Hk]; [|by destruct Hw; left].
  destruct (m !! k) as [x|] eqn:Hm; [destruct Hw; right; by eexists|].
  rewrite bool_decide_eq_true_2 by done.
  by rewrite bool_decide_eq_true_2.
Qed.

Lemma writable_js_set m k v p : writable m p → writable (js_set m k v) p.
Proof.
  intros [Hp|[x Hx]]; [by left|]. right.
  destruct (decide (k = p)) as [->|Hne].
  - rewrite js_set_lookup_eq; [by eexists|]. right. by eexists.
  - rewrite js_set_lookup_ne by done. by eexists.
Qed.

Lemma unwritable_js_set m k v p : ¬ writable m p → ¬ writable (js_set m k v) p.
Proof.
  intros Hw [Hp|[x Hx]]; [by apply Hw; left|].
  destruct (decide (k = p)) as [->|Hne].
  - rewrite js_set_unwritable in Hx by done. apply Hw. right. by eexists.
  - rewrite js_set_lookup_ne in Hx by done. apply Hw. right. by eexists.
Qed.

Lemma unwritable_lookup m p : ¬ writable m p → m !! p = None.
Proof.
  intros Hw. destruct (m !! p) as [x|] eqn:Hm; [|done].
  destruct Hw. right. by eexists.
Qed.

(** *** Loop invariant *)

Lemma apply_iter_edits st c : l_edits (apply_iter st c) = l_edits st.
Proof.
  unfold apply_iter.
  destruct (decide (path c ∈ l_edits st)) as [Hin|Hout]; simpl; [done|].
  destruct (decide (path c ∈ l_edits st)); [contradiction|done].
Qed.

Lemma foldl_apply_iter_edits cs st :
  l_edits (foldl apply_iter st cs) = l_edits st.
Proof.
  revert st. induction cs as [|c cs IH]; intros st; simpl; [done|].
  by rewrite IH, apply_iter_edits.
Qed.

Lemma foldl_apply_iter_counts cs st :
  let edits := l_edits st in
  let st' := foldl apply_iter st cs in
  l_applied st' =
    l_applied st + length (List.filter (λ c, negb (conflicting edits c)) cs)
  ∧ l_skipped st' =
    l_skipped st + length (List.filter (conflicting edits) cs)
  ∧ l_nextFiles st' =
    foldl write_change (l_nextFiles st)
          (List.filter (λ c, negb (conflicting edits c)) cs).
Proof.
  revert st. induction cs as [|c cs IH]; intros st; simpl.
  - repeat split; lia.
  - specialize (IH (apply_iter st c)). simpl in IH.
    rewrite apply_iter_edits in IH.
    destruct IH as (Ha & Hs & Hf). rewrite Ha, Hs, Hf.
    unfold apply_iter, conflicting.
    destruct (decide (path c ∈ l_edits st)) as [Hin|Hout]; simpl.
    + rewrite bool_decide_eq_true_2 by done. simpl. repeat split; lia.
    + rewrite bool_decide_eq_false_2 by done. simpl. repeat split; lia.
Qed.

Lemma foldl_write_change_other cs m p :
  (∀ c, c ∈ cs → path c ≠ p) →
  foldl write_change m cs !! p = m !! p.
Proof.
  revert m. induction cs as [|c cs IH]; intros m Hne; simpl; [done|].
  rewrite IH.
  - unfold write_change. apply js_set_lookup_ne. apply Hne. left.
  - intros c' Hc'. apply Hne. by right.
Qed.

Lemma foldl_write_change_last cs m p :
  writable m p → p ∈ path <$> cs →
  ∃ c', c' ∈ cs ∧ path c' = p ∧
        foldl write_change m cs !! p = Some (after c').
Proof.
  revert m. induction cs as [|d cs IH]; intros m Hw Hin.
  - by apply elem_of_nil in Hin.
  - simpl. destruct (decide (p ∈ path <$> cs)) as [Hex|Hno].
    + destruct (IH (write_change m d) (writable_js_set _ _ _ _ Hw) Hex)
        as (c' & ? & Hp' & Hl).
      exists c'. split; [by right|]. done.
    + assert (path d = p) as Hd.
      { rewrite fmap_cons in Hin.
        apply elem_of_cons in Hin as [->|Hin]; [done|contradiction]. }
      exists d. split; [left|]. split; [done|].
      rewrite foldl_write_change_other.
      * unfold write_change. rewrite Hd. by apply js_set_lookup_eq.
      * intros c' Hc' Heq. apply Hno. rewrite <- Heq.
        by apply list_elem_of_fmap_2.
Qed.

Lemma foldl_write_change_nodup cs m c :
  writable m (path c) → NoDup (path <$> cs) → c ∈ cs →
  foldl write_change m cs !! path c = Some (after c).
Proof.
  revert m. induction cs as [|d cs IH]; intros m Hw Hnd Hin.
  - by apply elem_of_nil in Hin.
  - simpl in *. apply NoDup_cons in Hnd as [Hd Hnd].
    apply elem_of_cons in Hin as [->|Hin].
    + rewrite foldl_write_change_other.
      * by apply js_set_lookup_eq.
      * intros c' Hc' Heq. apply Hd. rewrite <- Heq.
        by apply list_elem_of_fmap_2.
    + apply IH; [by apply writable_js_set|done|done].
Qed.

Lemma foldl_write_change_unwritable cs m p :
  ¬ writable m p → foldl write_change m cs !! p = None.
Proof.
  revert m. induction cs as [|d cs IH]; intros m Hw; simpl.
  - by apply unwritable_lookup.
  - apply IH. by apply unwritable_js_set.
Qed.

Lemma elem_of_filter_bool {A} (f : A → bool) (l : list A) x :
  x ∈ List.filter f l ↔ x ∈ l ∧ f x = true.
Proof.
  rewrite !list_elem_of_In. apply List.filter_In.
Qed.

Lemma NoDup_fmap_filter_bool {A B} (g : A → B) (f : A → bool) (l : list A) :
  NoDup (g <$> l) → NoDup (g <$> List.filter f l).
Proof.
  induction l as [|x l IH]; simpl; [done|].
  rewrite NoDup_cons. intros [Hx Hnd].
  destruct (f x); simpl; [|by apply IH].
  apply NoDup_cons. split; [|by apply IH].
  intros Hin. apply Hx.
  apply list_elem_of_fmap in Hin as (y & -> & Hy).
  apply elem_of_filter_bool in Hy as [Hy _].
  by apply list_elem_of_fmap_2.
Qed.

Lemma conflicting_false edits c : negb (conflicting edits c) = true ↔ path c ∉ edits.
Proof.
  unfold conflicting. rewrite negb_true_iff, bool_decide_eq_false. done.
Qed.

(** The scenario of the specification: [a.txt] was edited locally, changes
    are staged for [a.txt] and [b.txt]. *)
Definition demo_state : FilesState :=
  {| files := {[ "a.txt" := "mine"; "b.txt" := "old" ]};
     userEdits := {[ "a.txt" ]};
     openTabs := ["a.txt"];
     activePath := Some "a.txt";
     stagedChanges :=
       [ {| path := "a.txt"; before := "orig"; after := "theirs";
            modelUsed := Some grok |};
         {| path := "b.txt"; before := "old"; after := "new";
            modelUsed := Some claude |} ] |}.

Example applyStagedChanges_demo :
  (applyStagedChanges demo_state).2 = {| applied := 1; skipped := 1 |}
  ∧ files (applyStagedChanges demo_state).1
    = {[ "a.txt" := "mine"; "b.txt" := "new" ]}.
Proof. split; by vm_compute. Qed.

(** A change staged for the path [__proto__], on a file map that has no
    file of that name and no local edit. *)
Definition proto_state : FilesState :=
  {| files := {[ "a.txt" := "mine" ]};
     userEdits := ∅;
     openTabs := ["a.txt"];
     activePath := Some "a.txt";
     stagedChanges :=
       [ {| path := "__proto__"; before := EmptyString; after := "x";
            modelUsed := Some grok |} ] |}.

(** C3. Staged-apply conflict policy, at the input where the code breaks
    it: the one staged change, for the path [__proto__], conflicts with no
    local edit and is counted as applied, but its [after] content is not
    written - the file map is the one before the call and holds nothing
    under that path. *)
Theorem applyStagedChanges_proto_path :
  (applyStagedChanges proto_state).2 = {| applied := 1; skipped := 0 |}
  ∧ files (applyStagedChanges proto_state).1 !! "__proto__" = None
  ∧ files (applyStagedChanges proto_state).1 = files proto_state.
Proof. repeat split. Qed.

(** X31. The conflict policy on every path an assignment can write:
    [applied] counts the staged changes whose path has no local edit and
    [skipped] those whose path has one; the new file map is the old one
    with the [after] content of every non-conflicting change assigned to
    its path, in staging order.  So a writable path holds the [after] of
    a non-conflicting change naming it (of that very change when staged
    paths are distinct), while the path [__proto__], when the file map
    has no file of that name, stays absent whatever is staged for it;
    paths with a local edit, and paths no staged change names, keep
    their content. *)
Theorem applyStagedChanges_conflict_policy (s : FilesState) :
  let edits := userEdits s in
  let staged := stagedChanges s in
  let nonconf := List.filter (λ c, negb (conflicting edits c)) staged in
  let s' := (applyStagedChanges s).1 in
  let r := (applyStagedChanges s).2 in
  applied r = length nonconf
  ∧ skipped r = length (List.filter (conflicting edits) staged)
  ∧ applied r + skipped r = length staged
  ∧ files s' = foldl write_change (files s) nonconf
  ∧ (∀ c, c ∈ staged → path c ∉ edits → writable (files s) (path c) →
       ∃ c', c' ∈ staged ∧ path c' = path c ∧
             files s' !! path c = Some (after c'))
  ∧ (NoDup (path <$> staged) →
       ∀ c, c ∈ staged → path c ∉ edits → writable (files s) (path c) →
            files s' !! path c = Some (after c))
  ∧ (∀ p, ¬ writable (files s) p → files s' !! p = None)
  ∧ (∀ p, p ∈ edits → files s' !! p = files s !! p)
  ∧ (∀ p, p ∉ path <$> staged → files s' !! p = files s !! p).
Proof.
  intros edits staged nonconf s' r.
  destruct (foldl_apply_iter_counts staged
              {| l_applied := 0; l_skipped := 0;
                 l_nextFiles := files s; l_edits := userEdits s |})
    as (Ha & Hs & Hf).
  simpl in Ha, Hs, Hf. fold edits nonconf in Ha, Hs, Hf.
  assert (files s' = foldl write_change (files s) nonconf) as Hfiles
    by exact Hf.
  split; [exact Ha|]. split; [exact Hs|].
  split; [|split; [exact Hfiles|split; [|split; [|split; [|split]]]]].
  - change (applied r) with (l_applied (apply_loop s)).
    change (skipped r) with (l_skipped (apply_loop s)).
    unfold apply_loop. fold staged edits. rewrite Ha, Hs.
    subst nonconf. clear. induction staged as [|c cs IH]; simpl; [done|].
    destruct (conflicting edits c); simpl; lia.
  - intros c Hc Hout Hw.
    destruct (foldl_write_change_last nonconf (files s) (path c) Hw)
      as (c' & Hc' & Hp & Hl).
    { apply list_elem_of_fmap_2, elem_of_filter_bool.
      split; [done|]. by apply conflicting_false. }
    apply elem_of_filter_bool in Hc' as [Hc' _].
    exists c'. by rewrite Hfiles.
  - intros Hnd c Hc Hout Hw. rewrite Hfiles.
    apply foldl_write_change_nodup; [done| |].
    + by apply NoDup_fmap_filter_bool.
    + apply elem_of_filter_bool. split; [done|]. by apply conflicting_false.
  - intros p Hw. rewrite Hfiles. by apply foldl_write_change_unwritable.
  - intros p Hp. rewrite Hfiles. apply foldl_write_change_other.
    intros c Hc Heq; subst p. apply elem_of_filter_bool in Hc as [_ Hc].
    by apply conflicting_false in Hc.
  - intros p Hp. rewrite Hfiles. apply foldl_write_change_other.
    intros c Hc Heq; subst p. apply elem_of_filter_bool in Hc as [Hc _].
    apply Hp. by apply list_elem_of_fmap_2.
Qed.

(** C10. Frame property of apply: the local-edit set after the call is
    exactly the one before it (nothing removed, not even the paths of
    applied changes, and nothing added); the open tabs and the active
    path are untouched; the pending list is always emptied. *)
Theorem applyStagedChanges_frame (s : FilesState) :
  let s' := (applyStagedChanges s).1 in
  userEdits s' = userEdits s
  ∧ openTabs s' = openTabs s
  ∧ activePath s' = activePath s
  ∧ stagedChanges s' = [].
Proof.
  simpl. repeat split.
  unfold apply_loop. by rewrite foldl_apply_iter_edits.
Qed.

End Store.


(** ** JavaScript string operations *)

Module Text.

Definition nl : ascii := "010"%char.
Definition dquote : ascii := "034"%char.

(** [s.startsWith(p)] *)
Definition startsWith (s p : string) : bool := String.prefix p s.

(** [s.slice(1)] *)
Definition slice1 (s : string) : string :=
  match s with
  | EmptyString => EmptyString
  | String _ t => t
  end.

(** [s.slice(n)] for a length [n] *)
Fixpoint sdrop (n : nat) (s : string) : string :=
  match n, s with
  | S n', String _ t => sdrop n' t
  | _, _ => s
  end.

(** [s.substring(0, n)] *)
Fixpoint substring0 (n : nat) (s : string) : string :=
  match n, s with
  | S n', String c t => String c (substring0 n' t)
  | _, _ => EmptyString
  end.

(** [s.split('\n')] *)
Fixpoint split_nl (s : string) : list string :=
  match s with
  | EmptyString => [EmptyString]
  | String c t =>
      if Ascii.eqb c nl then EmptyString :: split_nl t
      else match split_nl t with
           | h :: r => String c h :: r
           | [] => [String c EmptyString]
           end
  end.

(** [ls.join('\n')] *)
Fixpoint join_nl (ls : list string) : string :=
  match ls with
  | [] => EmptyString
  | [x] => x
  | x :: r => x +:+ String nl (join_nl r)
  end.

Fixpoint has_nl (s : string) : bool :=
  match s with
  | EmptyString => false
  | String c t => Ascii.eqb c nl || has_nl t
  end.

(** [s.includes(sub)] *)
Fixpoint includes (s sub : string) : bool :=
  String.prefix sub s ||
  match s with
  | EmptyString => false
  | String _ t => includes t sub
  end.

(** First occurrence of [needle] in [s]: the text before it and the text
    after it. *)
Fixpoint find_sub (needle s : string) : option (string * string) :=
  if String.prefix needle s then
    Some (EmptyString, sdrop (String.length needle) s)
  else
    match s with
    | EmptyString => None
    | String c t =>
        match find_sub needle t with
        | Some (pre, post) => Some (String c pre, post)
        | None => None
        end
    end.

(** [toLowerCase] on 8-bit code units: A-Z and the Latin-1 capitals. *)
Definition lower_char (c : ascii) : ascii :=
  let k := nat_of_ascii c in
  if (65 <=? k) && (k <=? 90) then ascii_of_nat (k + 32)
  else if (192 <=? k) && (k <=? 222) && negb (k =? 215)
       then ascii_of_nat (k + 32)
  else c.

Fixpoint toLowerCase (s : string) : string :=
  match s with
  | EmptyString => EmptyString
  | String c t => String (lower_char c) (toLowerCase t)
  end.

(** White space and line terminators among the 8-bit code units:
    TAB, LF, VT, FF, CR, SP, NBSP. *)
Definition is_ws (c : ascii) : bool :=
  let k := nat_of_ascii c in
  ((9 <=? k) && (k <=? 13)) || (k =? 32) || (k =? 160).

Fixpoint trimStart (s : string) : string :=
  match s with
  | EmptyString => EmptyString
  | String c t => if is_ws c then trimStart t else s
  end.

Fixpoint trimEnd (s : string) : string :=
  match s with
  | EmptyString => EmptyString
  | String c t =>
      match trimEnd t with
      | EmptyString => if is_ws c then EmptyString else String c EmptyString
      | t' => String c t'
      end
  end.

(** [s.trim()] *)
Definition trim (s : string) : string := trimEnd (trimStart s).

Example split_nl_ex :
  split_nl (String "a" (String nl (String nl (String "b" EmptyString))))
  = ["a"; EmptyString; "b"].
Proof. reflexivity. Qed.

Example trim_ex : trim "  ab c  " = "ab c".
Proof. reflexivity. Qed.

Example toLowerCase_ex : toLowerCase "Build IT" = "build it".
Proof. reflexivity. Qed.

Example find_sub_ex : find_sub "lo" "hello world" = Some ("hel", " world").
Proof. reflexivity. Qed.

(** *** Facts about [String.prefix] and concatenation *)

Lemma sapp_assoc (a b c : string) : (a +:+ b) +:+ c = a +:+ (b +:+ c).
Proof. induction a as [|x a IH]; simpl; [done|]. by f_equal. Qed.

Lemma sapp_empty_r (a : string) : a +:+ EmptyString = a.
Proof. induction a as [|x a IH]; simpl; [done|]. by f_equal. Qed.

Lemma prefix_app (p s : string) :
  String.prefix p s = true ↔ ∃ post, s = p +:+ post.
Proof.
  revert s. induction p as [|a p IH]; intros s.
  - split; [eauto|by destruct s].
  - destruct s as [|b s]; simpl.
    + split; [done|]. intros [post H]. discriminate.
    + destruct (ascii_dec a b) as [->|Hne].
      * rewrite IH. split; intros [post H]; exists post; congruence.
      * split; [done|]. intros [post H]. congruence.
Qed.

Lemma prefix_app_sdrop (p s : string) :
  String.prefix p s = true → s = p +:+ sdrop (String.length p) s.
Proof.
  revert s. induction p as [|a p IH]; intros s.
  - by destruct s.
  - destruct s as [|b s]; simpl; [done|].
    destruct (ascii_dec a b) as [->|Hne]; [|done].
    intros H. by rewrite <- IH.
Qed.

Lemma includes_spec (s sub : string) :
  includes s sub = true ↔ ∃ pre post, s = pre +:+ sub +:+ post.
Proof.
  induction s as [|c s IH]; cbn [includes].
  - rewrite orb_false_r, prefix_app. split.
    + intros [post H]. by exists EmptyString, post.
    + intros (pre & post & H). destruct pre; [by eauto|discriminate].
  - rewrite orb_true_iff, prefix_app, IH. split.
    + intros [[post H]|(pre & post & H)].
      * by exists EmptyString, post.
      * exists (String c pre), post. simpl. by rewrite H.
    + intros (pre & post & H). destruct pre as [|d pre]; simpl in H.
      * left. eauto.
      * right. exists pre, post. congruence.
Qed.

Lemma find_sub_Some needle s pre post :
  find_sub needle s = Some (pre, post) → s = pre +:+ needle +:+ post.
Proof.
  revert pre post. induction s as [|c s IH]; intros pre post; cbn [find_sub].
  - destruct (String.prefix needle EmptyString) eqn:Hp; [|done].
    intros [= <- <-]. simpl. by apply prefix_app_sdrop.
  - destruct (String.prefix needle (String c s)) eqn:Hp.
    + intros [= <- <-]. simpl. by apply prefix_app_sdrop.
    + destruct (find_sub needle s) as [[pre' post']|]; [|done].
      intros [= <- <-]. simpl. by rewrite <- (IH pre' post').
Qed.

Lemma find_sub_None needle s :
  find_sub needle s = None ↔ includes s needle = false.
Proof.
  induction s as [|c s IH]; cbn [find_sub includes].
  - destruct (String.prefix needle EmptyString); simpl; split; done.
  - destruct (String.prefix needle (String c s)); simpl; [split; done|].
    rewrite <- IH. destruct (find_sub needle s) as [[??]|]; split; done.
Qed.

Lemma prefix_app_true (a b : string) : String.prefix a (a +:+ b) = true.
Proof. apply prefix_app. eauto. Qed.

(** [find_sub] finds the first occurrence: no other way of cutting [s]
    around [needle] has a shorter left part. *)
Lemma find_sub_first needle s pre post pre' post' :
  find_sub needle s = Some (pre, post) →
  s = pre' +:+ needle +:+ post' →
  String.length pre ≤ String.length pre'.
Proof.
  revert pre post pre'. induction s as [|c s IH]; intros pre post pre';
    cbn [find_sub].
  - destruct (String.prefix needle EmptyString); [|done].
    intros [= <- <-] _. simpl. lia.
  - destruct (String.prefix needle (String c s)) eqn:Hp.
    + intros [= <- <-] _. simpl. lia.
    + destruct (find_sub needle s) as [[p1 p2]|] eqn:Hf; [|done].
      intros [= <- <-] Hs. destruct pre' as [|d pre'].
      * simpl in Hs. rewrite Hs, prefix_app_true in Hp. done.
      * simpl in Hs. injection Hs as -> Hs. simpl.
        apply le_n_S. by eapply IH.
Qed.

Lemma slength_app (a b : string) :
  String.length (a +:+ b) = String.length a + String.length b.
Proof. induction a as [|x a IH]; simpl; [done|]. by rewrite IH. Qed.

Lemma sdrop_app (a b : string) : sdrop (String.length a) (a +:+ b) = b.
Proof. induction a as [|x a IH]; simpl; [by destruct b|done]. Qed.

Lemma includes_app_r (pre s sub : string) :
  includes s sub = true → includes (pre +:+ s) sub = true.
Proof.
  rewrite !includes_spec. intros (a & b & ->).
  exists (pre +:+ a), b. by rewrite sapp_assoc.
Qed.

Lemma find_sub_is_Some needle s :
  includes s needle = true → is_Some (find_sub needle s).
Proof.
  intros H. destruct (find_sub needle s) eqn:Hf; [by eexists|].
  apply find_sub_None in Hf. congruence.
Qed.

(** *** Blank strings *)

Fixpoint all_ws (s : string) : bool :=
  match s with
  | EmptyString => true
  | String c t => is_ws c && all_ws t
  end.

Lemma trimStart_head s :
  trimStart s = EmptyString
  ∨ ∃ c t, trimStart s = String c t ∧ is_ws c = false.
Proof.
  induction s as [|c s IH]; simpl; [by left|].
  destruct (is_ws c) eqn:Hc; [done|]. right. eauto.
Qed.

Lemma trimStart_empty s : trimStart s = EmptyString ↔ all_ws s = true.
Proof.
  induction s as [|c s IH]; simpl; [done|].
  destruct (is_ws c); simpl; [done|]. split; discriminate.
Qed.

Lemma trimEnd_head c t : is_ws c = false → trimEnd (String c t) ≠ EmptyString.
Proof. intros Hc. simpl. rewrite Hc. by destruct (trimEnd t). Qed.

Lemma trim_empty s : trim s = EmptyString ↔ all_ws s = true.
Proof.
  rewrite <- trimStart_empty. unfold trim. split.
  - intros H. destruct (trimStart_head s) as [|(c & t & Heq & Hc)]; [done|].
    rewrite Heq in H. by apply trimEnd_head in H.
  - by intros ->.
Qed.

(** *** [split] and [join] are mutually inverse *)

Lemma split_nl_nonempty s : split_nl s ≠ [].
Proof.
  destruct s as [|c s]; simpl; [done|].
  destruct (Ascii.eqb c nl); [done|]. by destruct (split_nl s).
Qed.

Lemma split_nl_has_nl s : Forall (λ l, has_nl l = false) (split_nl s).
Proof.
  induction s as [|c s IH]; simpl.
  - by constructor.
  - destruct (Ascii.eqb c nl) eqn:Hc.
    + by constructor.
    + destruct (split_nl s) as [|h r]; constructor; simpl; rewrite ?Hc; try done.
      * by inversion IH.
      * by inversion IH.
Qed.

Lemma join_split s : join_nl (split_nl s) = s.
Proof.
  induction s as [|c s IH]; simpl; [done|].
  destruct (Ascii.eqb c nl) eqn:Hc.
  - apply Ascii.eqb_eq in Hc as ->.
    pose proof (split_nl_nonempty s).
    destruct (split_nl s) as [|h r]; [done|]. simpl in *. by rewrite IH.
  - destruct (split_nl s) as [|h r] eqn:Hs.
    + by apply split_nl_nonempty in Hs.
    + rewrite <- IH. by destruct r.
Qed.

Lemma split_nl_line x : has_nl x = false → split_nl x = [x].
Proof.
  induction x as [|c x IH]; simpl; [done|].
  intros [Hc Hx]%orb_false_iff. rewrite Hc, IH; done.
Qed.

Lemma split_nl_app x t :
  has_nl x = false → split_nl (x +:+ String nl t) = x :: split_nl t.
Proof.
  induction x as [|c x IH]; simpl.
  - intros _. reflexivity.
  - intros [Hc Hx]%orb_false_iff. rewrite Hc, IH; done.
Qed.

Lemma split_join ls :
  ls ≠ [] → Forall (λ l, has_nl l = false) ls → split_nl (join_nl ls) = ls.
Proof.
  induction ls as [|x ls IH]; [done|].
  intros _ Hall. inversion Hall as [|?? Hx Hls]; subst.
  destruct ls as [|y ls].
  - simpl. by apply split_nl_line.
  - change (join_nl (x :: y :: ls)) with (x +:+ String nl (join_nl (y :: ls))).
    rewrite split_nl_app by done. by rewrite IH.
Qed.

(** *** Searching past a character the needle does not have *)

(** The character [a] occurs in [s]. *)
Fixpoint occurs (a : ascii) (s : string) : bool :=
  match s with
  | EmptyString => false
  | String c t => Ascii.eqb a c || occurs a t
  end.

Lemma prefix_cut n b a r :
  String.prefix n (b +:+ String a r) = true → occurs a n = false →
  String.prefix n b = true.
Proof.
  revert b. induction n as [|x n IH]; intros b; [by destruct b|].
  cbn [occurs]. intros Hp [Hx Hn]%orb_false_iff.
  destruct b as [|y b]; cbn [String.append String.prefix] in *.
  - destruct (ascii_dec x a) as [->|]; [|done].
    by rewrite Ascii.eqb_refl in Hx.
  - destruct (ascii_dec x y); [|done]. by apply IH.
Qed.

Lemma prefix_extend n b r :
  String.prefix n b = true → String.prefix n (b +:+ r) = true.
Proof.
  rewrite !prefix_app. intros [post ->]. exists (post +:+ r).
  by rewrite sapp_assoc.
Qed.

Lemma find_sub_exact a n body rest :
  occurs a n = false → includes body (String a n) = false →
  find_sub (String a n) (body +:+ String a n +:+ rest) = Some (body, rest).
Proof.
  intros Hn. induction body as [|c body IH]; intros Hinc.
  - change (EmptyString +:+ String a n +:+ rest)
      with (String a (n +:+ rest)).
    cbn [find_sub].
    change (String a (n +:+ rest)) with (String a n +:+ rest).
    by rewrite prefix_app_true, sdrop_app.
  - cbn [includes] in Hinc. apply orb_false_iff in Hinc as [Hp Hinc].
    change (String c body +:+ String a n +:+ rest)
      with (String c (body +:+ String a n +:+ rest)).
    cbn [find_sub].
    destruct (String.prefix (String a n)
                (String c (body +:+ String a n +:+ rest))) eqn:Hp'.
    + exfalso. cbn [String.prefix] in Hp, Hp'.
      destruct (ascii_dec a c); [|done].
      change (String a n +:+ rest) with (String a (n +:+ rest)) in Hp'.
      apply prefix_cut in Hp'; [congruence|done].
    + by rewrite IH.
Qed.

End Text.


(** ** The diff engine *)

Module Diff.
Import Text.

(** *** [parseUnifiedDiff] and the two tolerant appliers *)

Definition is_header (line : string) : bool :=
  startsWith line "--- " || startsWith line "+++ " || startsWith line "@@".

(** [diffText.split('\n').filter(line => !headers)] *)
Definition parseUnifiedDiff (diffText : string) : list string :=
  List.filter (λ line, negb (startsWith line "--- ")
                       && negb (startsWith line "+++ ")
                       && negb (startsWith line "@@"))
              (split_nl diffText).

(** The [for (const op of operations)] loop of [applyUnifiedDiff], started
    with cursor [i] and [result]; [None] is the early [return before]. *)
Fixpoint apply_ops (beforeLines ops : list string) (i : nat)
         (result : list string) : option (nat * list string) :=
  match ops with
  | [] => Some (i, result)
  | op :: ops' =>
      if startsWith op " " then
        let expected := slice1 op in
        if decide (beforeLines !! i = Some expected)
        then apply_ops beforeLines ops' (S i) (result ++ [expected])
        else None
      else if startsWith op "-" then
        let toRemove := slice1 op in
        if decide (beforeLines !! i = Some toRemove)
        then apply_ops beforeLines ops' (S i) result
        else apply_ops beforeLines ops' i result
      else if startsWith op "+" then
        apply_ops beforeLines ops' i (result ++ [slice1 op])
      else
        apply_ops beforeLines ops' i (result ++ [op])
  end.

Definition applyUnifiedDiff (before diffText : string) : string :=
  let operations := parseUnifiedDiff diffText in
  let beforeLines := split_nl before in
  match apply_ops beforeLines operations 0 [] with
  | None => before
  | Some (i, result) => join_nl (result ++ drop i beforeLines)
  end.

(** The client-side copy: identical except that a line with an unknown
    marker is dropped instead of copied. *)
Fixpoint apply_ops_client (beforeLines lines : list string) (i : nat)
         (out : list string) : option (nat * list string) :=
  match lines with
  | [] => Some (i, out)
  | l :: lines' =>
      if startsWith l " " then
        let expect := slice1 l in
        if decide (beforeLines !! i = Some expect)
        then apply_ops_client beforeLines lines' (S i) (out ++ [expect])
        else None
      else if startsWith l "-" then
        let rem := slice1 l in
        if decide (beforeLines !! i = Some rem)
        then apply_ops_client beforeLines lines' (S i) out
        else apply_ops_client beforeLines lines' i out
      else if startsWith l "+" then
        apply_ops_client beforeLines lines' i (out ++ [slice1 l])
      else
        apply_ops_client beforeLines lines' i out
  end.

Definition applyUnifiedDiffClient (before unified : string) : string :=
  let lines := parseUnifiedDiff unified in
  let beforeLines := split_nl before in
  match apply_ops_client beforeLines lines 0 [] with
  | None => before
  | Some (i, out) => join_nl (out ++ drop i beforeLines)
  end.

(** *** [unifiedDiff] *)

(** [dp[i][j]] and [dp[i][j] = v] on the table of [m+1] rows of [n+1]
    numbers. *)
Definition dp_get (dp : list (list nat)) (i j : nat) : nat :=
  match dp !! i with
  | Some row => default 0 (row !! j)
  | None => 0
  end.

Definition dp_set (dp : list (list nat)) (i j v : nat) : list (list nat) :=
  match dp !! i with
  | Some row => <[i := <[j := v]> row]> dp
  | None => dp
  end.

Definition line_at (ls : list string) (i : nat) : string :=
  default EmptyString (ls !! i).

Section Lines.
Variables oldLines newLines : list string.

Let m := length oldLines.
Let n := length newLines.

(** [oldLines[i] === newLines[j]], for indices in range. *)
Definition same_line (i j : nat) : bool :=
  bool_decide (oldLines !! i = newLines !! j).

(** [for (let j = n - 1; j >= 0; j--)] with [j] iterations left. *)
Fixpoint fill_row (i j : nat) (dp : list (list nat)) : list (list nat) :=
  match j with
  | 0 => dp
  | S j' =>
      let v := if same_line i j'
               then dp_get dp (i + 1) (j' + 1) + 1
               else dp_get dp (i + 1) j' `max` dp_get dp i (j' + 1) in
      fill_row i j' (dp_set dp i j' v)
  end.

(** [for (let i = m - 1; i >= 0; i--)] with [i] iterations left. *)
Fixpoint fill_rows (i : nat) (dp : list (list nat)) : list (list nat) :=
  match i with
  | 0 => dp
  | S i' => fill_rows i' (fill_row i' n dp)
  end.

Definition lcs_table : list (list nat) :=
  fill_rows m (replicate (m + 1) (replicate (n + 1) 0)).

(** The first [while (i < m && j < n)] loop; every iteration advances [i]
    or [j], so [m + n] iterations always suffice. *)
Fixpoint walk (fuel : nat) (dp : list (list nat)) (i j : nat)
         (out : list string) : nat * nat * list string :=
  match fuel with
  | 0 => (i, j, out)
  | S fuel' =>
      if (i <? m) && (j <? n) then
        if same_line i j then
          walk fuel' dp (S i) (S j) (out ++ [" " +:+ line_at oldLines i])
        else if dp_get dp i (j + 1) <=? dp_get dp (i + 1) j then
          walk fuel' dp (S i) j (out ++ ["-" +:+ line_at oldLines i])
        else
          walk fuel' dp i (S j) (out ++ ["+" +:+ line_at newLines j])
      else (i, j, out)
  end.

(** The two trailing loops. *)
Definition flush (st : nat * nat * list string) : list string :=
  let '(i, j, out) := st in
  (out ++ (String.append "-" <$> drop i oldLines))
       ++ (String.append "+" <$> drop j newLines).

Definition diff_lines : list string :=
  flush (walk (m + n) lcs_table 0 0 []).

End Lines.

Definition unifiedDiff (oldText newText : string) : string :=
  join_nl (diff_lines (split_nl oldText) (split_nl newText)).

Definition lines3 (a b c : string) : string :=
  a +:+ String nl (b +:+ String nl c).

Example unifiedDiff_ex1 :
  unifiedDiff (lines3 "a" "b" "c") (lines3 "a" "x" "c")
  = join_nl [" a"; "-b"; "+x"; " c"].
Proof. reflexivity. Qed.

Example unifiedDiff_ex2 : unifiedDiff "a" "b" = join_nl ["-a"; "+b"].
Proof. reflexivity. Qed.

Example apply_ex1 :
  applyUnifiedDiff (lines3 "a" "b" "c")
                   (unifiedDiff (lines3 "a" "b" "c") (lines3 "a" "x" "c"))
  = lines3 "a" "x" "c".
Proof. reflexivity. Qed.

Example lcs_table_ex :
  lcs_table ["a"; "b"; "c"] ["b"; "a"; "c"]
  = [[2; 2; 1; 0]; [2; 1; 1; 0]; [1; 1; 1; 0]; [0; 0; 0; 0]].
Proof. reflexivity. Qed.

(** *** Replaying an edit script *)

Lemma apply_ops_app L ops1 ops2 i res :
  apply_ops L (ops1 ++ ops2) i res =
  match apply_ops L ops1 i res with
  | Some (i', res') => apply_ops L ops2 i' res'
  | None => None
  end.
Proof.
  revert i res. induction ops1 as [|op ops1 IH]; intros i res; simpl; [done|].
  repeat (case_match; try done).
Qed.

Lemma apply_ops_client_app L ops1 ops2 i res :
  apply_ops_client L (ops1 ++ ops2) i res =
  match apply_ops_client L ops1 i res with
  | Some (i', res') => apply_ops_client L ops2 i' res'
  | None => None
  end.
Proof.
  revert i res. induction ops1 as [|op ops1 IH]; intros i res; simpl; [done|].
  repeat (case_match; try done).
Qed.

Lemma startsWith_nil s : startsWith s EmptyString = true.
Proof. by destruct s. Qed.

Lemma apply_ops_context L l ops i res :
  L !! i = Some l →
  apply_ops L (String " " l :: ops) i res = apply_ops L ops (S i) (res ++ [l]).
Proof. intros H. simpl. rewrite startsWith_nil. by rewrite decide_True. Qed.

Lemma apply_ops_delete L l ops i res :
  L !! i = Some l →
  apply_ops L (String "-" l :: ops) i res = apply_ops L ops (S i) res.
Proof. intros H. simpl. rewrite startsWith_nil. by rewrite decide_True. Qed.

Lemma apply_ops_add L l ops i res :
  apply_ops L (String "+" l :: ops) i res = apply_ops L ops i (res ++ [l]).
Proof. simpl. by rewrite startsWith_nil. Qed.

Lemma apply_ops_deletions L ops i res :
  apply_ops L ((String.append "-" <$> drop i L) ++ ops) i res
  = apply_ops L ops (i `max` length L) res.
Proof.
  remember (length L - i) as k eqn:Hk.
  revert i Hk. induction k as [|k IH]; intros i Hk.
  - rewrite drop_ge by lia. simpl. f_equal. lia.
  - destruct (L !! i) as [l|] eqn:Hl.
    + rewrite (drop_S _ _ _ Hl). rewrite fmap_cons, <- app_comm_cons.
      change ("-" +:+ l) with (String "-" l).
      rewrite apply_ops_delete by done. rewrite IH by lia.
      f_equal. apply lookup_lt_Some in Hl. lia.
    + apply lookup_ge_None in Hl. lia.
Qed.

Lemma apply_ops_additions L ls i res :
  apply_ops L (String.append "+" <$> ls) i res = Some (i, res ++ ls).
Proof.
  revert res. induction ls as [|l ls IH]; intros res.
  - simpl. by rewrite app_nil_r.
  - rewrite fmap_cons. change ("+" +:+ l) with (String "+" l).
    rewrite apply_ops_add, IH. by rewrite <- app_assoc.
Qed.

Section Roundtrip.
Variables oldLines newLines : list string.
Variable dp : list (list nat).

Let m := length oldLines.
Let n := length newLines.

Lemma walk_out fuel i j out :
  walk oldLines newLines fuel dp i j out =
  let '(i', j', o) := walk oldLines newLines fuel dp i j [] in
  (i', j', out ++ o).
Proof.
  revert i j out. induction fuel as [|fuel IH]; intros i j out; simpl.
  - by rewrite app_nil_r.
  - destruct ((i <? length oldLines) && (j <? length newLines));
      [|by rewrite app_nil_r].
    destruct (same_line oldLines newLines i j);
      [|destruct (dp_get dp i (j + 1) <=? dp_get dp (i + 1) j)];
      match goal with
      | |- walk _ _ _ _ ?a ?b (out ++ ?x) = _ =>
          rewrite (IH a b (out ++ x)), (IH a b x);
          destruct (walk oldLines newLines fuel dp a b []) as [[i' j'] o];
          by rewrite <- app_assoc
      end.
Qed.

Lemma flush_out st out :
  flush oldLines newLines (let '(i, j, o) := st in (i, j, out ++ o))
  = out ++ flush oldLines newLines st.
Proof. destruct st as [[i j] o]. simpl. by rewrite <- !app_assoc. Qed.

(** The script produced from a loop state [(i, j)] replays on the old
    lines, from cursor [i], to the remaining new lines; any amount of fuel
    gives a valid script. *)
Lemma apply_ops_walk fuel i j res :
  apply_ops oldLines
            (flush oldLines newLines (walk oldLines newLines fuel dp i j []))
            i res
  = Some (i `max` m, res ++ drop j newLines).
Proof.
  assert (∀ i j res,
    apply_ops oldLines (flush oldLines newLines (i, j, [])) i res
    = Some (i `max` m, res ++ drop j newLines)) as Hflush.
  { intros i' j' res'. simpl.
    rewrite apply_ops_deletions. apply apply_ops_additions. }
  revert i j res. induction fuel as [|fuel IH]; intros i j res.
  - apply Hflush.
  - cbn [walk]. fold m n.
    destruct ((i <? m) && (j <? n)) eqn:Hrange; [|apply Hflush].
    apply andb_true_iff in Hrange as [Hi%Nat.ltb_lt Hj%Nat.ltb_lt].
    destruct (lookup_lt_is_Some_2 oldLines i Hi) as [o Ho].
    destruct (lookup_lt_is_Some_2 newLines j Hj) as [a Ha].
    unfold line_at. rewrite Ho, Ha. simpl default.
    rewrite !app_nil_l.
    destruct (same_line oldLines newLines i j) eqn:Hsame;
      [|destruct (dp_get dp i (j + 1) <=? dp_get dp (i + 1) j)];
      rewrite walk_out, flush_out; simpl app.
    + rewrite apply_ops_context by done. rewrite IH.
      unfold same_line in Hsame. apply bool_decide_eq_true in Hsame.
      assert (o = a) as -> by congruence.
      rewrite (drop_S _ _ _ Ha), <- app_assoc. simpl. f_equal. f_equal. lia.
    + rewrite apply_ops_delete by done. rewrite IH. f_equal. f_equal. lia.
    + rewrite apply_ops_add, IH.
      by rewrite (drop_S _ _ _ Ha), <- app_assoc.
Qed.

End Roundtrip.

Lemma apply_ops_diff_lines oldLines newLines :
  apply_ops oldLines (diff_lines oldLines newLines) 0 []
  = Some (length oldLines, newLines).
Proof. unfold diff_lines. by rewrite apply_ops_walk. Qed.

(** *** The shape of the emitted lines *)

Inductive diff_line (oldLines newLines : list string) : string → Prop :=
  | dl_context l : l ∈ oldLines → diff_line oldLines newLines (String " " l)
  | dl_delete l : l ∈ oldLines → diff_line oldLines newLines (String "-" l)
  | dl_add l : l ∈ newLines → diff_line oldLines newLines (String "+" l).

Lemma Forall_diff_line_flush oldLines newLines i j out :
  Forall (diff_line oldLines newLines) out →
  Forall (diff_line oldLines newLines) (flush oldLines newLines (i, j, out)).
Proof.
  intros Hout. simpl. repeat apply Forall_app_2; [done|..].
  - apply Forall_fmap, Forall_forall. intros l Hl. apply dl_delete.
    eapply subseteq_drop, Hl.
  - apply Forall_fmap, Forall_forall. intros l Hl. apply dl_add.
    eapply subseteq_drop, Hl.
Qed.

Lemma Forall_diff_line_walk oldLines newLines dp fuel i j out :
  Forall (diff_line oldLines newLines) out →
  Forall (diff_line oldLines newLines)
         (flush oldLines newLines (walk oldLines newLines fuel dp i j out)).
Proof.
  revert i j out. induction fuel as [|fuel IH]; intros i j out Hout.
  - by apply Forall_diff_line_flush.
  - cbn [walk].
    destruct ((i <? length oldLines) && (j <? length newLines)) eqn:Hrange;
      [|by apply Forall_diff_line_flush].
    apply andb_true_iff in Hrange as [Hi%Nat.ltb_lt Hj%Nat.ltb_lt].
    destruct (lookup_lt_is_Some_2 oldLines i Hi) as [o Ho].
    destruct (lookup_lt_is_Some_2 newLines j Hj) as [a Ha].
    unfold line_at. rewrite Ho, Ha. simpl default.
    destruct (same_line oldLines newLines i j);
      [|destruct (dp_get dp i (j + 1) <=? dp_get dp (i + 1) j)];
      apply IH, Forall_app_2; try done; apply Forall_singleton.
    + apply dl_context. by eapply list_elem_of_lookup_2.
    + apply dl_delete. by eapply list_elem_of_lookup_2.
    + apply dl_add. by eapply list_elem_of_lookup_2.
Qed.

Lemma Forall_diff_line_diff_lines oldLines newLines :
  Forall (diff_line oldLines newLines) (diff_lines oldLines newLines).
Proof. apply Forall_diff_line_walk. constructor. Qed.

Lemma diff_lines_nonempty oldLines newLines :
  oldLines ≠ [] → diff_lines oldLines newLines ≠ [].
Proof.
  intros Hne Hnil. pose proof (apply_ops_diff_lines oldLines newLines) as H.
  rewrite Hnil in H. simpl in H. destruct oldLines; [done|]. simplify_eq.
Qed.

Lemma diff_line_has_nl oldLines newLines op :
  Forall (λ l, has_nl l = false) oldLines →
  Forall (λ l, has_nl l = false) newLines →
  diff_line oldLines newLines op → has_nl op = false.
Proof.
  intros Ho Hn. rewrite Forall_forall in Ho, Hn.
  destruct 1 as [l Hl|l Hl|l Hl]; simpl; auto.
Qed.

(** The lines of the text returned by [unifiedDiff] are the lines the loops
    pushed. *)
Lemma split_unifiedDiff B A :
  split_nl (unifiedDiff B A) = diff_lines (split_nl B) (split_nl A).
Proof.
  unfold unifiedDiff. apply split_join.
  - apply diff_lines_nonempty, split_nl_nonempty.
  - eapply Forall_impl; [apply Forall_diff_line_diff_lines|].
    intros op. apply diff_line_has_nl; apply split_nl_has_nl.
Qed.

Lemma filter_all {A} (f : A → bool) (l : list A) :
  Forall (λ x, f x = true) l → List.filter f l = l.
Proof.
  induction 1 as [|x l Hx Hl IH]; simpl; [done|]. by rewrite Hx, IH.
Qed.

Lemma is_header_negb line :
  negb (startsWith line "--- ") && negb (startsWith line "+++ ")
  && negb (startsWith line "@@") = negb (is_header line).
Proof. unfold is_header. by rewrite !negb_orb. Qed.

(** When the header filter removes nothing, replaying the diff rebuilds the
    candidate. *)
Lemma roundtrip_core B A :
  Forall (λ l, is_header l = false) (diff_lines (split_nl B) (split_nl A)) →
  applyUnifiedDiff B (unifiedDiff B A) = A.
Proof.
  intros Hhdr. unfold applyUnifiedDiff, parseUnifiedDiff.
  rewrite split_unifiedDiff, filter_all.
  - rewrite apply_ops_diff_lines, drop_all, app_nil_r. apply join_split.
  - eapply Forall_impl; [exact Hhdr|]. intros l Hl. simpl.
    by rewrite is_header_negb, Hl.
Qed.

Lemma diff_line_is_header oldLines newLines op :
  Forall (λ l, startsWith l "-- " = false) oldLines →
  Forall (λ l, startsWith l "++ " = false) newLines →
  diff_line oldLines newLines op → is_header op = false.
Proof.
  intros Ho Hn. rewrite Forall_forall in Ho, Hn.
  destruct 1 as [l Hl|l Hl|l Hl]; unfold is_header, startsWith in *; simpl.
  - done.
  - rewrite !orb_false_r. by apply Ho.
  - rewrite !orb_false_r. by apply Hn.
Qed.

(** In terms of the two texts: nothing is lost when no line of the base
    starts with [-- ] and no line of the candidate starts with [++ ]. *)
Lemma roundtrip_plain_lines B A :
  Forall (λ l, startsWith l "-- " = false) (split_nl B) →
  Forall (λ l, startsWith l "++ " = false) (split_nl A) →
  applyUnifiedDiff B (unifiedDiff B A) = A.
Proof.
  intros HB HA. apply roundtrip_core.
  eapply Forall_impl; [apply Forall_diff_line_diff_lines|].
  intros op. by apply diff_line_is_header.
Qed.

(** Idempotence on such texts: the diff of a text with itself applies to
    the text itself. *)
Lemma roundtrip_same B :
  Forall (λ l, startsWith l "-- " = false) (split_nl B) →
  Forall (λ l, startsWith l "++ " = false) (split_nl B) →
  applyUnifiedDiff B (unifiedDiff B B) = B.
Proof. apply roundtrip_plain_lines. Qed.

(** C1 (as amended). Diff round trip: for every base text [B] and candidate
    text [A] such that no line of the computed diff begins with [--- ],
    [+++ ] or [@@] (the header lines [parseUnifiedDiff] filters out),
    applying the computed diff to the base reproduces the candidate:
    [applyUnifiedDiff(B, unifiedDiff(B, A)) == A]. *)
Theorem roundtrip_without_headers B A :
  Forall (λ l, is_header l = false) (split_nl (unifiedDiff B A)) →
  applyUnifiedDiff B (unifiedDiff B A) = A.
Proof.
  rewrite split_unifiedDiff. apply roundtrip_core.
Qed.

Lemma roundtrip_without_headers_witness :
  applyUnifiedDiff (lines3 "a" "b" "c")
                   (unifiedDiff (lines3 "a" "b" "c") (lines3 "a" "x" "c"))
  = lines3 "a" "x" "c".
Proof.
  apply (roundtrip_without_headers (lines3 "a" "b" "c") (lines3 "a" "x" "c")).
  vm_compute. repeat constructor.
Defined.

(** C1 fails as stated: deleting a line that starts with [-- ] (an SQL or
    Lua comment) emits [--- note], which [parseUnifiedDiff] takes for a file
    header and drops; the context line that follows then misaligns and the
    base comes back unchanged. *)
Lemma roundtrip_counterexample :
  let B := "-- note" +:+ String nl "code" in
  let A := "code" in
  unifiedDiff B A = "--- note" +:+ String nl " code"
  ∧ applyUnifiedDiff B (unifiedDiff B A) = B
  ∧ applyUnifiedDiff B (unifiedDiff B A) ≠ A.
Proof. vm_compute. repeat split; discriminate. Qed.

(** *** Fail-closed replay *)

(** The read cursor of the replay after a run of operations, [None] once a
    context line has failed to match.  Both appliers move it alike. *)
Fixpoint cursor (beforeLines ops : list string) (i : nat) : option nat :=
  match ops with
  | [] => Some i
  | op :: ops' =>
      if startsWith op " " then
        if decide (beforeLines !! i = Some (slice1 op))
        then cursor beforeLines ops' (S i)
        else None
      else if startsWith op "-" then
        if decide (beforeLines !! i = Some (slice1 op))
        then cursor beforeLines ops' (S i)
        else cursor beforeLines ops' i
      else cursor beforeLines ops' i
  end.

Lemma apply_ops_cursor L ops i res :
  fst <$> apply_ops L ops i res = cursor L ops i.
Proof.
  revert i res. induction ops as [|op ops IH]; intros i res; simpl; [done|].
  repeat case_match; try done; apply IH.
Qed.

Lemma apply_ops_client_cursor L ops i res :
  fst <$> apply_ops_client L ops i res = cursor L ops i.
Proof.
  revert i res. induction ops as [|op ops IH]; intros i res; simpl; [done|].
  repeat case_match; try done; apply IH.
Qed.

Lemma cursor_app L ops1 ops2 i :
  cursor L (ops1 ++ ops2) i = cursor L ops1 i ≫= cursor L ops2.
Proof.
  revert i. induction ops1 as [|op ops1 IH]; intros i; simpl; [done|].
  repeat case_match; try done; apply IH.
Qed.

Lemma cursor_mismatch L pre op post i :
  cursor L pre 0 = Some i →
  startsWith op " " = true →
  L !! i ≠ Some (slice1 op) →
  cursor L (pre ++ op :: post) 0 = None.
Proof.
  intros Hpre Hctx Hne. rewrite cursor_app, Hpre. simpl.
  rewrite Hctx. by rewrite decide_False.
Qed.

(** Conversely, the replay only gives up at a context line that differs
    from the line under the cursor. *)
Lemma cursor_None L ops i :
  cursor L ops i = None →
  ∃ pre op post k,
    ops = pre ++ op :: post ∧ cursor L pre i = Some k
    ∧ startsWith op " " = true ∧ L !! k ≠ Some (slice1 op).
Proof.
  revert i. induction ops as [|op ops IH]; intros i; simpl; [done|].
  assert (∀ k, cursor L ops k = None →
    (∀ j, cursor L [op] i = Some j → j = k) → cursor L [op] i = Some k →
    ∃ pre op' post k',
      op :: ops = pre ++ op' :: post ∧ cursor L pre i = Some k'
      ∧ startsWith op' " " = true ∧ L !! k' ≠ Some (slice1 op')) as Hstep.
  { intros k Hk _ Hop. destruct (IH k Hk) as (pre & op' & post & k' & -> & ? & ? & ?).
    exists (op :: pre), op', post, k'. split; [done|]. split; [|done].
    change (op :: pre) with ([op] ++ pre). rewrite cursor_app, Hop. done. }
  destruct (startsWith op " ") eqn:Hctx.
  - destruct (decide (L !! i = Some (slice1 op))) as [Heq|Hne].
    + intros Hk. apply (Hstep (S i) Hk); simpl; rewrite Hctx, decide_True; congruence.
    + intros _. exists [], op, ops, i. done.
  - destruct (startsWith op "-") eqn:Hdel.
    + destruct (decide (L !! i = Some (slice1 op))) as [Heq|Hne].
      * intros Hk. apply (Hstep (S i) Hk); simpl;
          rewrite Hctx, Hdel, decide_True; congruence.
      * intros Hk. apply (Hstep i Hk); simpl;
          rewrite Hctx, Hdel, decide_False; congruence.
    + intros Hk. apply (Hstep i Hk); simpl; rewrite Hctx, Hdel; congruence.
Qed.

Lemma applyUnifiedDiff_cursor_None B d :
  cursor (split_nl B) (parseUnifiedDiff d) 0 = None →
  applyUnifiedDiff B d = B ∧ applyUnifiedDiffClient B d = B.
Proof.
  intros Hc. unfold applyUnifiedDiff, applyUnifiedDiffClient.
  pose proof (apply_ops_cursor (split_nl B) (parseUnifiedDiff d) 0 []) as H1.
  pose proof (apply_ops_client_cursor (split_nl B) (parseUnifiedDiff d) 0 [])
    as H2.
  rewrite Hc in H1, H2.
  destruct (apply_ops _ _ _ _) as [[??]|]; [done|].
  destruct (apply_ops_client _ _ _ _) as [[??]|]; done.
Qed.

(** C4. Tolerant apply is fail-closed on a context mismatch: if, in the
    replay of the operations of a diff on a base text [B], a context line
    (one starting with a space) differs from the line of [B] under the
    cursor, then [applyUnifiedDiff] - and the client copy - return [B]
    itself: whole, and as a value (the functions are total). *)
Theorem applyUnifiedDiff_fail_closed B d pre op post i :
  parseUnifiedDiff d = pre ++ op :: post →
  cursor (split_nl B) pre 0 = Some i →
  startsWith op " " = true →
  split_nl B !! i ≠ Some (slice1 op) →
  applyUnifiedDiff B d = B ∧ applyUnifiedDiffClient B d = B.
Proof.
  intros Hops Hpre Hctx Hne. apply applyUnifiedDiff_cursor_None.
  rewrite Hops. by eapply cursor_mismatch.
Qed.

Lemma applyUnifiedDiff_fail_closed_witness :
  let B := lines3 "a" "b" "c" in
  let d := "@@ -1,3 +1,3 @@" +:+ String nl (lines3 " a" "+new" " x") in
  applyUnifiedDiff B d = B ∧ applyUnifiedDiffClient B d = B.
Proof.
  apply (applyUnifiedDiff_fail_closed _ _ [" a"; "+new"] " x" [] 1).
  - reflexivity.
  - reflexivity.
  - reflexivity.
  - vm_compute. discriminate.
Defined.

(** *** Longest common subsequences *)

(** The length of a longest common subsequence, by the textbook recursion
    on the two sequences. *)
Fixpoint lcs_len (xs ys : list string) {struct xs} : nat :=
  match xs with
  | [] => 0
  | x :: xs' =>
      (fix inner (ys : list string) : nat :=
         match ys with
         | [] => 0
         | y :: ys' =>
             if decide (x = y) then S (lcs_len xs' ys')
             else lcs_len xs' ys `max` inner ys'
         end) ys
  end.

Lemma lcs_len_nil_r xs : lcs_len xs [] = 0.
Proof. by destruct xs. Qed.

Lemma lcs_len_cons x xs y ys :
  lcs_len (x :: xs) (y :: ys) =
  if decide (x = y) then S (lcs_len xs ys)
  else lcs_len xs (y :: ys) `max` lcs_len (x :: xs) ys.
Proof. reflexivity. Qed.

Lemma sublist_tail {A} (z : A) zs l :
  z :: zs `sublist_of` l → zs `sublist_of` l.
Proof. intros H. etrans; [|exact H]. by apply sublist_cons. Qed.

(** No common subsequence is longer than [lcs_len]. *)
Lemma lcs_len_upper xs ys zs :
  zs `sublist_of` xs → zs `sublist_of` ys → length zs ≤ lcs_len xs ys.
Proof.
  revert ys zs. induction xs as [|x xs IHx]; intros ys zs Hx Hy.
  - apply sublist_nil_r in Hx as ->. simpl. lia.
  - revert zs Hx Hy. induction ys as [|y ys IHy]; intros zs Hx Hy.
    + apply sublist_nil_r in Hy as ->. simpl. lia.
    + rewrite lcs_len_cons. destruct (decide (x = y)) as [->|Hne].
      * destruct zs as [|z zs]; [simpl; lia|]. simpl.
        apply le_n_S, IHx.
        -- apply sublist_cons_r in Hx as [Hx|(zs' & [= -> ->] & Hx)];
             [by eapply sublist_tail|done].
        -- apply sublist_cons_r in Hy as [Hy|(zs' & [= -> ->] & Hy)];
             [by eapply sublist_tail|done].
      * apply sublist_cons_r in Hx as [Hx|(zs' & -> & Hx)].
        -- specialize (IHx (y :: ys) zs Hx Hy). lia.
        -- apply sublist_cons_r in Hy as [Hy|(zs'' & [= -> ->] & Hy)];
             [|done].
           assert (length (x :: zs') ≤ lcs_len (x :: xs) ys); [|lia].
           apply IHy; [|done]. by apply sublist_skip.
Qed.

(** Some common subsequence has length [lcs_len]. *)
Lemma lcs_len_attained xs ys :
  ∃ zs, zs `sublist_of` xs ∧ zs `sublist_of` ys ∧ length zs = lcs_len xs ys.
Proof.
  revert ys. induction xs as [|x xs IHx]; intros ys.
  - exists []. split; [done|]. split; [apply sublist_nil_l|done].
  - induction ys as [|y ys IHy].
    + exists []. split; [apply sublist_nil_l|done].
    + rewrite lcs_len_cons. destruct (decide (x = y)) as [->|Hne].
      * destruct (IHx ys) as (zs & H1 & H2 & H3).
        exists (y :: zs). split; [by apply sublist_skip|].
        split; [by apply sublist_skip|]. simpl. by rewrite H3.
      * destruct (Nat.max_spec (lcs_len xs (y :: ys)) (lcs_len (x :: xs) ys))
          as [[_ ->]|[_ ->]].
        -- destruct IHy as (zs & H1 & H2 & H3).
           exists zs. split; [done|]. split; [by apply sublist_cons|done].
        -- destruct (IHx (y :: ys)) as (zs & H1 & H2 & H3).
           exists zs. split; [by apply sublist_cons|done].
Qed.

(** *** The table holds the LCS lengths of the suffixes *)

Definition table_shape (m n : nat) (dp : list (list nat)) : Prop :=
  length dp = m + 1 ∧ Forall (λ row, length row = n + 1) dp.

Lemma dp_set_shape m n dp i j v :
  table_shape m n dp → table_shape m n (dp_set dp i j v).
Proof.
  intros [Hlen Hrows]. unfold dp_set.
  destruct (dp !! i) as [row|] eqn:Hrow; [|done].
  split; [by rewrite length_insert|].
  apply Forall_insert; [done|]. rewrite length_insert.
  rewrite Forall_forall in Hrows. apply Hrows.
  by eapply list_elem_of_lookup_2.
Qed.

Lemma dp_get_set m n dp i j v i' j' :
  table_shape m n dp → i ≤ m → j ≤ n →
  dp_get (dp_set dp i j v) i' j' =
  if decide (i' = i ∧ j' = j) then v else dp_get dp i' j'.
Proof.
  intros [Hlen Hrows] Hi Hj. unfold dp_set, dp_get.
  destruct (lookup_lt_is_Some_2 dp i) as [row Hrow]; [lia|].
  rewrite Hrow.
  assert (length row = n + 1) as Hrl.
  { rewrite Forall_forall in Hrows. apply Hrows.
    by eapply list_elem_of_lookup_2. }
  destruct (decide (i' = i)) as [->|Hne].
  - rewrite list_lookup_insert_eq by lia.
    destruct (decide (j' = j)) as [->|Hnej].
    + rewrite list_lookup_insert_eq by lia. simpl.
      by rewrite decide_True.
    + rewrite list_lookup_insert_ne by done. rewrite Hrow.
      rewrite decide_False; [done|]. by intros [_ ?].
  - rewrite list_lookup_insert_ne by done.
    rewrite decide_False; [done|]. by intros [? _].
Qed.

Section Table.
Variables oldLines newLines : list string.

Let m := length oldLines.
Let n := length newLines.

(** [suffix_lcs i j]: the LCS length of what remains of the two texts from
    line [i] of the old one and line [j] of the new one. *)
Definition suffix_lcs (i j : nat) : nat :=
  lcs_len (drop i oldLines) (drop j newLines).

Lemma suffix_lcs_old_end i j : m ≤ i → suffix_lcs i j = 0.
Proof. intros Hi. unfold suffix_lcs. by rewrite drop_ge. Qed.

Lemma suffix_lcs_new_end i j : n ≤ j → suffix_lcs i j = 0.
Proof.
  intros Hj. unfold suffix_lcs. rewrite (drop_ge newLines) by done.
  apply lcs_len_nil_r.
Qed.

Lemma suffix_lcs_step i j :
  i < m → j < n →
  suffix_lcs i j =
  if same_line oldLines newLines i j then suffix_lcs (i + 1) (j + 1) + 1
  else suffix_lcs (i + 1) j `max` suffix_lcs i (j + 1).
Proof.
  intros Hi Hj.
  destruct (lookup_lt_is_Some_2 oldLines i Hi) as [o Ho].
  destruct (lookup_lt_is_Some_2 newLines j Hj) as [a Ha].
  unfold suffix_lcs, same_line. rewrite !Nat.add_1_r.
  rewrite (drop_S _ _ _ Ho), (drop_S _ _ _ Ha), lcs_len_cons, Ho, Ha.
  destruct (decide (o = a)) as [->|Hne].
  - rewrite bool_decide_eq_true_2 by done. lia.
  - by rewrite bool_decide_eq_false_2 by congruence.
Qed.

Lemma fill_row_spec i j dp :
  table_shape m n dp → i < m → j ≤ n →
  (∀ j', j ≤ j' → dp_get dp i j' = suffix_lcs i j') →
  (∀ i' j', i < i' → dp_get dp i' j' = suffix_lcs i' j') →
  table_shape m n (fill_row oldLines newLines i j dp)
  ∧ (∀ j', dp_get (fill_row oldLines newLines i j dp) i j' = suffix_lcs i j')
  ∧ (∀ i' j', i' ≠ i →
       dp_get (fill_row oldLines newLines i j dp) i' j' = dp_get dp i' j').
Proof.
  revert dp. induction j as [|j IH]; intros dp Hshape Hi Hj Hrow Hbelow.
  - simpl. split; [done|]. split; [|done]. intros j'. apply Hrow. lia.
  - cbn [fill_row].
    set (v := if same_line oldLines newLines i j
              then dp_get dp (i + 1) (j + 1) + 1
              else dp_get dp (i + 1) j `max` dp_get dp i (j + 1)).
    assert (v = suffix_lcs i j) as Hv.
    { subst v. rewrite suffix_lcs_step by lia.
      rewrite !Hbelow by lia. rewrite Hrow by lia. done. }
    assert (∀ i' j', dp_get (dp_set dp i j v) i' j' =
              if decide (i' = i ∧ j' = j) then v else dp_get dp i' j') as Hset.
    { intros i' j'. apply (dp_get_set m n); [done|lia|lia]. }
    destruct (IH (dp_set dp i j v)) as (Hshape' & Hrow' & Hother').
    + by apply dp_set_shape.
    + done.
    + lia.
    + intros j' Hj'. rewrite Hset. case_decide as Hd.
      * destruct Hd as [_ ->]. done.
      * apply Hrow. destruct (decide (j' = j)) as [->|]; [|lia].
        exfalso. by apply Hd.
    + intros i' j' Hi'. rewrite Hset. rewrite decide_False by lia.
      by apply Hbelow.
    + split; [done|]. split; [done|].
      intros i' j' Hne. rewrite Hother' by done. rewrite Hset.
      rewrite decide_False; [done|]. by intros [? _].
Qed.

Lemma fill_rows_spec i dp :
  table_shape m n dp → i ≤ m →
  (∀ i' j', i ≤ i' → dp_get dp i' j' = suffix_lcs i' j') →
  (∀ i' j', n ≤ j' → dp_get dp i' j' = 0) →
  ∀ i' j', dp_get (fill_rows oldLines newLines i dp) i' j' = suffix_lcs i' j'.
Proof.
  revert dp. induction i as [|i IH]; intros dp Hshape Hi Hdone Hzero.
  - simpl. intros i' j'. apply Hdone. lia.
  - cbn [fill_rows]. fold n.
    destruct (fill_row_spec i n dp) as (Hshape' & Hrow' & Hother');
      [done|lia|lia|..].
    + intros j' Hj'. rewrite Hzero by done. by rewrite suffix_lcs_new_end.
    + intros i' j' Hi'. apply Hdone. lia.
    + apply IH; [done|lia|..].
      * intros i' j' Hi'. destruct (decide (i' = i)) as [->|Hne]; [done|].
        rewrite Hother' by done. apply Hdone. lia.
      * intros i' j' Hj'. destruct (decide (i' = i)) as [->|Hne].
        -- rewrite Hrow'. by apply suffix_lcs_new_end.
        -- rewrite Hother' by done. by apply Hzero.
Qed.

Lemma dp_get_zeros a b i j :
  dp_get (replicate a (replicate b 0)) i j = 0.
Proof.
  unfold dp_get. destruct (replicate a _ !! i) as [row|] eqn:Hrow; [|done].
  apply lookup_replicate in Hrow as [-> _].
  destruct (replicate b 0 !! j) as [x|] eqn:Hx; [|done].
  by apply lookup_replicate in Hx as [-> _].
Qed.

(** Every entry of the table built by [unifiedDiff] is the LCS length of
    the remaining lines. *)
Lemma lcs_table_spec i j :
  dp_get (lcs_table oldLines newLines) i j = suffix_lcs i j.
Proof.
  unfold lcs_table. apply fill_rows_spec.
  - split; [by rewrite length_replicate|].
    apply Forall_replicate. by rewrite length_replicate.
  - done.
  - intros i' j' Hi'. rewrite dp_get_zeros. by rewrite suffix_lcs_old_end.
  - intros i' j' _. apply dp_get_zeros.
Qed.

(** The first loop stops by itself within [m + n] iterations: fuel beyond
    the distance to the end of both texts is never used. *)
Lemma walk_fuel dp fuel fuel' i j out :
  (m - i) + (n - j) ≤ fuel → (m - i) + (n - j) ≤ fuel' →
  walk oldLines newLines fuel dp i j out
  = walk oldLines newLines fuel' dp i j out.
Proof.
  revert fuel' i j out. induction fuel as [|fuel IH];
    intros fuel' i j out Hf Hf'.
  - destruct fuel' as [|fuel']; [done|]. cbn [walk]. fold m n.
    rewrite andb_false_intro1; [done|]. apply Nat.ltb_ge. lia.
  - destruct fuel' as [|fuel'].
    + cbn [walk]. fold m n.
      rewrite andb_false_intro1; [done|]. apply Nat.ltb_ge. lia.
    + cbn [walk]. fold m n.
      destruct ((i <? m) && (j <? n)) eqn:Hrange; [|done].
      apply andb_true_iff in Hrange as [Hi%Nat.ltb_lt Hj%Nat.ltb_lt].
      repeat case_match; apply IH; lia.
Qed.

Lemma walk_exit dp fuel i j out :
  (m - i) + (n - j) ≤ fuel →
  let '(i', j', _) := walk oldLines newLines fuel dp i j out in
  ¬ (i' < m ∧ j' < n).
Proof.
  revert i j out. induction fuel as [|fuel IH]; intros i j out Hf.
  - simpl. lia.
  - cbn [walk]. fold m n.
    destruct ((i <? m) && (j <? n)) eqn:Hrange.
    + apply andb_true_iff in Hrange as [Hi%Nat.ltb_lt Hj%Nat.ltb_lt].
      destruct (same_line oldLines newLines i j);
        [|destruct (dp_get dp i (j + 1) <=? dp_get dp (i + 1) j)];
        apply IH; lia.
    + apply andb_false_iff in Hrange as [Hi%Nat.ltb_ge|Hj%Nat.ltb_ge]; lia.
Qed.

End Table.

(** The rest of the output of [unifiedDiff] from a loop state [(i, j, out)]
    reached by the first loop. *)
Definition diff_from (oldLines newLines : list string) (i j : nat)
           (out : list string) : list string :=
  flush oldLines newLines
        (walk oldLines newLines
              ((length oldLines - i) + (length newLines - j))
              (lcs_table oldLines newLines) i j out).

Lemma diff_lines_diff_from oldLines newLines :
  diff_lines oldLines newLines = diff_from oldLines newLines 0 0 [].
Proof. unfold diff_lines, diff_from. by rewrite !Nat.sub_0_r. Qed.

Lemma diff_from_out oldLines newLines i j out :
  diff_from oldLines newLines i j out
  = out ++ diff_from oldLines newLines i j [].
Proof. unfold diff_from. by rewrite walk_out, flush_out. Qed.

(** One iteration of the first loop, as a transition between loop states
    [(i, j, out)]. *)
Inductive loop_step (oldLines newLines : list string)
  : nat * nat * list string → nat * nat * list string → Prop :=
  | step_context i j out :
      i < length oldLines → j < length newLines →
      same_line oldLines newLines i j = true →
      loop_step oldLines newLines (i, j, out)
                (S i, S j, out ++ [" " +:+ line_at oldLines i])
  | step_delete i j out :
      i < length oldLines → j < length newLines →
      same_line oldLines newLines i j = false →
      dp_get (lcs_table oldLines newLines) i (j + 1)
        ≤ dp_get (lcs_table oldLines newLines) (i + 1) j →
      loop_step oldLines newLines (i, j, out)
                (S i, j, out ++ ["-" +:+ line_at oldLines i])
  | step_add i j out :
      i < length oldLines → j < length newLines →
      same_line oldLines newLines i j = false →
      dp_get (lcs_table oldLines newLines) (i + 1) j
        < dp_get (lcs_table oldLines newLines) i (j + 1) →
      loop_step oldLines newLines (i, j, out)
                (i, S j, out ++ ["+" +:+ line_at newLines j]).

(** The loop states a run of [unifiedDiff] goes through. *)
Definition reachable (oldLines newLines : list string)
           (st : nat * nat * list string) : Prop :=
  rtc (loop_step oldLines newLines) (0, 0, []) st.

Lemma diff_from_step oldLines newLines i j out i' j' out' :
  loop_step oldLines newLines (i, j, out) (i', j', out') →
  diff_from oldLines newLines i j out
  = diff_from oldLines newLines i' j' out'.
Proof.
  inversion 1 as [??? Hi Hj Hs|??? Hi Hj Hs Hd|??? Hi Hj Hs Hd]; subst;
    unfold diff_from;
    match goal with
    | |- flush _ _ (walk _ _ ?d _ _ _ _) = _ =>
        replace d with (S (d - 1)) by lia
    end;
    cbn [walk];
    rewrite (proj2 (Nat.ltb_lt _ _) Hi), (proj2 (Nat.ltb_lt _ _) Hj), Hs;
    simpl andb.
  - f_equal. apply walk_fuel; lia.
  - rewrite (proj2 (Nat.leb_le _ _) Hd). f_equal. apply walk_fuel; lia.
  - rewrite (proj2 (Nat.leb_gt _ _)) by done. f_equal. apply walk_fuel; lia.
Qed.

(** From every state it goes through, the run produces the lines of
    [unifiedDiff]. *)
Lemma diff_lines_reachable oldLines newLines i j out :
  reachable oldLines newLines (i, j, out) →
  diff_lines oldLines newLines = diff_from oldLines newLines i j out.
Proof.
  unfold reachable. intros Hr.
  change (let '(i, j, out) := (i, j, out) in
          diff_lines oldLines newLines = diff_from oldLines newLines i j out).
  revert Hr. generalize (i, j, out). clear i j out.
  apply (rtc_ind_r (λ st : nat * nat * list string,
           let '(i, j, out) := st in
           diff_lines oldLines newLines
           = diff_from oldLines newLines i j out)).
  - apply diff_lines_diff_from.
  - intros [[i j] out] [[i' j'] out'] _ Hstep IH.
    rewrite IH. by apply diff_from_step.
Qed.

(** C8. Diff tie-break: in a loop state [(i, j)] where the two current
    lines differ and the remaining LCS length is the same whether the old
    line or the new line is consumed, [unifiedDiff] consumes the old line:
    the next line it emits is [-] followed by that old line, and the loop
    goes on from [(i + 1, j)] - so the [-] line comes before whatever is
    emitted for the new line; when the state is one the run goes through,
    that is the text [unifiedDiff] returns. *)
Theorem unifiedDiff_tie_break oldText newText i j out :
  let oldLines := split_nl oldText in
  let newLines := split_nl newText in
  i < length oldLines → j < length newLines →
  oldLines !! i ≠ newLines !! j →
  suffix_lcs oldLines newLines (i + 1) j
    = suffix_lcs oldLines newLines i (j + 1) →
  loop_step oldLines newLines (i, j, out)
            (S i, j, out ++ ["-" +:+ line_at oldLines i])
  ∧ diff_from oldLines newLines i j out
    = diff_from oldLines newLines (i + 1) j
                (out ++ ["-" +:+ line_at oldLines i])
  ∧ (∃ rest, diff_from oldLines newLines i j out
             = out ++ ("-" +:+ line_at oldLines i) :: rest)
  ∧ (reachable oldLines newLines (i, j, out) →
     ∃ rest, split_nl (unifiedDiff oldText newText)
             = out ++ ("-" +:+ line_at oldLines i) :: rest).
Proof.
  intros oldLines newLines Hi Hj Hne Htie.
  assert (loop_step oldLines newLines (i, j, out)
            (S i, j, out ++ ["-" +:+ line_at oldLines i])) as Hstep.
  { apply step_delete; [done|done|..].
    - unfold same_line. by rewrite bool_decide_eq_false_2.
    - rewrite !lcs_table_spec, Htie. done. }
  assert (∃ rest, diff_from oldLines newLines i j out
                  = out ++ ("-" +:+ line_at oldLines i) :: rest) as Hrest.
  { rewrite (diff_from_step _ _ _ _ _ _ _ _ Hstep), diff_from_out.
    exists (diff_from oldLines newLines (S i) j []).
    by rewrite <- app_assoc. }
  split; [exact Hstep|]. split; [|split; [exact Hrest|]].
  - rewrite Nat.add_1_r. by apply diff_from_step.
  - intros Hreach. rewrite split_unifiedDiff.
    fold oldLines newLines.
    by rewrite (diff_lines_reachable _ _ _ _ _ Hreach).
Qed.

Lemma unifiedDiff_tie_break_witness :
  let oldText := "a" +:+ String nl "b" in
  let newText := "b" +:+ String nl "a" in
  loop_step ["a"; "b"] ["b"; "a"] (0, 0, []) (1, 0, ["-a"])
  ∧ diff_from ["a"; "b"] ["b"; "a"] 0 0 []
    = diff_from ["a"; "b"] ["b"; "a"] 1 0 ["-a"]
  ∧ (∃ rest, diff_from ["a"; "b"] ["b"; "a"] 0 0 [] = "-a" :: rest)
  ∧ (reachable ["a"; "b"] ["b"; "a"] (0, 0, []) →
     ∃ rest, split_nl (unifiedDiff oldText newText) = "-a" :: rest).
Proof.
  apply (unifiedDiff_tie_break
           ("a" +:+ String nl "b") ("b" +:+ String nl "a") 0 0 []).
  - simpl. lia.
  - simpl. lia.
  - discriminate.
  - reflexivity.
Defined.

Example unifiedDiff_tie_ex :
  unifiedDiff ("a" +:+ String nl "b") ("b" +:+ String nl "a")
  = lines3 "-a" " b" "+a".
Proof. reflexivity. Qed.

End Diff.


(** ** The output protocol codec *)

Module Codec.
Import Text.

Inductive Model := grok | claude.

Record FileOut := {
  path : string;
  content : string;
  diff : bool;
  modelUsed : Model
}.

Record Parsed := {
  files : list FileOut;
  explanation : string;
  tests : string
}.

(** The literal pieces of [fileRegex]: the opening tag up to and including
    the quote that opens the path, the quote and bracket that end the tag,
    and the closing tag.  Between the first two the pattern has its path
    class (one or more characters other than a quote, captured), between
    the last two a lazy run of any characters (captured). *)
Definition file_open : string := "<file path=" +:+ String dquote EmptyString.
Definition file_open_end : string := String dquote ">".
Definition file_close : string := "</file>".

(** The path class is greedy, but what follows it must be a quote: the only
    way to match is to take every character up to the next quote. *)
Fixpoint span_nonquote (s : string) : string * string :=
  match s with
  | EmptyString => (EmptyString, EmptyString)
  | String c t =>
      if Ascii.eqb c dquote then (EmptyString, s)
      else let '(p, r) := span_nonquote t in (String c p, r)
  end.

(** A match of the pattern that starts at the first character of [s]: the
    two captures and the text after the match.  The body is lazy, so it
    ends at the first [</file>]. *)
Definition match_file_here (s : string)
  : option (string * string * string) :=
  if String.prefix file_open s then
    let '(p, s2) := span_nonquote (sdrop (String.length file_open) s) in
    match p with
    | EmptyString => None
    | _ =>
        if String.prefix file_open_end s2 then
          match find_sub file_close
                         (sdrop (String.length file_open_end) s2) with
          | Some (body, rest) => Some (p, body, rest)
          | None => None
          end
        else None
    end
  else None.

(** [fileRegex.exec]: the leftmost match in [s]. *)
Fixpoint exec_file (s : string) : option (string * string * string) :=
  match match_file_here s with
  | Some r => Some r
  | None =>
      match s with
      | EmptyString => None
      | String _ t => exec_file t
      end
  end.

(** [while ((m = fileRegex.exec(raw)) !== null) files.push(...)]; the
    search resumes after each match, so the text left shrinks and
    [String.length raw] iterations suffice. *)
Fixpoint file_blocks (fuel : nat) (s : string) (modelUsed : Model)
  : list FileOut :=
  match fuel with
  | 0 => []
  | S fuel' =>
      match exec_file s with
      | Some (p, body, rest) =>
          {| path := p; content := trim body; diff := false;
             modelUsed := modelUsed |}
          :: file_blocks fuel' rest modelUsed
      | None => []
      end
  end.

(** The capture of [raw.match] on an opening tag, a lazy body and a closing
    tag: the text between the first opening tag and the first closing tag
    after it (if the first opening tag has no closing tag after it, no
    later one has). *)
Definition capture_tag (open close raw : string) : option string :=
  match find_sub open raw with
  | Some (_, after) =>
      match find_sub close after with
      | Some (body, _) => Some body
      | None => None
      end
  | None => None
  end.

Definition default_path : string := "src/App.jsx".

Definition parseOutputToJson (raw : string) (modelUsed : Model) : Parsed :=
  let files := file_blocks (String.length raw) raw modelUsed in
  let files :=
    if (length files =? 0) && (0 <? String.length (trim raw))
    then files ++ [ {| path := default_path; content := trim raw;
                       diff := false; modelUsed := modelUsed |} ]
    else files in
  {| files := files;
     explanation :=
       trim (default EmptyString
               (capture_tag "<explanation>" "</explanation>" raw));
     tests :=
       trim (default EmptyString (capture_tag "<tests>" "</tests>" raw)) |}.

(** The scenario of the specification. *)
Definition demo_raw : string :=
  file_open +:+ "a.jsx" +:+ file_open_end +:+ "X" +:+ file_close
  +:+ "<explanation>E</explanation><tests>T</tests>".

Example parseOutputToJson_demo :
  parseOutputToJson demo_raw grok
  = {| files := [ {| path := "a.jsx"; content := "X"; diff := false;
                     modelUsed := grok |} ];
       explanation := "E"; tests := "T" |}.
Proof. reflexivity. Qed.

Example parseOutputToJson_two :
  files (parseOutputToJson
           (" " +:+ file_open +:+ file_open_end +:+ "skipped" +:+ file_close
            +:+ file_open +:+ "a" +:+ file_open_end +:+ " 1 " +:+ file_close
            +:+ "junk" +:+ file_open +:+ "b" +:+ file_open_end +:+ file_close)
           claude)
  = [ {| path := "a"; content := "1"; diff := false; modelUsed := claude |};
      {| path := "b"; content := EmptyString; diff := false;
         modelUsed := claude |} ].
Proof. reflexivity. Qed.

Example parseOutputToJson_prose :
  parseOutputToJson "  just prose  " claude
  = {| files := [ {| path := "src/App.jsx"; content := "just prose";
                     diff := false; modelUsed := claude |} ];
       explanation := EmptyString; tests := EmptyString |}.
Proof. reflexivity. Qed.

(** *** What the scanner finds *)

Fixpoint has_quote (s : string) : bool :=
  match s with
  | EmptyString => false
  | String c t => Ascii.eqb c dquote || has_quote t
  end.

(** [s] starts with a well-formed block: an opening tag carrying the
    non-empty, quote-free path [p], the text [body], a closing tag, and
    then [rest]. *)
Definition file_block (s p body rest : string) : Prop :=
  s = file_open +:+ p +:+ file_open_end +:+ body +:+ file_close +:+ rest
  ∧ p ≠ EmptyString ∧ has_quote p = false.

Definition has_file_block (raw : string) : Prop :=
  ∃ pre p body rest, file_block (sdrop (String.length pre) raw) p body rest
                     ∧ String.prefix pre raw = true.

Lemma span_nonquote_spec s p r :
  span_nonquote s = (p, r) → s = p +:+ r ∧ has_quote p = false.
Proof.
  revert p r. induction s as [|c s IH]; intros p r; simpl.
  - by intros [= <- <-].
  - destruct (Ascii.eqb c dquote) eqn:Hc.
    + by intros [= <- <-].
    + destruct (span_nonquote s) as [p' r'].
      intros [= <- <-]. destruct (IH p' r' eq_refl) as [-> Hq].
      simpl. by rewrite Hc.
Qed.

Lemma span_nonquote_app p r :
  has_quote p = false →
  span_nonquote (p +:+ String dquote r) = (p, String dquote r).
Proof.
  induction p as [|c p IH]; simpl; [done|].
  intros [Hc Hp]%orb_false_iff. by rewrite Hc, IH.
Qed.

Lemma match_file_here_sound s p body rest :
  match_file_here s = Some (p, body, rest) → file_block s p body rest.
Proof.
  unfold match_file_here.
  destruct (String.prefix file_open s) eqn:Hopen; [|done].
  apply prefix_app_sdrop in Hopen.
  destruct (span_nonquote _) as [p' s2] eqn:Hspan.
  apply span_nonquote_spec in Hspan as [Hs1 Hq].
  destruct p' as [|c p']; [done|].
  destruct (String.prefix file_open_end s2) eqn:Hend; [|done].
  apply prefix_app_sdrop in Hend.
  destruct (find_sub file_close _) as [[body' rest']|] eqn:Hfind; [|done].
  apply find_sub_Some in Hfind.
  intros [= <- <- <-]. split; [|done].
  rewrite Hopen at 1. rewrite Hs1. rewrite Hend at 1. rewrite Hfind.
  by rewrite ?sapp_assoc.
Qed.

Lemma match_file_here_complete s p body rest :
  file_block s p body rest → is_Some (match_file_here s).
Proof.
  intros (-> & Hp & Hq). unfold match_file_here.
  rewrite prefix_app_true, sdrop_app.
  change (file_open_end +:+ body +:+ file_close +:+ rest)
    with (String dquote (">" +:+ body +:+ file_close +:+ rest)).
  rewrite span_nonquote_app by done.
  destruct p as [|c p]; [done|].
  change (String dquote (">" +:+ body +:+ file_close +:+ rest))
    with (file_open_end +:+ body +:+ file_close +:+ rest).
  rewrite prefix_app_true, sdrop_app.
  destruct (find_sub_is_Some file_close (body +:+ file_close +:+ rest))
    as [[b r] ->]; [|by eexists].
  apply includes_spec. by exists body, rest.
Qed.

(** The body captured is the shortest one: the lazy quantifier. *)
Lemma match_file_here_lazy s p body rest body' rest' :
  match_file_here s = Some (p, body, rest) →
  file_block s p body' rest' →
  String.length body ≤ String.length body'.
Proof.
  intros Hm (Hs' & _ & _). unfold match_file_here in Hm.
  destruct (String.prefix file_open s) eqn:Hopen; [|done].
  destruct (span_nonquote _) as [p' s2] eqn:Hspan.
  destruct p' as [|c p']; [done|].
  destruct (String.prefix file_open_end s2) eqn:Hend; [|done].
  destruct (find_sub file_close _) as [[b r]|] eqn:Hfind; [|done].
  injection Hm as <- <- <-.
  rewrite Hs', sdrop_app in Hspan.
  change (file_open_end +:+ body' +:+ file_close +:+ rest')
    with (String dquote (">" +:+ body' +:+ file_close +:+ rest')) in Hspan.
  pose proof (span_nonquote_spec _ _ _ Hspan) as [_ Hq].
  rewrite span_nonquote_app in Hspan by done.
  injection Hspan as <-.
  change (find_sub file_close (body' +:+ file_close +:+ rest') = Some (b, r))
    in Hfind.
  by eapply find_sub_first.
Qed.

(** [exec_file] returns the match at the leftmost position that has one. *)
Lemma exec_file_leftmost s r :
  exec_file s = Some r →
  ∃ k, match_file_here (sdrop k s) = Some r
       ∧ ∀ k', k' < k → match_file_here (sdrop k' s) = None.
Proof.
  induction s as [|c s IH]; cbn [exec_file].
  - destruct (match_file_here EmptyString) as [r'|] eqn:Hm; [|done].
    intros [= ->]. exists 0. split; [done|]. intros k' Hk'. lia.
  - destruct (match_file_here (String c s)) as [r'|] eqn:Hm.
    + intros [= ->]. exists 0. split; [done|]. intros k' Hk'. lia.
    + intros (k & Hk & Hbefore)%IH. exists (S k). split; [done|].
      intros [|k'] Hk'; [done|]. apply Hbefore. lia.
Qed.

Lemma exec_file_sound s p body rest :
  exec_file s = Some (p, body, rest) →
  ∃ pre, s = pre +:+ sdrop (String.length pre) s
         ∧ file_block (sdrop (String.length pre) s) p body rest.
Proof.
  induction s as [|c s IH]; cbn [exec_file].
  - destruct (match_file_here EmptyString) as [r|] eqn:Hm; [|done].
    intros [= ->]. exists EmptyString. split; [done|].
    by apply match_file_here_sound.
  - destruct (match_file_here (String c s)) as [r|] eqn:Hm.
    + intros [= ->]. exists EmptyString. split; [done|].
      by apply match_file_here_sound.
    + intros H. destruct (IH H) as (pre & Hpre & Hb).
      exists (String c pre). simpl. split; [by rewrite <- Hpre|done].
Qed.

Lemma exec_file_complete s : has_file_block s → is_Some (exec_file s).
Proof.
  intros (pre & p & body & rest & Hb & Hpre).
  apply prefix_app_sdrop in Hpre.
  revert s Hb Hpre. induction pre as [|c pre IH]; intros s Hb Hpre.
  - simpl in Hb. destruct (match_file_here_complete _ _ _ _ Hb) as [r Hr].
    destruct s; cbn [exec_file]; rewrite Hr; by eexists.
  - destruct s as [|c' s]; [done|]. simpl in Hb, Hpre.
    injection Hpre as -> Hpre.
    cbn [exec_file]. destruct (match_file_here _); [by eexists|].
    by apply IH.
Qed.

Lemma exec_file_None s : ¬ has_file_block s → exec_file s = None.
Proof.
  intros Hno. destruct (exec_file s) as [[[p body] rest]|] eqn:He; [|done].
  exfalso. apply Hno. apply exec_file_sound in He as (pre & Hpre & Hb).
  exists pre, p, body, rest. split; [done|].
  rewrite Hpre. apply prefix_app_true.
Qed.

(** Each match consumes text: the search always resumes on a shorter
    string, so the loop ends and its fuel is enough. *)
Lemma exec_file_shrinks s p body rest :
  exec_file s = Some (p, body, rest) → String.length rest < String.length s.
Proof.
  intros (pre & Hpre & Heq & _)%exec_file_sound.
  apply (f_equal String.length) in Hpre.
  rewrite slength_app, Heq, !slength_app in Hpre. simpl in Hpre. lia.
Qed.

Lemma file_blocks_fuel fuel fuel' s mu :
  String.length s ≤ fuel → String.length s ≤ fuel' →
  file_blocks fuel s mu = file_blocks fuel' s mu.
Proof.
  revert fuel' s. induction fuel as [|fuel IH]; intros fuel' s Hf Hf'.
  - destruct s; [|simpl in Hf; lia].
    destruct fuel'; [done|]. reflexivity.
  - destruct fuel' as [|fuel'].
    + destruct s; [reflexivity|simpl in Hf'; lia].
    + cbn [file_blocks].
      destruct (exec_file s) as [[[p body] rest]|] eqn:He; [|done].
      apply exec_file_shrinks in He. f_equal. apply IH; lia.
Qed.

Lemma file_blocks_nil fuel s mu :
  ¬ has_file_block s → file_blocks fuel s mu = [].
Proof.
  intros Hno. destruct fuel; [done|]. simpl. by rewrite exec_file_None.
Qed.

Lemma file_blocks_cons s mu :
  has_file_block s → file_blocks (String.length s) s mu ≠ [].
Proof.
  intros [[[p body] rest] He]%exec_file_complete.
  destruct s as [|c s]; [by vm_compute in He|].
  cbn [String.length file_blocks]. by rewrite He.
Qed.

Lemma exec_file_blank s : all_ws s = true → exec_file s = None.
Proof.
  induction s as [|c s IH]; [done|].
  intros [Hc Hs]%andb_true_iff. cbn [exec_file].
  assert (match_file_here (String c s) = None) as ->; [|by apply IH].
  unfold match_file_here.
  destruct (String.prefix file_open (String c s)) eqn:Hp; [|done].
  apply prefix_app in Hp as [post Hp]. injection Hp as -> _.
  by vm_compute in Hc.
Qed.

(** Only a blank reply parses to no file at all: any other text is either
    scanned into blocks or wrapped as the fallback file. *)
Lemma parse_no_files raw mu :
  files (parseOutputToJson raw mu) = [] ↔ trim raw = EmptyString.
Proof.
  unfold parseOutputToJson. cbn [files]. split.
  - destruct (file_blocks _ raw mu) as [|f fs] eqn:Hb.
    + simpl. destruct (trim raw); [done|]. simpl. discriminate.
    + simpl. discriminate.
  - intros Htrim. rewrite Htrim. simpl. rewrite andb_false_r.
    apply trim_empty, exec_file_blank in Htrim.
    destruct (String.length raw); simpl; [done|]. by rewrite Htrim.
Qed.

(** [raw] contains a well-formed block: somewhere in it an opening tag
    with a non-empty quote-free path, later a closing tag. *)
Definition well_formed_block (raw : string) : Prop :=
  ∃ pre p body rest,
    raw = pre +:+ file_open +:+ p +:+ file_open_end
              +:+ body +:+ file_close +:+ rest
    ∧ p ≠ EmptyString ∧ has_quote p = false.

Lemma well_formed_block_iff raw : well_formed_block raw ↔ has_file_block raw.
Proof.
  split.
  - intros (pre & p & body & rest & -> & Hp & Hq).
    exists pre, p, body, rest. rewrite sdrop_app, prefix_app_true. done.
  - intros (pre & p & body & rest & (Heq & Hp & Hq) & Hpre).
    exists pre, p, body, rest. apply prefix_app_sdrop in Hpre.
    rewrite Hpre at 1. by rewrite Heq.
Qed.

Lemma exec_file_None_iff raw : exec_file raw = None ↔ ¬ well_formed_block raw.
Proof.
  rewrite well_formed_block_iff. split.
  - intros He [r Hr]%exec_file_complete. congruence.
  - apply exec_file_None.
Qed.

Lemma capture_tag_no_open open close raw :
  includes raw open = false → capture_tag open close raw = None.
Proof.
  intros H%find_sub_None. unfold capture_tag. by rewrite H.
Qed.

Lemma capture_tag_no_close open close raw :
  includes raw close = false → capture_tag open close raw = None.
Proof.
  intros Hno. unfold capture_tag.
  destruct (find_sub open raw) as [[pre after]|] eqn:Ho; [|done].
  destruct (find_sub close after) as [[body post]|] eqn:Hc; [|done].
  apply find_sub_Some in Ho as ->. apply find_sub_Some in Hc as ->.
  rewrite includes_app_r in Hno; [done|].
  apply includes_app_r, includes_spec. by exists body, post.
Qed.

Lemma length_pos_ne s : s ≠ EmptyString → (0 <? String.length s) = true.
Proof. by destruct s. Qed.

(** A text without a well-formed block that is not blank parses to the
    one fallback file. *)
Lemma parse_prose_files raw mu :
  trim raw ≠ EmptyString → ¬ well_formed_block raw →
  files (parseOutputToJson raw mu)
  = [ {| path := "src/App.jsx"; content := trim raw; diff := false;
         modelUsed := mu |} ].
Proof.
  intros Htrim Hno. unfold parseOutputToJson. cbn [files].
  apply exec_file_None_iff in Hno.
  assert (file_blocks (String.length raw) raw mu = []) as ->.
  { destruct (String.length raw); [done|]. simpl. by rewrite Hno. }
  by rewrite (length_pos_ne _ Htrim).
Qed.

(** A tagged part of [raw]: an opening tag not met before, a body free of
    the closing tag, and the closing tag. *)
Definition tagged (open close raw body : string) : Prop :=
  ∃ pre post,
    raw = pre +:+ open +:+ body +:+ close +:+ post
    ∧ includes pre open = false ∧ includes body close = false.

(** The opening tag is somewhere followed by the closing tag. *)
Definition tag_pair (open close raw : string) : Prop :=
  ∃ pre body post, raw = pre +:+ open +:+ body +:+ close +:+ post.

Lemma capture_tag_tagged a n b m raw body :
  occurs a n = false → occurs b m = false →
  tagged (String a n) (String b m) raw body →
  capture_tag (String a n) (String b m) raw = Some body.
Proof.
  intros Ha Hb (pre & post & -> & Hpre & Hbody). unfold capture_tag.
  rewrite find_sub_exact by done.
  by rewrite find_sub_exact.
Qed.

Lemma capture_tag_no_pair open close raw :
  ¬ tag_pair open close raw → capture_tag open close raw = None.
Proof.
  intros Hno. unfold capture_tag.
  destruct (find_sub open raw) as [[pre after]|] eqn:Ho; [|done].
  destruct (find_sub close after) as [[body post]|] eqn:Hc; [|done].
  apply find_sub_Some in Ho as ->. apply find_sub_Some in Hc as ->.
  destruct Hno. by exists pre, body, post.
Qed.

(** C6. Codec prose fallback: for every raw text whose trimmed form is not
    empty and that contains no well-formed file block, parsing yields
    exactly one file, at [src/App.jsx], whose content is the whole trimmed
    text.  The explanation and the tests are extracted each on its own:
    where the text has the first opening tag of one of them, then a body
    without the closing tag, then the closing tag, the result holds that
    body, trimmed - whatever the rest of the text and the other tag are;
    where the text has no opening tag followed by a closing tag - in
    particular when either tag is absent - the result is the empty
    string. *)
Theorem parseOutputToJson_prose_fallback raw mu :
  trim raw ≠ EmptyString → ¬ well_formed_block raw →
  let r := parseOutputToJson raw mu in
  files r = [ {| path := "src/App.jsx"; content := trim raw; diff := false;
                 modelUsed := mu |} ]
  ∧ (includes raw "<explanation>" = false
     ∨ includes raw "</explanation>" = false → explanation r = EmptyString)
  ∧ (includes raw "<tests>" = false
     ∨ includes raw "</tests>" = false → tests r = EmptyString)
  ∧ (∀ body, tagged "<explanation>" "</explanation>" raw body →
             explanation r = trim body)
  ∧ (∀ body, tagged "<tests>" "</tests>" raw body → tests r = trim body)
  ∧ (¬ tag_pair "<explanation>" "</explanation>" raw →
     explanation r = EmptyString)
  ∧ (¬ tag_pair "<tests>" "</tests>" raw → tests r = EmptyString).
Proof.
  intros Htrim Hno r. subst r.
  split; [by apply parse_prose_files|].
  unfold parseOutputToJson. cbn [files explanation tests].
  split; [|split; [|split; [|split; [|split]]]].
  - intros [H|H];
      [rewrite capture_tag_no_open by done
      |rewrite capture_tag_no_close by done]; reflexivity.
  - intros [H|H];
      [rewrite capture_tag_no_open by done
      |rewrite capture_tag_no_close by done]; reflexivity.
  - intros body Hb.
    by rewrite (capture_tag_tagged "<" "explanation>" "<" "/explanation>"
                  raw body eq_refl eq_refl Hb).
  - intros body Hb.
    by rewrite (capture_tag_tagged "<" "tests>" "<" "/tests>"
                  raw body eq_refl eq_refl Hb).
  - intros Hp. by rewrite capture_tag_no_pair.
  - intros Hp. by rewrite capture_tag_no_pair.
Qed.

Definition prose_raw : string :=
  "Sure! Here is a <file> for you. <explanation> No code. </explanation>".

Lemma parseOutputToJson_prose_fallback_witness :
  let r := parseOutputToJson prose_raw claude in
  files r = [ {| path := "src/App.jsx"; content := trim prose_raw;
                 diff := false; modelUsed := claude |} ]
  ∧ (includes prose_raw "<explanation>" = false
     ∨ includes prose_raw "</explanation>" = false
     → explanation r = EmptyString)
  ∧ (includes prose_raw "<tests>" = false
     ∨ includes prose_raw "</tests>" = false
     → tests r = EmptyString)
  ∧ (∀ body, tagged "<explanation>" "</explanation>" prose_raw body →
             explanation r = trim body)
  ∧ (∀ body, tagged "<tests>" "</tests>" prose_raw body →
             tests r = trim body)
  ∧ (¬ tag_pair "<explanation>" "</explanation>" prose_raw →
     explanation r = EmptyString)
  ∧ (¬ tag_pair "<tests>" "</tests>" prose_raw → tests r = EmptyString).
Proof.
  apply (parseOutputToJson_prose_fallback prose_raw claude).
  - vm_compute. discriminate.
  - apply exec_file_None_iff. reflexivity.
Defined.

Example parseOutputToJson_prose_tags :
  explanation (parseOutputToJson prose_raw claude) = "No code."
  ∧ tests (parseOutputToJson prose_raw claude) = EmptyString
  ∧ tagged "<explanation>" "</explanation>" prose_raw " No code. ".
Proof.
  split; [reflexivity|]. split; [reflexivity|].
  exists "Sure! Here is a <file> for you. ", EmptyString.
  repeat split.
Qed.

End Codec.


(** ** Routing and the generation orchestrator (/api/gen) *)

Module Gen.
Import Text Codec.

Inductive Route := route_grok | route_claude | route_dual.

(** [decideRoute(prompt, vibe, mode)]; an absent [vibe] or [mode] is
    [None]. *)
Definition decideRoute (prompt : string) (vibe mode : option string) : Route :=
  let lower := toLowerCase prompt in
  if bool_decide (mode = Some "dual") || bool_decide (vibe = Some "dual")
  then route_dual
  else if bool_decide (vibe = Some "scrappy") then route_grok
  else if bool_decide (vibe = Some "enterprise") then route_claude
  else if includes lower "build" || includes lower "creative" then route_grok
  else if includes lower "refine" || includes lower "harden" then route_claude
  else route_grok.

(** A string used as a condition: absent and empty are both falsy. *)
Definition truthy (s : option string) : option string :=
  match s with
  | Some EmptyString => None
  | _ => s
  end.

Definition buildSystemPrompt (scraped : option string) : string :=
  let scrapeSection :=
    match truthy scraped with
    | Some text =>
        String nl (String nl
          ("SCRAPED CONTENT CONTEXT (reference only):"
           +:+ String nl (substring0 (8 * 1000) text
                          +:+ String nl EmptyString)))
    | None => EmptyString
    end in
  join_nl
    [ "You are a senior full-stack engineer. Generate clean, complete files for a Vite React project using Tailwind utilities only where applicable.";
      "Output using XML tags and include explanation and tests tags. The tests must be runnable with Vitest or Jest:";
      file_open +:+ "..." +:+ file_open_end +:+ "FULL FILE CONTENT</file>";
      "<explanation>Short explanation of changes/approach</explanation>";
      "<tests>A runnable Vitest or Jest test suite validating the request</tests>";
      scrapeSection;
      "Rules:";
      "- Do not truncate code.";
      "- Prefer minimal changes for edits; return full file contents.";
      "- Use only standard Tailwind classes (no bg-background/text-foreground).";
      "- If no files are needed, still include <explanation> and <tests>." ].

Record Request := {
  prompt : string;
  vibe : option string;
  mode : option string;
  scrape_url : option string;
  context_scraped : option string;
  baseFiles : option (gmap string string);
  testsSpec : option string
}.

Inductive Outcome :=
  | Returned (text : string)
  | Thrown (message : string).

Inductive Response :=
  | Json (parsed : Parsed)
  | Failure (status : nat) (error : string).

Definition userPrompt (req : Request) : string :=
  "USER REQUEST:" +:+ String nl (prompt req) +:+ String nl (String nl
    ("Please output <file>, <explanation>, and <tests> tags as specified."
     +:+ String nl
       match truthy (testsSpec req) with
       | Some spec =>
           String nl ("TESTS SPEC:" +:+ String nl
             ("Generate a Vitest/Jest suite covering: " +:+ spec))
       | None =>
           "Include a meaningful Vitest/Jest suite that validates the behavior."
       end)).

Definition grokPrompt (system user : string) : string :=
  "SYSTEM:" +:+ String nl system +:+ String nl (String nl user).

Definition claudeUser (grokText prompt : string) : string :=
  "The following is an initial scaffold produced by another model (Grok). Refine, harden, and correct any issues, then output final <file>, <explanation>, and <tests> tags."
  +:+ String nl (String nl ("INITIAL SCAFFOLD:" +:+ String nl grokText))
  +:+ String nl (String nl ("ORIGINAL REQUEST:" +:+ String nl prompt)).

(** [files.map(f => ({...f, diff: before !== after}))] when the caller sent
    base files. *)
Definition annotate (base : option (gmap string string))
           (fs : list FileOut) : list FileOut :=
  match base with
  | Some baseFiles =>
      (λ f,
        let before := default EmptyString (baseFiles !! path f) in
        let after := content f in
        {| path := path f; content := content f;
           diff := negb (String.eqb before after);
           modelUsed := modelUsed f |}) <$> fs
  | None => fs
  end.

Definition respond (req : Request) (parsed : Parsed) : Response :=
  Json {| files := annotate (baseFiles req) (files parsed);
          explanation := explanation parsed;
          tests := tests parsed |}.

Definition failure (message : string) : Response :=
  Failure 500 match message with
              | EmptyString => "Internal Server Error"
              | _ => message
              end.

Section Orchestrator.
(** The capabilities the handler calls, and the one environment variable
    that matters: each model call either returns its text or throws. *)
Variable callGrokCollect : string → string → Outcome.
Variable callClaudeCollect : string → string → string → Outcome.
Variable maybeScrape : string → option string.
Variable ANTHROPIC_SONNET_MODEL : option string.

Definition modelName : string :=
  default "claude-3-5-sonnet-20241022" (truthy ANTHROPIC_SONNET_MODEL).

Definition scrapedOf (req : Request) : option string :=
  match truthy (scrape_url req) with
  | Some url => maybeScrape url
  | None => truthy (context_scraped req)
  end.

(** The body of [POST] once the route is known. *)
Definition run (route : Route) (req : Request) : Response :=
  let scraped := scrapedOf req in
  let system := buildSystemPrompt scraped in
  let user := userPrompt req in
  match route with
  | route_grok =>
      match callGrokCollect "grok-4" (grokPrompt system user) with
      | Thrown e => failure e
      | Returned grokText => respond req (parseOutputToJson grokText grok)
      end
  | route_claude =>
      match callClaudeCollect modelName system user with
      | Thrown e => failure e
      | Returned finalText => respond req (parseOutputToJson finalText claude)
      end
  | route_dual =>
      match callGrokCollect "grok-4" (grokPrompt system user) with
      | Thrown e => failure e
      | Returned grokText =>
          let claudeSystem := buildSystemPrompt scraped in
          match callClaudeCollect modelName claudeSystem
                                  (claudeUser grokText (prompt req)) with
          | Thrown e => failure e
          | Returned finalText =>
              let parsedClaude := parseOutputToJson finalText claude in
              if 0 <? length (files parsedClaude)
              then respond req parsedClaude
              else respond req (parseOutputToJson grokText grok)
          end
      end
  end.

Definition POST (req : Request) : Response :=
  match prompt req with
  | EmptyString => Failure 400 "Prompt is required"
  | _ => run (decideRoute (prompt req) (vibe req) (mode req)) req
  end.

Lemma annotate_nil base fs : annotate base fs = [] ↔ fs = [].
Proof.
  destruct base as [b|]; simpl; [|done]. by destruct fs.
Qed.

Lemma POST_run req :
  prompt req ≠ EmptyString →
  POST req = run (decideRoute (prompt req) (vibe req) (mode req)) req.
Proof. unfold POST. by destruct (prompt req). Qed.

(** C2 (as amended). Chained fallback: in chained routing, once
    the fast call has returned, a refine reply that is blank - the only
    reply that parses to zero files - gives the fast model's parsed
    result, files, explanation and tests, exactly as the fast-only route
    answers the same request; a refine reply that is not blank is what
    the response is built from, and when it holds no well-formed file
    block it comes back as the one fallback file with the whole trimmed
    reply; so whatever the refine model replies, a fast result with files
    never turns into a response without files.  A refine call that
    throws is no fallback case: the request fails with status 500. *)
Theorem chained_fallback req grokText :
  prompt req ≠ EmptyString →
  decideRoute (prompt req) (vibe req) (mode req) = route_dual →
  callGrokCollect "grok-4"
    (grokPrompt (buildSystemPrompt (scrapedOf req)) (userPrompt req))
    = Returned grokText →
  (∀ finalText,
     callClaudeCollect modelName (buildSystemPrompt (scrapedOf req))
       (claudeUser grokText (prompt req))
     = Returned finalText →
     (files (parseOutputToJson finalText claude) = []
      ↔ trim finalText = EmptyString)
     ∧ (trim finalText = EmptyString →
        POST req = respond req (parseOutputToJson grokText grok)
        ∧ POST req = run route_grok req)
     ∧ (trim finalText ≠ EmptyString →
        POST req = respond req (parseOutputToJson finalText claude))
     ∧ (trim finalText ≠ EmptyString → ¬ well_formed_block finalText →
        files (parseOutputToJson finalText claude)
        = [ {| path := "src/App.jsx"; content := trim finalText;
               diff := false; modelUsed := claude |} ])
     ∧ (files (parseOutputToJson grokText grok) ≠ [] →
        ∃ parsed, POST req = Json parsed ∧ files parsed ≠ []))
  ∧ (∀ e,
       callClaudeCollect modelName (buildSystemPrompt (scrapedOf req))
         (claudeUser grokText (prompt req))
       = Thrown e →
       POST req = failure e).
Proof.
  intros Hprompt Hroute Hgrok.
  rewrite (POST_run req Hprompt), Hroute. unfold run. rewrite Hgrok.
  split.
  - intros finalText Hclaude. rewrite Hclaude.
    pose proof (parse_no_files finalText claude) as Hblank.
    set (pc := parseOutputToJson finalText claude) in *.
    set (pg := parseOutputToJson grokText grok).
    split; [exact Hblank|].
    split; [|split; [|split]].
    + intros Htrim. apply Hblank in Htrim. by rewrite Htrim.
    + intros Htrim.
      destruct (files pc) as [|f fs] eqn:Hc; [|done].
      exfalso. apply Htrim. by apply Hblank.
    + intros Htrim Hno. by apply parse_prose_files.
    + intros Hfast. destruct (files pc) as [|f fs] eqn:Hc;
        cbn [length Nat.ltb Nat.leb]; eexists; (split; [reflexivity|]);
        cbn [files]; rewrite annotate_nil; congruence.
  - intros e Hclaude. by rewrite Hclaude.
Qed.

End Orchestrator.



Example decideRoute_ex1 : decideRoute "Create a login form" (Some "fast") None = route_grok.
Proof. reflexivity. Qed.

Example decideRoute_ex2 : decideRoute "Please HARDEN this" None None = route_claude.
Proof. reflexivity. Qed.

Example decideRoute_ex3 :
  decideRoute "build it" (Some "enterprise") (Some "dual") = route_dual.
Proof. reflexivity. Qed.


(** A chained request whose refine call answers with blanks only. *)
Definition demo_request : Request :=
  {| prompt := "Create a login form"; vibe := Some "dual"; mode := None;
     scrape_url := None; context_scraped := None;
     baseFiles := Some {[ "a.jsx" := "old" ]}; testsSpec := None |}.

Definition demo_grok (model prompt : string) : Outcome :=
  Returned demo_raw.

Definition demo_claude_blank (model system user : string) : Outcome :=
  Returned "   ".

Definition demo_claude_prose (model system user : string) : Outcome :=
  Returned "Sorry.".

Lemma chained_fallback_witness :
  let POST' := POST demo_grok demo_claude_blank (λ _, None) None in
  (∀ finalText,
     demo_claude_blank (modelName None)
       (buildSystemPrompt (scrapedOf (λ _, None) demo_request))
       (claudeUser demo_raw (prompt demo_request))
     = Returned finalText →
     (files (parseOutputToJson finalText claude) = []
      ↔ trim finalText = EmptyString)
     ∧ (trim finalText = EmptyString →
        POST' demo_request
        = respond demo_request (parseOutputToJson demo_raw grok)
        ∧ POST' demo_request
          = run demo_grok demo_claude_blank (λ _, None) None
                route_grok demo_request)
     ∧ (trim finalText ≠ EmptyString →
        POST' demo_request
        = respond demo_request (parseOutputToJson finalText claude))
     ∧ (trim finalText ≠ EmptyString → ¬ well_formed_block finalText →
        files (parseOutputToJson finalText claude)
        = [ {| path := "src/App.jsx"; content := trim finalText;
               diff := false; modelUsed := claude |} ])
     ∧ (files (parseOutputToJson demo_raw grok) ≠ [] →
        ∃ parsed, POST' demo_request = Json parsed ∧ files parsed ≠ []))
  ∧ (∀ e,
       demo_claude_blank (modelName None)
         (buildSystemPrompt (scrapedOf (λ _, None) demo_request))
         (claudeUser demo_raw (prompt demo_request))
       = Thrown e →
       POST' demo_request = failure e).
Proof.
  apply (chained_fallback demo_grok demo_claude_blank (λ _, None) None
           demo_request demo_raw).
  - discriminate.
  - reflexivity.
  - reflexivity.
Defined.

(** The claim as the specification words it fails on a refine reply in
    prose: the reply has no file block, yet the response is not the fast
    model's solo result - it is the reply itself, wrapped as the fallback
    file. *)
Lemma chained_fallback_counterexample :
  file_blocks (String.length "Sorry.") "Sorry." claude = []
  ∧ POST demo_grok demo_claude_prose (λ _, None) None demo_request
    ≠ run demo_grok demo_claude_prose (λ _, None) None
          route_grok demo_request
  ∧ POST demo_grok demo_claude_prose (λ _, None) None demo_request
    = Json {| files := [ {| path := "src/App.jsx"; content := "Sorry.";
                            diff := true; modelUsed := claude |} ];
              explanation := EmptyString; tests := EmptyString |}.
Proof.
  split; [reflexivity|]. split; [|reflexivity].
  intros H. vm_compute in H. discriminate H.
Qed.

Example chained_fallback_demo :
  POST demo_grok demo_claude_blank (λ _, None) None demo_request
  = Json {| files := [ {| path := "a.jsx"; content := "X"; diff := true;
                          modelUsed := grok |} ];
            explanation := "E"; tests := "T" |}.
Proof. reflexivity. Qed.

(** A refine reply in prose is not blank: it is wrapped as the fallback
    file and returned, the fast result is not used. *)
Example chained_prose_demo :
  POST demo_grok (λ _ _ _, Returned "Sorry.") (λ _, None) None demo_request
  = Json {| files := [ {| path := "src/App.jsx"; content := "Sorry.";
                          diff := true; modelUsed := claude |} ];
            explanation := EmptyString; tests := EmptyString |}.
Proof. reflexivity. Qed.

(** *** Routing *)

(** The prompt, in lower case, contains [word]. *)
Definition mentions (prompt word : string) : Prop :=
  ∃ pre post, toLowerCase prompt = pre +:+ word +:+ post.

Definition chained_requested (vibe mode : option string) : Prop :=
  mode = Some "dual" ∨ vibe = Some "dual".

Definition creation_vocabulary (prompt : string) : Prop :=
  mentions prompt "build" ∨ mentions prompt "creative".

Definition hardening_vocabulary (prompt : string) : Prop :=
  mentions prompt "refine" ∨ mentions prompt "harden".

Lemma includes_mentions prompt word :
  includes (toLowerCase prompt) word = true ↔ mentions prompt word.
Proof. apply includes_spec. Qed.

Lemma creation_vocabulary_spec prompt :
  includes (toLowerCase prompt) "build"
  || includes (toLowerCase prompt) "creative" = true
  ↔ creation_vocabulary prompt.
Proof.
  unfold creation_vocabulary. by rewrite orb_true_iff, !includes_mentions.
Qed.

Lemma hardening_vocabulary_spec prompt :
  includes (toLowerCase prompt) "refine"
  || includes (toLowerCase prompt) "harden" = true
  ↔ hardening_vocabulary prompt.
Proof.
  unfold hardening_vocabulary. by rewrite orb_true_iff, !includes_mentions.
Qed.

Lemma chained_requested_spec vibe mode :
  bool_decide (mode = Some "dual") || bool_decide (vibe = Some "dual") = true
  ↔ chained_requested vibe mode.
Proof.
  unfold chained_requested. by rewrite orb_true_iff, !bool_decide_eq_true.
Qed.

(** C5. Routing precedence and determinism: [decideRoute] is a total
    function of (prompt, vibe, mode) and nothing else; first match wins
    among: chained mode or preset - chained, whatever the prompt says;
    scrappy preset - fast only; enterprise preset - refine only; creation
    vocabulary in the prompt - fast; refinement or hardening vocabulary -
    refine; otherwise fast only. *)
Theorem decideRoute_precedence prompt vibe mode :
  (chained_requested vibe mode → decideRoute prompt vibe mode = route_dual)
  ∧ (¬ chained_requested vibe mode → vibe = Some "scrappy" →
     decideRoute prompt vibe mode = route_grok)
  ∧ (¬ chained_requested vibe mode → vibe = Some "enterprise" →
     decideRoute prompt vibe mode = route_claude)
  ∧ (¬ chained_requested vibe mode →
     vibe ≠ Some "scrappy" → vibe ≠ Some "enterprise" →
     (creation_vocabulary prompt →
        decideRoute prompt vibe mode = route_grok)
     ∧ (¬ creation_vocabulary prompt → hardening_vocabulary prompt →
        decideRoute prompt vibe mode = route_claude)
     ∧ (¬ creation_vocabulary prompt → ¬ hardening_vocabulary prompt →
        decideRoute prompt vibe mode = route_grok))
  ∧ (∀ prompt' vibe' mode',
       prompt' = prompt → vibe' = vibe → mode' = mode →
       decideRoute prompt' vibe' mode' = decideRoute prompt vibe mode).
Proof.
  unfold decideRoute.
  pose proof (chained_requested_spec vibe mode) as Hch.
  pose proof (creation_vocabulary_spec prompt) as Hcr.
  pose proof (hardening_vocabulary_spec prompt) as Hha.
  assert (∀ b P, (b = true ↔ P) → (b = true ∧ P) ∨ (b = false ∧ ¬ P))
    as Hcase.
  { intros [] P HP; [left|right]; split; try done; [by apply HP|].
    intros HPp. by apply HP in HPp. }
  split; [|split; [|split; [|split]]]; try (by intros; subst).
  - intros H. apply Hch in H. by rewrite H.
  - intros Hn ->. destruct (Hcase _ _ Hch) as [[_ ?]|[-> _]]; done.
  - intros Hn ->. destruct (Hcase _ _ Hch) as [[_ ?]|[-> _]]; done.
  - intros Hn Hs He.
    destruct (Hcase _ _ Hch) as [[_ ?]|[-> _]]; [done|].
    rewrite !bool_decide_eq_false_2 by done.
    destruct (Hcase _ _ Hcr) as [[-> ?]|[-> ?]];
      [by repeat split|].
    destruct (Hcase _ _ Hha) as [[-> ?]|[-> ?]]; by repeat split.
Qed.

End Gen.


(** ** The semantic recall store *)

Module Recall.

Local Open Scope R_scope.

(** *** [cosineSimilarity] *)

(** The [for] loop: [dot], [na] and [nb] after the indices
    [0 .. min(a.length, b.length) - 1]. *)
Definition cos_iter (a b : list R) (acc : R * R * R) (i : nat) : R * R * R :=
  let '(dot, na, nb) := acc in
  (dot + nth i a 0 * nth i b 0,
   na + nth i a 0 * nth i a 0,
   nb + nth i b 0 * nth i b 0).

Definition cos_loop (a b : list R) : R * R * R :=
  foldl (cos_iter a b) (0, 0, 0) (seq 0 (length a `min` length b)).

Definition cosineSimilarity (a b : list R) : R :=
  let '(dot, na, nb) := cos_loop a b in
  if Req_dec_T na 0 then 0
  else if Req_dec_T nb 0 then 0
  else dot / (sqrt na * sqrt nb).

(** The same function with a division that fails on a zero divisor. *)
Definition checked_div (x y : R) : option R :=
  if Req_dec_T y 0 then None else Some (x / y).

Definition cosineSimilarity_checked (a b : list R) : option R :=
  let '(dot, na, nb) := cos_loop a b in
  if Req_dec_T na 0 then Some 0
  else if Req_dec_T nb 0 then Some 0
  else checked_div dot (sqrt na * sqrt nb).

(** The squared Euclidean norm of a vector. *)
Fixpoint norm_sq (v : list R) : R :=
  match v with
  | [] => 0
  | x :: v' => x * x + norm_sq v'
  end.

Fixpoint dot_product (a b : list R) : R :=
  match a, b with
  | x :: a', y :: b' => x * y + dot_product a' b'
  | _, _ => 0
  end.

(** What the two vectors have in common: their first
    [min(a.length, b.length)] entries. *)
Definition common (a b : list R) : list R :=
  take (length a `min` length b)%nat a.

Lemma norm_sq_nonneg v : 0 <= norm_sq v.
Proof.
  induction v as [|x v IH]; simpl; [lra|].
  pose proof (Rle_0_sqr x) as Hx. unfold Rsqr in Hx. lra.
Qed.

Lemma cos_loop_from a b k dot na nb :
  (k <= length a `min` length b)%nat →
  foldl (cos_iter a b) (dot, na, nb)
        (seq k (length a `min` length b - k))
  = (dot + dot_product (drop k a) (drop k b),
     na + norm_sq (take (length a `min` length b - k) (drop k a)),
     nb + norm_sq (take (length a `min` length b - k) (drop k b))).
Proof.
  remember (length a `min` length b - k)%nat as d eqn:Hd.
  revert k dot na nb Hd. induction d as [|d IH]; intros k dot na nb Hd Hk.
  - simpl. assert (drop k a = [] ∨ drop k b = []) as Hnil.
    { destruct (Nat.min_spec (length a) (length b)) as [[_ Hm]|[_ Hm]];
        [left|right]; apply drop_ge; lia. }
    replace (dot_product (drop k a) (drop k b)) with 0.
    + f_equal; [f_equal|]; lra.
    + destruct Hnil as [->| ->]; [done|]. by destruct (drop k a).
  - destruct (lookup_lt_is_Some_2 a k) as [x Hx]; [lia|].
    destruct (lookup_lt_is_Some_2 b k) as [y Hy]; [lia|].
    cbn [seq foldl cos_iter].
    rewrite (nth_lookup_Some _ _ _ _ Hx), (nth_lookup_Some _ _ _ _ Hy).
    rewrite (IH (S k)) by lia.
    rewrite (drop_S _ _ _ Hx), (drop_S _ _ _ Hy). simpl.
    f_equal; [f_equal|]; lra.
Qed.

(** The loop computes the dot product and the squared norms of the common
    prefixes. *)
Lemma cos_loop_spec a b :
  cos_loop a b
  = (dot_product a b, norm_sq (common a b), norm_sq (common b a)).
Proof.
  unfold cos_loop, common.
  pose proof (cos_loop_from a b 0 0 0 0) as H.
  rewrite Nat.sub_0_r in H. rewrite H by lia.
  change (drop 0 a) with a. change (drop 0 b) with b.
  rewrite (Nat.min_comm (length b)). f_equal; [f_equal|]; lra.
Qed.

Lemma norm_sq_zero v : norm_sq v = 0 ↔ Forall (λ x, x = 0) v.
Proof.
  induction v as [|x v IH]; simpl.
  - split; [constructor|done].
  - pose proof (norm_sq_nonneg v) as Hv.
    pose proof (Rle_0_sqr x) as Hx. unfold Rsqr in Hx.
    rewrite Forall_cons, <- IH. split.
    + intros H. assert (x * x = 0) as Hxx by lra.
      apply Rmult_integral in Hxx. split; lra.
    + intros [-> ->]. lra.
Qed.

Lemma norm_zero v : sqrt (norm_sq v) = 0 ↔ norm_sq v = 0.
Proof.
  split.
  - apply sqrt_eq_0, norm_sq_nonneg.
  - intros ->. apply sqrt_0.
Qed.

Lemma divisor_nonzero u v :
  norm_sq u ≠ 0 → norm_sq v ≠ 0 → sqrt (norm_sq u) * sqrt (norm_sq v) ≠ 0.
Proof.
  intros Hu Hv.
  pose proof (norm_sq_nonneg u). pose proof (norm_sq_nonneg v).
  assert (0 < sqrt (norm_sq u)) by (apply sqrt_lt_R0; lra).
  assert (0 < sqrt (norm_sq v)) by (apply sqrt_lt_R0; lra).
  apply Rgt_not_eq, Rmult_lt_0_compat; done.
Qed.

Lemma cosineSimilarity_guard a b :
  norm_sq (common a b) = 0 ∨ norm_sq (common b a) = 0 →
  cosineSimilarity a b = 0.
Proof.
  intros H. unfold cosineSimilarity. rewrite cos_loop_spec.
  destruct (Req_dec_T (norm_sq (common a b)) 0); [done|].
  destruct (Req_dec_T (norm_sq (common b a)) 0); [done|].
  by destruct H.
Qed.

Lemma cosineSimilarity_nil_r a : cosineSimilarity a [] = 0.
Proof.
  apply cosineSimilarity_guard. right. reflexivity.
Qed.

(** C9. Zero-norm cosine safety: if either vector has zero norm over the
    common prefix of the two - in particular if either is empty -
    [cosineSimilarity] returns 0; and on all vectors the division it
    performs, if any, has a non-zero divisor: the function computed with a
    division that fails on zero never fails and returns the same number. *)
Theorem cosineSimilarity_zero_norm a b :
  (sqrt (norm_sq (common a b)) = 0 ∨ sqrt (norm_sq (common b a)) = 0 →
   cosineSimilarity a b = 0)
  ∧ (a = [] ∨ b = [] → cosineSimilarity a b = 0)
  ∧ cosineSimilarity_checked a b = Some (cosineSimilarity a b).
Proof.
  split; [|split].
  - rewrite !norm_zero. apply cosineSimilarity_guard.
  - intros [-> | ->]; apply cosineSimilarity_guard; [left|right]; done.
  - unfold cosineSimilarity_checked, cosineSimilarity.
    rewrite cos_loop_spec.
    destruct (Req_dec_T (norm_sq (common a b)) 0) as [|Ha]; [done|].
    destruct (Req_dec_T (norm_sq (common b a)) 0) as [|Hb]; [done|].
    unfold checked_div.
    destruct (Req_dec_T _ 0) as [Hz|]; [|done].
    by apply divisor_nonzero in Hz.
Qed.

Example cosineSimilarity_zero_ex :
  cosineSimilarity [0; 0; 5] [3; 4] = 0.
Proof.
  apply cosineSimilarity_guard. left. simpl. lra.
Qed.

(** *** The similar-records query *)

Record Row := {
  id : string;
  type : string;
  content : string;
  embedding : option (list R);
  created_at : string
}.

(** [{ ...row, score }] *)
Record Scored := { row : Row; score : R }.

Definition score_row (emb : list R) (r : Row) : Scored :=
  {| row := r;
     score := cosineSimilarity emb (default [] (embedding r)) |}.

(** [r.score >= minSim] *)
Definition keep (minSim : R) (r : Scored) : bool :=
  if Rle_dec minSim (score r) then true else false.

(** The comparator [(a, b) => b.score - a.score]. *)
Definition compare_desc (a b : Scored) : R := score b - score a.

(** [Array.prototype.sort] is stable and the comparator orders the scores
    consistently, so the outcome is the one stable arrangement; insertion
    from the right computes it: an element goes before the first element
    it does not have to follow. *)
Fixpoint insert_desc (x : Scored) (l : list Scored) : list Scored :=
  match l with
  | [] => [x]
  | y :: l' =>
      if Rle_dec (compare_desc x y) 0 then x :: l else y :: insert_desc x l'
  end.

Fixpoint sort_desc (l : list Scored) : list Scored :=
  match l with
  | [] => []
  | x :: l' => insert_desc x (sort_desc l')
  end.

(** [l.slice(0, limit)] for an integer [limit]: a negative end counts from
    the end of the array. *)
Definition slice0 {A} (l : list A) (limit : Z) : list A :=
  let len := Z.of_nat (length l) in
  let final := if (limit <? 0)%Z then Z.max (len + limit) 0
               else Z.min limit len in
  take (Z.to_nat final) l.

(** [.filter(...).sort(...).slice(0, limit)] *)
Definition postprocess (scored : list Scored) (minSim : R) (limit : Z)
  : list Scored :=
  slice0 (sort_desc (List.filter (keep minSim) scored)) limit.

(** The [scored] array of the handler, for the query embedding [emb] and
    the window [data] of stored rows. *)
Definition similar (emb : list R) (data : list Row) (minSim : R) (limit : Z)
  : list Scored :=
  postprocess (score_row emb <$> data) minSim limit.

Record Result := {
  r_id : string;
  r_type : string;
  r_content : string;
  r_score : R;
  r_created_at : string
}.

Definition to_result (r : Scored) : Result :=
  {| r_id := id (row r); r_type := type (row r);
     r_content := content (row r); r_score := score r;
     r_created_at := created_at (row r) |}.

Definition GET_results (emb : list R) (data : list Row) (minSim : R)
           (limit : Z) : list Result :=
  to_result <$> similar emb data minSim limit.

(** Descending order of similarity. *)
Definition desc (a b : Scored) : Prop := score b <= score a.

Lemma insert_desc_Permutation x l : Permutation (insert_desc x l) (x :: l).
Proof.
  induction l as [|y l IH]; simpl; [done|].
  destruct (Rle_dec (compare_desc x y) 0); [done|].
  rewrite IH. apply perm_swap.
Qed.

Lemma sort_desc_Permutation l : Permutation (sort_desc l) l.
Proof.
  induction l as [|x l IH]; simpl; [done|].
  by rewrite insert_desc_Permutation, IH.
Qed.

Lemma insert_desc_sorted x l :
  StronglySorted desc l → StronglySorted desc (insert_desc x l).
Proof.
  induction 1 as [|y l Hl IH Hy]; simpl.
  - repeat constructor.
  - unfold compare_desc.
    destruct (Rle_dec (score y - score x) 0) as [Hle|Hgt].
    + constructor; [by constructor|].
      constructor; [unfold desc; lra|].
      eapply Forall_impl; [exact Hy|]. unfold desc. intros z Hz. lra.
    + constructor; [done|].
      rewrite (insert_desc_Permutation x l). constructor; [|done].
      unfold desc. lra.
Qed.

Lemma sort_desc_sorted l : StronglySorted desc (sort_desc l).
Proof.
  induction l as [|x l IH]; simpl; [constructor|]. by apply insert_desc_sorted.
Qed.

Lemma keep_true minSim r : keep minSim r = true ↔ minSim <= score r.
Proof. unfold keep. by destruct (Rle_dec minSim (score r)). Qed.

Lemma slice0_nonneg {A} (l : list A) (limit : Z) :
  (0 ≤ limit)%Z → slice0 l limit = take (Z.to_nat limit) l.
Proof.
  intros H. unfold slice0.
  rewrite (proj2 (Z.ltb_ge _ _)) by done.
  destruct (Z.min_spec limit (Z.of_nat (length l))) as [[_ ->]|[Hle ->]];
    [done|].
  rewrite Nat2Z.id, !take_ge; [done|lia|lia].
Qed.

Lemma elem_of_filter_keep minSim scored x :
  x ∈ List.filter (keep minSim) scored ↔ x ∈ scored ∧ minSim <= score x.
Proof.
  rewrite !list_elem_of_In, List.filter_In, keep_true. done.
Qed.

(** What the query returns for a limit that is not negative. *)
Lemma postprocess_spec scored minSim limit :
  (0 ≤ limit)%Z →
  let matches := List.filter (keep minSim) scored in
  let res := postprocess scored minSim limit in
  (∃ rest, Permutation matches (res ++ rest)
           ∧ ∀ x y, x ∈ res → y ∈ rest → score y <= score x)
  ∧ StronglySorted desc res
  ∧ length res = (Z.to_nat limit `min` length matches)%nat
  ∧ (∀ x, x ∈ res → x ∈ scored ∧ minSim <= score x).
Proof.
  intros Hlimit matches res. subst res. unfold postprocess. fold matches.
  rewrite slice0_nonneg by done.
  set (k := Z.to_nat limit). set (sorted := sort_desc matches).
  pose proof (sort_desc_sorted matches) as Hsorted. fold sorted in Hsorted.
  pose proof (sort_desc_Permutation matches) as Hperm. fold sorted in Hperm.
  rewrite <- (take_drop k sorted) in Hsorted.
  split; [|split; [|split]].
  - exists (drop k sorted). split.
    + by rewrite take_drop.
    + intros x y Hx Hy.
      apply (StronglySorted_app_1_elem_of desc _ _ x y Hsorted Hx Hy).
  - by eapply StronglySorted_app_1_l.
  - rewrite length_take. by rewrite Hperm.
  - intros x Hx. apply elem_of_filter_keep. fold matches.
    rewrite <- Hperm. eapply subseteq_take, Hx.
Qed.

(** C7 (as amended). Recall query post-processing: for every query
    embedding, window of stored rows, threshold [minSim] and limit that is
    not negative, the query returns the rows of the window whose cosine
    similarity to the query is at least [minSim], in descending order of
    similarity, cut to the first [limit]: the result is sorted, every
    returned row matches, every match left out scores no more than every
    returned row, and [min(limit, number of matches)] rows are returned. *)
Theorem similar_top_matches emb data minSim limit :
  (0 ≤ limit)%Z →
  let matches := List.filter (keep minSim) (score_row emb <$> data) in
  let res := similar emb data minSim limit in
  (∃ rest, Permutation matches (res ++ rest)
           ∧ ∀ x y, x ∈ res → y ∈ rest → score y <= score x)
  ∧ StronglySorted desc res
  ∧ length res = (Z.to_nat limit `min` length matches)%nat
  ∧ (∀ x, x ∈ res →
       (∃ r, r ∈ data ∧ x = score_row emb r) ∧ minSim <= score x)
  ∧ GET_results emb data minSim limit = to_result <$> res.
Proof.
  intros Hlimit matches res.
  destruct (postprocess_spec (score_row emb <$> data) minSim limit Hlimit)
    as (Hrest & Hsorted & Hlen & Hin).
  split; [exact Hrest|]. split; [exact Hsorted|]. split; [exact Hlen|].
  split; [|done].
  intros x Hx. destruct (Hin x Hx) as [Hdata Hmin]. split; [|done].
  apply list_elem_of_fmap in Hdata as (r & -> & Hr). eauto.
Qed.

Definition demo_row (name : string) (v : option (list R)) : Row :=
  {| id := name; type := "correction"; content := "{}"; embedding := v;
     created_at := "2025-01-01" |}.

Lemma similar_top_matches_witness :
  let data := [demo_row "r1" (Some [1]); demo_row "r2" None] in
  let matches := List.filter (keep (7/10)) (score_row [1] <$> data) in
  let res := similar [1] data (7/10) 2 in
  (∃ rest, Permutation matches (res ++ rest)
           ∧ ∀ x y, x ∈ res → y ∈ rest → score y <= score x)
  ∧ StronglySorted desc res
  ∧ length res = (2 `min` length matches)%nat
  ∧ (∀ x, x ∈ res →
       (∃ r, r ∈ data ∧ x = score_row [1] r) ∧ 7/10 <= score x)
  ∧ GET_results [1] data (7/10) 2 = to_result <$> res.
Proof.
  apply (similar_top_matches
           [1] [demo_row "r1" (Some [1]); demo_row "r2" None] (7/10) 2).
  lia.
Defined.

(** The scenario of the specification: similarities 0.91, 0.72 and 0.40. *)
Definition demo_scored : list Scored :=
  [ {| row := demo_row "r1" None; score := 91/100 |};
    {| row := demo_row "r2" None; score := 40/100 |};
    {| row := demo_row "r3" None; score := 72/100 |} ].

Ltac decide_scores :=
  repeat match goal with
         | |- context [Rle_dec ?x ?y] =>
             destruct (Rle_dec x y); cbn -[Rle_dec];
             try (exfalso; unfold compare_desc in *; cbn in *; lra)
         end.

Example postprocess_demo :
  postprocess demo_scored (7/10) 2
  = [ {| row := demo_row "r1" None; score := 91/100 |};
      {| row := demo_row "r3" None; score := 72/100 |} ].
Proof.
  unfold postprocess, demo_scored, keep, compare_desc.
  cbn -[Rle_dec]. decide_scores. reflexivity.
Qed.

(** C7 fails as stated for a negative limit: [slice(0, -1)] drops the
    last match instead of returning at most [limit] rows. *)
Lemma similar_negative_limit_counterexample :
  postprocess demo_scored (7/10) (-1)
  = [ {| row := demo_row "r1" None; score := 91/100 |} ]
  ∧ ¬ (Z.of_nat (length (postprocess demo_scored (7/10) (-1))) ≤ -1)%Z.
Proof.
  assert (postprocess demo_scored (7/10) (-1)
          = [ {| row := demo_row "r1" None; score := 91/100 |} ]) as ->.
  { unfold postprocess, demo_scored, keep, compare_desc.
    cbn -[Rle_dec]. decide_scores. reflexivity. }
  split; [done|]. simpl. lia.
Qed.

End Recall.


(** ** More of the files store: tabs, renaming, editing *)

Module StoreOps.
Import Store.

(** [openTab] *)
Definition openTab (p : string) (s : FilesState) : FilesState :=
  if bool_decide (p ∈ openTabs s) then
    {| files := files s; userEdits := userEdits s; openTabs := openTabs s;
       activePath := Some p; stagedChanges := stagedChanges s |}
  else
    {| files := files s; userEdits := userEdits s;
       openTabs := openTabs s ++ [p];
       activePath := Some p; stagedChanges := stagedChanges s |}.

(** [closeTab]: [tabs[tabs.length - 1]] is the last remaining tab, or
    [undefined] when none remains. *)
Definition closeTab (p : string) (s : FilesState) : FilesState :=
  let tabs := List.filter (λ q, negb (bool_decide (q = p))) (openTabs s) in
  let nextActive :=
    if bool_decide (activePath s = Some p) then last tabs
    else activePath s in
  {| files := files s; userEdits := userEdits s; openTabs := tabs;
     activePath := nextActive; stagedChanges := stagedChanges s |}.

Definition setActive (p : option string) (s : FilesState) : FilesState :=
  {| files := files s; userEdits := userEdits s; openTabs := openTabs s;
     activePath := p; stagedChanges := stagedChanges s |}.

Definition reorderTabs (paths : list string) (s : FilesState) : FilesState :=
  {| files := files s; userEdits := userEdits s; openTabs := paths;
     activePath := activePath s; stagedChanges := stagedChanges s |}.

Definition clearStagedChanges (s : FilesState) : FilesState :=
  {| files := files s; userEdits := userEdits s; openTabs := openTabs s;
     activePath := activePath s; stagedChanges := [] |}.

(** [p === from ? to : p] *)
Definition renamed (from to p : string) : string :=
  if bool_decide (p = from) then to else p.

(** [renamePath], for a path [from] that is a file of the map or that no
    object has by inheritance: [files[from]] is then the content of the
    file or [undefined].  The content is assigned to [to] and the old
    property deleted. *)
Definition renamePath (from to : string) (s : FilesState) : FilesState :=
  let files' :=
    match files s !! from with
    | Some v => delete from (js_set (files s) to v)
    | None => files s
    end in
  let tabs := renamed from to <$> openTabs s in
  let edits : gset string := set_map (renamed from to) (userEdits s) in
  let active :=
    if bool_decide (activePath s = Some from) then Some to
    else activePath s in
  {| files := files'; userEdits := edits; openTabs := tabs;
     activePath := active; stagedChanges := stagedChanges s |}.

(** *** Applying never removes a file *)

Lemma dom_js_set (m : gmap string string) k v x :
  x ∈ dom (js_set m k v) ↔ x ∈ dom m ∨ (x = k ∧ x ≠ "__proto__").
Proof.
  unfold js_set. destruct (decide (k = "__proto__")) as [->|Hk].
  - destruct (m !! "__proto__") as [y|] eqn:Hm.
    + rewrite bool_decide_eq_true_2 by done.
      rewrite bool_decide_eq_false_2 by done. cbn [andb].
      rewrite dom_insert_L, elem_of_union, elem_of_singleton.
      apply (elem_of_dom_2 (D := gset string)) in Hm.
      split; [intros [->|H]; by left|].
      intros [H|[Hx H]]; [by right|done].
    + rewrite !bool_decide_eq_true_2 by done. cbn [andb].
      split; [by left|]. intros [H|[-> H]]; done.
  - rewrite bool_decide_eq_false_2 by done. cbn [andb].
    rewrite dom_insert_L, elem_of_union, elem_of_singleton.
    split.
    + intros [->|H]; [by right|by left].
    + intros [H|[-> _]]; [by right|by left].
Qed.

Lemma dom_foldl_write_change cs (m : gmap string string) :
  dom (foldl write_change m cs)
  = dom m ∪ (list_to_set (path <$> cs) ∖ {["__proto__"]}).
Proof.
  apply set_eq. intros x.
  rewrite elem_of_union, elem_of_difference, elem_of_list_to_set,
    elem_of_singleton.
  revert m. induction cs as [|c cs IH]; intros m; simpl.
  - split; [by left|]. by intros [H|[H%elem_of_nil _]].
  - rewrite IH. unfold write_change. rewrite dom_js_set, elem_of_cons.
    split.
    + intros [[H|[-> H]]|[H1 H2]].
      * by left.
      * right. split; [by left|done].
      * right. split; [by right|done].
    + intros [H|[[->|H1] H2]].
      * left. by left.
      * left. right. done.
      * right. done.
Qed.

Lemma files_after_apply s :
  files (applyStagedChanges s).1
  = foldl write_change (files s)
          (List.filter (λ c, negb (conflicting (userEdits s) c))
                       (stagedChanges s)).
Proof.
  destruct (foldl_apply_iter_counts (stagedChanges s)
              {| l_applied := 0; l_skipped := 0;
                 l_nextFiles := files s; l_edits := userEdits s |})
    as (_ & _ & Hf).
  exact Hf.
Qed.

(** X1. The set of files after [applyStagedChanges] is the set before it
    plus the paths of the changes that were applied, [__proto__] left
    out: no file ever disappears, no path with a local edit is created,
    and a change applied to the path [__proto__] creates no file. *)
Theorem applyStagedChanges_dom s :
  dom (files (applyStagedChanges s).1)
  = dom (files s)
    ∪ (list_to_set
         (path <$> List.filter (λ c, negb (conflicting (userEdits s) c))
                               (stagedChanges s))
       ∖ {["__proto__"]}).
Proof. rewrite files_after_apply. apply dom_foldl_write_change. Qed.

(** *** A direct edit shields its path *)

(** X2. Once [updateFile] has written [content] to [p], no
    [applyStagedChanges] - whatever is staged, then or later by
    [setStagedChanges] - changes it: the path still holds [content] and is
    still marked as edited. *)
Theorem updateFile_shields p content changes s :
  let s' := (applyStagedChanges
               (setStagedChanges changes (updateFile p content s))).1 in
  files s' !! p = Some content ∧ p ∈ userEdits s'.
Proof.
  intros s'. subst s'. split.
  - rewrite files_after_apply. cbn [files userEdits stagedChanges
      setStagedChanges updateFile].
    rewrite foldl_write_change_other; [apply lookup_insert_eq|].
    intros c Hc Heq. apply elem_of_filter_bool in Hc as [_ Hc].
    apply conflicting_false in Hc. apply Hc. rewrite Heq.
    apply elem_of_union_r, elem_of_singleton. done.
  - cbn [applyStagedChanges fst userEdits]. unfold apply_loop.
    rewrite foldl_apply_iter_edits.
    cbn [l_edits userEdits setStagedChanges updateFile].
    apply elem_of_union_r, elem_of_singleton. done.
Qed.

(** *** Tabs *)

(** No tab is open twice, and the active path, if any, is an open tab. *)
Definition tabs_ok (s : FilesState) : Prop :=
  NoDup (openTabs s) ∧ ∀ p, activePath s = Some p → p ∈ openTabs s.

Lemma elem_of_filter_ne (p q : string) (l : list string) :
  q ∈ List.filter (λ q, negb (bool_decide (q = p))) l ↔ q ∈ l ∧ q ≠ p.
Proof.
  rewrite elem_of_filter_bool, negb_true_iff, bool_decide_eq_false. done.
Qed.

Lemma NoDup_filter_bool {A} (f : A → bool) (l : list A) :
  NoDup l → NoDup (List.filter f l).
Proof.
  induction 1 as [|x l Hx Hl IH]; simpl; [constructor|].
  destruct (f x); [|done]. constructor; [|done].
  rewrite elem_of_filter_bool. tauto.
Qed.

Lemma last_elem_of {A} (l : list A) x : last l = Some x → x ∈ l.
Proof.
  intros H. apply last_Some in H as [l' ->]. set_solver.
Qed.

(** X3. [openTab] and [closeTab] keep the tab bar well formed; [openTab] makes
    its path the active tab; [closeTab] removes its path, leaves the other
    tabs in order, and when it closes the active tab it activates the last
    remaining tab - or none when the bar becomes empty. *)
Theorem tabs_open_close p s :
  tabs_ok s →
  (tabs_ok (openTab p s)
   ∧ activePath (openTab p s) = Some p
   ∧ p ∈ openTabs (openTab p s))
  ∧ (tabs_ok (closeTab p s)
     ∧ (p ∉ openTabs (closeTab p s))
     ∧ (∀ q, q ≠ p → (q ∈ openTabs (closeTab p s) ↔ q ∈ openTabs s))
     ∧ (activePath s = Some p →
        activePath (closeTab p s) = last (openTabs (closeTab p s)))
     ∧ (activePath s ≠ Some p →
        activePath (closeTab p s) = activePath s)).
Proof.
  intros [Hnd Hact]. split.
  - unfold openTab, tabs_ok.
    destruct (bool_decide (p ∈ openTabs s)) eqn:Hp; simpl.
    + apply bool_decide_eq_true in Hp.
      repeat split; try done. by intros q [= <-].
    + apply bool_decide_eq_false in Hp. repeat split.
      * apply NoDup_app. repeat split; [done| |apply NoDup_singleton].
        intros q Hq ->%list_elem_of_singleton. done.
      * intros q [= <-]. apply elem_of_app. right. by left.
      * apply elem_of_app. right. by left.
  - unfold closeTab, tabs_ok. simpl.
    repeat split.
    + by apply NoDup_filter_bool.
    + intros q. destruct (bool_decide (activePath s = Some p)) eqn:Ha.
      * apply last_elem_of.
      * apply bool_decide_eq_false in Ha. intros Hq.
        apply elem_of_filter_ne. split; [by apply Hact|]. congruence.
    + rewrite elem_of_filter_ne. tauto.
    + rewrite elem_of_filter_ne. tauto.
    + rewrite elem_of_filter_ne. tauto.
    + intros Ha. by rewrite bool_decide_eq_true_2.
    + intros Ha. by rewrite bool_decide_eq_false_2.
Qed.

Definition tabs_demo : FilesState :=
  {| files := ∅; userEdits := ∅; openTabs := ["a.ts"; "b.ts"; "c.ts"];
     activePath := Some "b.ts"; stagedChanges := [] |}.

Lemma tabs_open_close_witness :
  (tabs_ok (openTab "b.ts" tabs_demo)
   ∧ activePath (openTab "b.ts" tabs_demo) = Some "b.ts"
   ∧ "b.ts" ∈ openTabs (openTab "b.ts" tabs_demo))
  ∧ (tabs_ok (closeTab "b.ts" tabs_demo)
     ∧ ("b.ts" ∉ openTabs (closeTab "b.ts" tabs_demo))
     ∧ (∀ q, q ≠ "b.ts" →
          (q ∈ openTabs (closeTab "b.ts" tabs_demo)
           ↔ q ∈ openTabs tabs_demo))
     ∧ (activePath tabs_demo = Some "b.ts" →
        activePath (closeTab "b.ts" tabs_demo)
        = last (openTabs (closeTab "b.ts" tabs_demo)))
     ∧ (activePath tabs_demo ≠ Some "b.ts" →
        activePath (closeTab "b.ts" tabs_demo) = activePath tabs_demo)).
Proof.
  apply (tabs_open_close "b.ts" tabs_demo).
  split.
  - simpl. compute_done.
  - simpl. intros p [= <-]. compute_done.
Defined.

Example closeTab_demo :
  activePath (closeTab "b.ts" tabs_demo) = Some "c.ts"
  ∧ openTabs (closeTab "b.ts" tabs_demo) = ["a.ts"; "c.ts"].
Proof. split; reflexivity. Qed.

(** *** Renaming *)




Definition rename_demo : FilesState :=
  {| files := {[ "a.ts" := "A"; "b.ts" := "B" ]};
     userEdits := {[ "a.ts" ]};
     openTabs := ["a.ts"; "b.ts"];
     activePath := Some "a.ts";
     stagedChanges := [] |}.


Example renamePath_demo :
  files (renamePath "a.ts" "c.ts" rename_demo)
  = {[ "b.ts" := "B"; "c.ts" := "A" ]}
  ∧ files (renamePath "a.ts" "__proto__" rename_demo) = {[ "b.ts" := "B" ]}.
Proof. split; by vm_compute. Qed.

(** X5. Renaming a file onto its own path deletes it: the content is dropped
    from the file map while its tab, its edited mark and the active path
    stay as they were. *)
Theorem renamePath_self_deletes p v s :
  files s !! p = Some v →
  let s' := renamePath p p s in
  files s' = delete p (files s)
  ∧ files s' !! p = None
  ∧ openTabs s' = openTabs s
  ∧ userEdits s' = userEdits s
  ∧ activePath s' = activePath s.
Proof.
  intros Hv s'. subst s'. unfold renamePath.
  cbn [files userEdits openTabs activePath]. rewrite Hv.
  assert (∀ q, renamed p p q = q) as Hid.
  { intros q. unfold renamed. by case_bool_decide. }
  split; [|split; [|split; [|split]]].
  - apply map_eq. intros q. destruct (decide (q = p)) as [->|Hq].
    + by rewrite !lookup_delete_eq.
    + rewrite !lookup_delete_ne by done. by rewrite js_set_lookup_ne.
  - apply lookup_delete_eq.
  - rewrite <- (list_fmap_id (openTabs s)) at 2.
    apply list_fmap_ext. intros _ q _. apply Hid.
  - apply set_eq. intros q. rewrite elem_of_map. split.
    + intros (x & -> & Hx). by rewrite Hid.
    + intros Hq. exists q. by rewrite Hid.
  - case_bool_decide; congruence.
Qed.

Lemma renamePath_self_deletes_witness :
  let s' := renamePath "a.ts" "a.ts" rename_demo in
  files s' = delete "a.ts" (files rename_demo)
  ∧ files s' !! "a.ts" = None
  ∧ openTabs s' = openTabs rename_demo
  ∧ userEdits s' = userEdits rename_demo
  ∧ activePath s' = activePath rename_demo.
Proof.
  apply (renamePath_self_deletes "a.ts" "A" rename_demo). reflexivity.
Defined.

End StoreOps.


(** ** More about the diff engine *)

Module DiffProps.
Import Text Diff.

(** *** The diff as an edit script *)

(** The lines an operation list keeps or removes from the old text, and
    the lines it keeps or adds to make the new one. *)
Definition old_line (op : string) : option string :=
  if startsWith op " " || startsWith op "-" then Some (slice1 op) else None.

Definition new_line (op : string) : option string :=
  if startsWith op " " || startsWith op "+" then Some (slice1 op) else None.

Definition old_side (ops : list string) : list string := omap old_line ops.
Definition new_side (ops : list string) : list string := omap new_line ops.

Definition is_context (op : string) : bool := startsWith op " ".

Definition context_count (ops : list string) : nat :=
  length (List.filter is_context ops).

Lemma omap_fmap_Some {A B} (f : A → option B) (g : B → A) (l : list B) :
  (∀ x, f (g x) = Some x) → omap f (g <$> l) = l.
Proof.
  intros H. induction l as [|x l IH]; csimpl; [done|].
  rewrite H. csimpl. by rewrite IH.
Qed.

Lemma omap_fmap_None {A B} (f : A → option B) (g : B → A) (l : list B) :
  (∀ x, f (g x) = None) → omap f (g <$> l) = [].
Proof.
  intros H. induction l as [|x l IH]; csimpl; [done|].
  rewrite H. by csimpl.
Qed.

Lemma old_line_marked l :
  old_line (String " " l) = Some l ∧ old_line (String "-" l) = Some l
  ∧ old_line (String "+" l) = None.
Proof.
  unfold old_line, startsWith. simpl. fold (startsWith l EmptyString).
  by rewrite startsWith_nil.
Qed.

Lemma new_line_marked l :
  new_line (String " " l) = Some l ∧ new_line (String "+" l) = Some l
  ∧ new_line (String "-" l) = None.
Proof.
  unfold new_line, startsWith. simpl. fold (startsWith l EmptyString).
  by rewrite startsWith_nil.
Qed.

Lemma old_side_flush oldLines newLines i j :
  old_side (flush oldLines newLines (i, j, [])) = drop i oldLines.
Proof.
  unfold flush, old_side. rewrite app_nil_l, omap_app.
  rewrite (omap_fmap_Some old_line (String.append "-"))
    by (intros x; apply old_line_marked).
  rewrite (omap_fmap_None old_line (String.append "+"))
    by (intros x; apply old_line_marked).
  apply app_nil_r.
Qed.

Lemma new_side_flush oldLines newLines i j :
  new_side (flush oldLines newLines (i, j, [])) = drop j newLines.
Proof.
  unfold flush, new_side. rewrite app_nil_l, omap_app.
  rewrite (omap_fmap_None new_line (String.append "-"))
    by (intros x; apply new_line_marked).
  by rewrite (omap_fmap_Some new_line (String.append "+"))
    by (intros x; apply new_line_marked).
Qed.

Lemma is_context_context l : is_context (String " " l) = true.
Proof. unfold is_context, startsWith. simpl. by destruct l. Qed.

Lemma context_count_flush oldLines newLines i j :
  context_count (flush oldLines newLines (i, j, [])) = 0.
Proof.
  unfold flush, context_count. rewrite app_nil_l, List.filter_app, length_app.
  assert (∀ l : list string,
    List.filter is_context (String "-" <$> l) = []
    ∧ List.filter is_context (String "+" <$> l) = []) as Hnone.
  { intros l. induction l as [|x l [IH1 IH2]]; csimpl; [done|].
    by rewrite IH1, IH2. }
  change (String.append "-") with (String "-").
  change (String.append "+") with (String "+").
  by rewrite (proj1 (Hnone _)), (proj2 (Hnone _)).
Qed.

Section Script.
Variables oldLines newLines : list string.
Variable dp : list (list nat).

Lemma sides_walk fuel i j :
  old_side (flush oldLines newLines
                  (walk oldLines newLines fuel dp i j []))
  = drop i oldLines
  ∧ new_side (flush oldLines newLines
                    (walk oldLines newLines fuel dp i j []))
    = drop j newLines.
Proof.
  revert i j. induction fuel as [|fuel IH]; intros i j.
  - split; [apply old_side_flush|apply new_side_flush].
  - cbn [walk].
    destruct ((i <? length oldLines) && (j <? length newLines)) eqn:Hrange;
      [|split; [apply old_side_flush|apply new_side_flush]].
    apply andb_true_iff in Hrange as [Hi%Nat.ltb_lt Hj%Nat.ltb_lt].
    destruct (lookup_lt_is_Some_2 oldLines i Hi) as [o Ho].
    destruct (lookup_lt_is_Some_2 newLines j Hj) as [a Ha].
    unfold line_at. rewrite Ho, Ha. simpl default. rewrite !app_nil_l.
    destruct (same_line oldLines newLines i j) eqn:Hsame;
      [|destruct (dp_get dp i (j + 1) <=? dp_get dp (i + 1) j)];
      rewrite walk_out, flush_out; unfold old_side, new_side;
      rewrite !omap_app;
      match goal with
      | |- context [walk _ _ _ _ ?a ?b []] =>
          destruct (IH a b) as [IHo IHn]
      end;
      unfold old_side, new_side in IHo, IHn; rewrite IHo, IHn.
    + unfold same_line in Hsame. apply bool_decide_eq_true in Hsame.
      assert (o = a) as -> by congruence.
      change (" " +:+ a) with (String " " a). csimpl.
      rewrite (proj1 (old_line_marked a)), (proj1 (new_line_marked a)).
      by rewrite (drop_S _ _ _ Ho), (drop_S _ _ _ Ha).
    + change ("-" +:+ o) with (String "-" o). csimpl.
      rewrite (proj1 (proj2 (old_line_marked o))).
      by rewrite (drop_S _ _ _ Ho).
    + change ("+" +:+ a) with (String "+" a). csimpl.
      rewrite (proj1 (proj2 (new_line_marked a))).
      by rewrite (drop_S _ _ _ Ha).
Qed.

End Script.

Lemma diff_lines_sides oldLines newLines :
  old_side (diff_lines oldLines newLines) = oldLines
  ∧ new_side (diff_lines oldLines newLines) = newLines.
Proof. apply sides_walk. Qed.

(** X6. The output of [unifiedDiff] is an edit script from the base to the
    candidate: its context and [-] lines, in order and without their
    marker, are exactly the lines of the base; its context and [+] lines
    are exactly the lines of the candidate. *)
Theorem unifiedDiff_edit_script B A :
  old_side (split_nl (unifiedDiff B A)) = split_nl B
  ∧ new_side (split_nl (unifiedDiff B A)) = split_nl A.
Proof. rewrite split_unifiedDiff. apply diff_lines_sides. Qed.

(** *** The script is as short as possible *)

Lemma context_count_walk oldLines newLines fuel i j :
  (length oldLines - i) + (length newLines - j) ≤ fuel →
  context_count
    (flush oldLines newLines
           (walk oldLines newLines fuel (lcs_table oldLines newLines) i j []))
  = suffix_lcs oldLines newLines i j.
Proof.
  revert i j. induction fuel as [|fuel IH]; intros i j Hfuel.
  - cbn [walk]. rewrite context_count_flush.
    symmetry. apply suffix_lcs_old_end. lia.
  - cbn [walk].
    destruct ((i <? length oldLines) && (j <? length newLines)) eqn:Hrange.
    + apply andb_true_iff in Hrange as [Hi%Nat.ltb_lt Hj%Nat.ltb_lt].
      rewrite (suffix_lcs_step oldLines newLines i j) by done.
      rewrite !lcs_table_spec.
      destruct (same_line oldLines newLines i j) eqn:Hsame;
        [|destruct (suffix_lcs oldLines newLines i (j + 1)
                    <=? suffix_lcs oldLines newLines (i + 1) j) eqn:Hle];
        rewrite walk_out, flush_out; unfold context_count;
        rewrite List.filter_app, length_app;
        fold (context_count
          (flush oldLines newLines
             (walk oldLines newLines fuel (lcs_table oldLines newLines)
                   (S i) (S j) [])));
        fold (context_count
          (flush oldLines newLines
             (walk oldLines newLines fuel (lcs_table oldLines newLines)
                   (S i) j [])));
        fold (context_count
          (flush oldLines newLines
             (walk oldLines newLines fuel (lcs_table oldLines newLines)
                   i (S j) [])));
        rewrite IH by lia; rewrite ?Nat.add_1_r; simpl.
      * rewrite is_context_context. simpl. lia.
      * apply Nat.leb_le in Hle. rewrite !Nat.add_1_r in Hle. lia.
      * apply Nat.leb_gt in Hle. rewrite !Nat.add_1_r in Hle. lia.
    + rewrite context_count_flush. symmetry.
      apply andb_false_iff in Hrange as [Hi%Nat.ltb_ge|Hj%Nat.ltb_ge].
      * by apply suffix_lcs_old_end.
      * by apply suffix_lcs_new_end.
Qed.

Lemma sides_length oldLines newLines ops :
  Forall (diff_line oldLines newLines) ops →
  length (old_side ops) + length (new_side ops)
  = length ops + context_count ops.
Proof.
  unfold old_side, new_side, context_count.
  induction 1 as [|op ops Hop _ IH]; [done|].
  destruct Hop as [l _|l _|l _]; csimpl.
  - rewrite (proj1 (old_line_marked l)), (proj1 (new_line_marked l)).
    rewrite is_context_context. simpl. lia.
  - rewrite (proj1 (proj2 (old_line_marked l))). simpl. lia.
  - rewrite (proj1 (proj2 (new_line_marked l))). simpl. lia.
Qed.

(** X7. [unifiedDiff] keeps as many lines as can be kept: the number of
    context lines of its output is the length of a longest common
    subsequence of the two line sequences, so the output has
    [m + n - lcs] lines. *)
Theorem unifiedDiff_minimal B A :
  let ops := split_nl (unifiedDiff B A) in
  let lcs := lcs_len (split_nl B) (split_nl A) in
  context_count ops = lcs
  ∧ length ops + lcs = length (split_nl B) + length (split_nl A)
  ∧ (∀ zs, zs `sublist_of` split_nl B → zs `sublist_of` split_nl A →
           length zs ≤ context_count ops).
Proof.
  intros ops lcs.
  assert (context_count ops = lcs) as Hctx.
  { subst ops lcs. rewrite split_unifiedDiff. unfold diff_lines.
    rewrite context_count_walk by lia. reflexivity. }
  split; [exact Hctx|]. split.
  - pose proof (sides_length (split_nl B) (split_nl A) ops) as Hlen.
    destruct (diff_lines_sides (split_nl B) (split_nl A)) as [Ho Hn].
    rewrite <- split_unifiedDiff in Ho, Hn.
    fold ops in Ho, Hn. rewrite Ho, Hn, Hctx in Hlen.
    rewrite Hlen; [lia|].
    subst ops. rewrite split_unifiedDiff.
    apply Forall_diff_line_diff_lines.
  - intros zs H1 H2. rewrite Hctx. by apply lcs_len_upper.
Qed.

(** *** Identical texts *)

Lemma walk_same ls dp fuel i out :
  length ls - i ≤ fuel →
  flush ls ls (walk ls ls fuel dp i i out)
  = out ++ (String " " <$> drop i ls).
Proof.
  revert i out. induction fuel as [|fuel IH]; intros i out Hfuel.
  - simpl. rewrite drop_ge by lia. simpl. by rewrite !app_nil_r.
  - cbn [walk]. destruct (i <? length ls) eqn:Hi.
    + apply Nat.ltb_lt in Hi. simpl andb.
      unfold same_line. rewrite bool_decide_eq_true_2 by done.
      rewrite IH by lia.
      destruct (lookup_lt_is_Some_2 ls i Hi) as [l Hl].
      unfold line_at. rewrite Hl, (drop_S _ _ _ Hl). simpl.
      by rewrite <- app_assoc.
    + apply Nat.ltb_ge in Hi. simpl.
      rewrite drop_ge by lia. simpl. by rewrite !app_nil_r.
Qed.

(** X8. The diff of a text with itself is that text with every line marked as
    context, and applying it gives the text back - for every text, also
    one whose lines look like diff headers. *)
Theorem unifiedDiff_same B :
  unifiedDiff B B = join_nl (String " " <$> split_nl B)
  ∧ applyUnifiedDiff B (unifiedDiff B B) = B.
Proof.
  assert (diff_lines (split_nl B) (split_nl B)
          = String " " <$> split_nl B) as Hlines.
  { unfold diff_lines. rewrite walk_same by lia. done. }
  split.
  - unfold unifiedDiff. by rewrite Hlines.
  - apply roundtrip_core. rewrite Hlines.
    apply Forall_fmap, Forall_forall. intros l _. reflexivity.
Qed.

(** *** The two appliers *)

(** X9. On the empty diff text the two copies differ: [split] gives one empty
    operation, an unknown marker, which the route copies through - one
    empty line in front of the base - and the client drops. *)
Theorem apply_empty_diff B :
  applyUnifiedDiff B EmptyString = String nl B
  ∧ applyUnifiedDiffClient B EmptyString = B.
Proof.
  unfold applyUnifiedDiff, applyUnifiedDiffClient.
  change (parseUnifiedDiff EmptyString) with [EmptyString].
  cbn [apply_ops apply_ops_client startsWith String.prefix app].
  change (drop 0 (split_nl B)) with (split_nl B).
  split; [|apply join_split].
  pose proof (split_nl_nonempty B) as Hne.
  pose proof (join_split B) as Hjoin.
  destruct (split_nl B) as [|l ls]; [done|].
  change (join_nl (EmptyString :: l :: ls))
    with (EmptyString +:+ String nl (join_nl (l :: ls))).
  by rewrite Hjoin.
Qed.

(** A line that starts with one of the three markers. *)
Definition marked (op : string) : bool :=
  startsWith op " " || startsWith op "-" || startsWith op "+".

Lemma apply_ops_client_marked L ops i res :
  Forall (λ op, marked op = true) ops →
  apply_ops_client L ops i res = apply_ops L ops i res.
Proof.
  intros Hall. revert i res.
  induction Hall as [|op ops Hop _ IH]; intros i res; [done|].
  cbn [apply_ops apply_ops_client]. unfold marked in Hop.
  destruct (startsWith op " "); [by destruct (decide _)|].
  destruct (startsWith op "-"); [by destruct (decide _)|].
  destruct (startsWith op "+"); [done|done].
Qed.

(** X10. When every operation line of a diff carries a marker, the route's
    applier and the client's applier return the same text. *)
Theorem appliers_agree B d :
  Forall (λ op, marked op = true) (parseUnifiedDiff d) →
  applyUnifiedDiffClient B d = applyUnifiedDiff B d.
Proof.
  intros Hall. unfold applyUnifiedDiff, applyUnifiedDiffClient.
  by rewrite apply_ops_client_marked.
Qed.

Lemma appliers_agree_witness :
  applyUnifiedDiffClient (lines3 "a" "b" "c") (lines3 " a" "-b" "+x")
  = applyUnifiedDiff (lines3 "a" "b" "c") (lines3 " a" "-b" "+x").
Proof.
  apply (appliers_agree (lines3 "a" "b" "c") (lines3 " a" "-b" "+x")).
  vm_compute. repeat constructor.
Defined.

Lemma parseUnifiedDiff_header h d :
  is_header h = true → has_nl h = false →
  parseUnifiedDiff (h +:+ String nl d) = parseUnifiedDiff d.
Proof.
  intros Hh Hnl. unfold parseUnifiedDiff.
  rewrite split_nl_app by done. cbn [List.filter].
  by rewrite is_header_negb, Hh.
Qed.

(** X11. Header lines are ignored: a [--- ], [+++ ] or [@@] line put in front
    of a diff changes nothing in what either applier returns. *)
Theorem apply_ignores_header B h d :
  is_header h = true → has_nl h = false →
  applyUnifiedDiff B (h +:+ String nl d) = applyUnifiedDiff B d
  ∧ applyUnifiedDiffClient B (h +:+ String nl d)
    = applyUnifiedDiffClient B d.
Proof.
  intros Hh Hnl. unfold applyUnifiedDiff, applyUnifiedDiffClient.
  by rewrite parseUnifiedDiff_header.
Qed.

Lemma apply_ignores_header_witness :
  applyUnifiedDiff "a" ("@@ -1 +1 @@" +:+ String nl "+b")
  = applyUnifiedDiff "a" "+b"
  ∧ applyUnifiedDiffClient "a" ("@@ -1 +1 @@" +:+ String nl "+b")
    = applyUnifiedDiffClient "a" "+b".
Proof.
  apply (apply_ignores_header "a" "@@ -1 +1 @@" "+b"); reflexivity.
Defined.

(** A diff made of additions only puts the added lines in front of the
    base, whatever the base is: additions never look at the cursor. *)
Theorem apply_additions_prepend B ls :
  ls ≠ [] →
  Forall (λ l, has_nl l = false) ls →
  Forall (λ l, startsWith l "++ " = false) ls →
  applyUnifiedDiff B (join_nl (String "+" <$> ls))
  = join_nl (ls ++ split_nl B).
Proof.
  intros Hne Hnl Hhdr. unfold applyUnifiedDiff, parseUnifiedDiff.
  rewrite split_join.
  - rewrite filter_all.
    + change (String "+") with (String.append "+").
      rewrite apply_ops_additions. done.
    + apply Forall_fmap. eapply Forall_impl; [exact Hhdr|].
      intros l Hl. simpl. unfold startsWith in *. simpl.
      rewrite Hl. done.
  - by destruct ls.
  - apply Forall_fmap. eapply Forall_impl; [exact Hnl|].
    intros l Hl. simpl. done.
Qed.

Lemma apply_additions_prepend_witness :
  applyUnifiedDiff (lines3 "a" "b" "c") (join_nl (String "+" <$> ["x"; "y"]))
  = join_nl (["x"; "y"] ++ split_nl (lines3 "a" "b" "c")).
Proof.
  apply (apply_additions_prepend (lines3 "a" "b" "c") ["x"; "y"]).
  - discriminate.
  - repeat constructor.
  - repeat constructor.
Defined.

End DiffProps.


(** ** The side-by-side view of a staged change (UnifiedDiffView) *)

Module DiffView.
Import Text.

Inductive RowType := same | remove | add.

Record Row := { type : RowType; text : string }.

(** One iteration of [for (let i = 0; i < maxLen; i++)]: [b] and [a] are
    [undefined] past the end of their array. *)
Definition row_iter (beforeLines afterLines : list string)
           (rows : list Row) (i : nat) : list Row :=
  let b := beforeLines !! i in
  let a := afterLines !! i in
  if decide (b = a) then
    match a with
    | Some t => rows ++ [ {| type := same; text := t |} ]
    | None => rows
    end
  else
    let rows := match b with
                | Some t => rows ++ [ {| type := remove; text := t |} ]
                | None => rows
                end in
    match a with
    | Some t => rows ++ [ {| type := add; text := t |} ]
    | None => rows
    end.

Definition diff_rows (before after : string) : list Row :=
  let beforeLines := split_nl before in
  let afterLines := split_nl after in
  let maxLen := length beforeLines `max` length afterLines in
  foldl (row_iter beforeLines afterLines) [] (seq 0 maxLen).

(** The rows shown for the old text and for the new text. *)
Definition before_row (r : Row) : option string :=
  match type r with
  | same | remove => Some (text r)
  | add => None
  end.

Definition after_row (r : Row) : option string :=
  match type r with
  | same | add => Some (text r)
  | remove => None
  end.

Example diff_rows_ex :
  diff_rows (Diff.lines3 "a" "b" "c") ("a" +:+ String nl "x")
  = [ {| type := same; text := "a" |};
      {| type := remove; text := "b" |};
      {| type := add; text := "x" |};
      {| type := remove; text := "c" |} ].
Proof. reflexivity. Qed.

Lemma take_S_drop {A} (l : list A) k d :
  take (S d) (drop k l) = option_list (l !! k) ++ take d (drop (S k) l).
Proof.
  destruct (l !! k) as [x|] eqn:Hx.
  - by rewrite (drop_S _ _ _ Hx).
  - apply lookup_ge_None in Hx. rewrite !drop_ge by lia.
    by rewrite !take_nil.
Qed.

Lemma row_iter_sides bl al rows i :
  omap before_row (row_iter bl al rows i)
  = omap before_row rows ++ option_list (bl !! i)
  ∧ omap after_row (row_iter bl al rows i)
    = omap after_row rows ++ option_list (al !! i)
  ∧ length (row_iter bl al rows i)
    = length rows
      + (if decide (bl !! i = al !! i)
         then length (option_list (al !! i))
         else length (option_list (bl !! i))
              + length (option_list (al !! i))).
Proof.
  unfold row_iter.
  destruct (decide (bl !! i = al !! i)) as [Heq|Hne].
  - rewrite Heq. destruct (al !! i) as [t|]; rewrite ?omap_app, ?length_app;
      simpl; rewrite ?app_nil_r; repeat split; lia.
  - destruct (bl !! i) as [tb|], (al !! i) as [ta|];
      rewrite ?omap_app, ?length_app; simpl; rewrite ?app_nil_r;
      rewrite <- ?app_assoc; simpl; repeat split; lia.
Qed.

Lemma foldl_row_iter_sides bl al d k rows :
  omap before_row (foldl (row_iter bl al) rows (seq k d))
  = omap before_row rows ++ take d (drop k bl)
  ∧ omap after_row (foldl (row_iter bl al) rows (seq k d))
    = omap after_row rows ++ take d (drop k al).
Proof.
  revert k rows. induction d as [|d IH]; intros k rows.
  - simpl. by rewrite !app_nil_r.
  - cbn [seq foldl]. destruct (IH (S k) (row_iter bl al rows k)) as [-> ->].
    destruct (row_iter_sides bl al rows k) as (-> & -> & _).
    by rewrite !take_S_drop, <- !app_assoc.
Qed.

(** X12. The rows of the view that are not additions are, in order, the lines
    of the old text, and those that are not removals the lines of the new
    text: nothing of either text is left out or shown twice. *)
Theorem diff_rows_sides before after :
  omap before_row (diff_rows before after) = split_nl before
  ∧ omap after_row (diff_rows before after) = split_nl after.
Proof.
  unfold diff_rows.
  destruct (foldl_row_iter_sides (split_nl before) (split_nl after)
              (length (split_nl before) `max` length (split_nl after)) 0 [])
    as [-> ->].
  simpl. split; apply take_ge; lia.
Qed.

End DiffView.


(** ** More about the generation route and its page *)

Module GenProps.
Import Text Codec Gen.

(** *** What the parser tags its files with *)

Lemma file_blocks_tags fuel raw mu f :
  f ∈ file_blocks fuel raw mu → diff f = false ∧ modelUsed f = mu.
Proof.
  revert raw. induction fuel as [|fuel IH]; intros raw; simpl.
  - by intros ?%elem_of_nil.
  - destruct (exec_file raw) as [[[p body] rest]|]; [|by intros ?%elem_of_nil].
    intros [->|Hin]%elem_of_cons; [done|]. by eapply IH.
Qed.

Lemma parse_tags raw mu f :
  f ∈ files (parseOutputToJson raw mu) → diff f = false ∧ modelUsed f = mu.
Proof.
  unfold parseOutputToJson. cbn [files].
  destruct ((length _ =? 0) && _).
  - intros [Hin|Heq%list_elem_of_singleton]%elem_of_app; [|by subst f].
    by eapply file_blocks_tags.
  - apply file_blocks_tags.
Qed.

Lemma annotate_elem base fs f :
  f ∈ annotate base fs →
  ∃ f0, f0 ∈ fs ∧ path f = path f0 ∧ content f = content f0
        ∧ modelUsed f = modelUsed f0
        ∧ diff f = match base with
                   | Some b =>
                       negb (String.eqb (default EmptyString (b !! path f0))
                                        (content f0))
                   | None => diff f0
                   end.
Proof.
  destruct base as [b|]; simpl.
  - intros (f0 & -> & Hf0)%list_elem_of_fmap. exists f0. done.
  - intros Hf. exists f. done.
Qed.

Section Handler.
Variable callGrokCollect : string → string → Outcome.
Variable callClaudeCollect : string → string → string → Outcome.
Variable maybeScrape : string → option string.
Variable ANTHROPIC_SONNET_MODEL : option string.

Definition handle : Request → Response :=
  POST callGrokCollect callClaudeCollect maybeScrape ANTHROPIC_SONNET_MODEL.

Lemma respond_files req p0 parsed mu :
  respond req p0 = Json parsed →
  (∀ f0, f0 ∈ files p0 → diff f0 = false ∧ modelUsed f0 = mu) →
  ∀ f, f ∈ files parsed →
    modelUsed f = mu
    ∧ diff f = match baseFiles req with
               | Some b =>
                   negb (String.eqb (default EmptyString (b !! path f))
                                    (content f))
               | None => false
               end.
Proof.
  unfold respond. intros [= <-] Htags f Hf. cbn [files] in Hf.
  apply annotate_elem in Hf as (f0 & Hf0 & Hp & Hc & Hm & Hd).
  destruct (Htags f0 Hf0) as [Hd0 Hm0]. split; [congruence|].
  rewrite Hd, Hp, Hc. by destruct (baseFiles req).
Qed.

(** X13. Every file of a successful response carries the tag of one model -
    the fast model on the fast route, the refine model on the refine
    route, one of the two for all files on the chained route - and its
    [diff] flag says whether its content differs from the base file of
    the same path (a missing base file counting as empty); without base
    files every flag is false. *)
Theorem POST_files req parsed :
  handle req = Json parsed →
  ∃ mu,
    (decideRoute (prompt req) (vibe req) (mode req) = route_grok →
     mu = grok)
    ∧ (decideRoute (prompt req) (vibe req) (mode req) = route_claude →
       mu = claude)
    ∧ ∀ f, f ∈ files parsed →
        modelUsed f = mu
        ∧ diff f = match baseFiles req with
                   | Some b =>
                       negb (String.eqb (default EmptyString (b !! path f))
                                        (content f))
                   | None => false
                   end.
Proof.
  unfold handle, POST. destruct (prompt req) as [|c p] eqn:Hprompt; [done|].
  unfold run.
  destruct (decideRoute (String c p) (vibe req) (mode req)).
  - destruct (callGrokCollect _ _) as [grokText|e]; [|by destruct e].
    intros Heq. exists grok. split; [done|]. split; [done|].
    eapply respond_files; [exact Heq|]. intros f0. apply parse_tags.
  - destruct (callClaudeCollect _ _ _) as [finalText|e]; [|by destruct e].
    intros Heq. exists claude. split; [done|]. split; [done|].
    eapply respond_files; [exact Heq|]. intros f0. apply parse_tags.
  - destruct (callGrokCollect _ _) as [grokText|e]; [|by destruct e].
    destruct (callClaudeCollect _ _ _) as [finalText|e]; [|by destruct e].
    destruct (0 <? length (files (parseOutputToJson finalText claude)));
      intros Heq; [exists claude|exists grok];
      (split; [done|]); (split; [done|]);
      (eapply respond_files; [exact Heq|]); intros f0; apply parse_tags.
Qed.

(** A model call that throws fails the request with status 500 and the
    thrown message; in chained routing this holds for the refine call
    too: its failure is not replaced by the fast result. *)
Theorem POST_call_failure req e :
  prompt req ≠ EmptyString →
  let system := buildSystemPrompt (scrapedOf maybeScrape req) in
  let user := userPrompt req in
  let route := decideRoute (prompt req) (vibe req) (mode req) in
  (route ≠ route_claude →
   callGrokCollect "grok-4" (grokPrompt system user) = Thrown e →
   handle req = failure e)
  ∧ (route = route_claude →
     callClaudeCollect (modelName ANTHROPIC_SONNET_MODEL) system user
     = Thrown e →
     handle req = failure e)
  ∧ (∀ grokText,
       route = route_dual →
       callGrokCollect "grok-4" (grokPrompt system user)
       = Returned grokText →
       callClaudeCollect (modelName ANTHROPIC_SONNET_MODEL) system
                         (claudeUser grokText (prompt req)) = Thrown e →
       handle req = failure e).
Proof.
  intros Hprompt system user route.
  unfold handle. rewrite (POST_run _ _ _ _ req Hprompt). fold route.
  unfold run.
  fold system user.
  split; [|split].
  - intros Hroute Hg. destruct route; [by rewrite Hg|done|by rewrite Hg].
  - intros -> Hc. by rewrite Hc.
  - intros grokText -> Hg Hc. by rewrite Hg, Hc.
Qed.

End Handler.

Definition demo_response : Parsed :=
  {| files := [ {| path := "a.jsx"; content := "X"; diff := true;
                   modelUsed := grok |} ];
     explanation := "E"; tests := "T" |}.

Lemma POST_files_witness :
  ∃ mu,
    (decideRoute (prompt demo_request) (vibe demo_request)
                 (mode demo_request) = route_grok → mu = grok)
    ∧ (decideRoute (prompt demo_request) (vibe demo_request)
                   (mode demo_request) = route_claude → mu = claude)
    ∧ ∀ f, f ∈ files demo_response →
        modelUsed f = mu
        ∧ diff f = match baseFiles demo_request with
                   | Some b =>
                       negb (String.eqb (default EmptyString (b !! path f))
                                        (content f))
                   | None => false
                   end.
Proof.
  apply (POST_files demo_grok demo_claude_blank (λ _, None) None
           demo_request demo_response).
  reflexivity.
Defined.

Definition demo_claude_down (model system user : string) : Outcome :=
  Thrown "overloaded".

Lemma POST_call_failure_witness :
  handle demo_grok demo_claude_down (λ _, None) None demo_request
  = Failure 500 "overloaded".
Proof.
  refine (proj2 (proj2 (POST_call_failure demo_grok demo_claude_down
                          (λ _, None) None demo_request "overloaded" _))
            demo_raw _ _ _).
  - discriminate.
  - reflexivity.
  - reflexivity.
  - reflexivity.
Defined.

End GenProps.


(** ** The generator page: from the model picker to staged changes *)

Module GenPage.
Import Text.

Inductive ModelOption := pick_grok | pick_claude | pick_dual.

Inductive VibePreset := scrappy | enterprise | a11y.

(** The hint appended to the prompt for the selected vibe. *)
Definition vibe_hint (selectedVibe : option VibePreset) : string :=
  match selectedVibe with
  | Some scrappy =>
      String nl (String nl
        "Gen as Startup Scrappy: prioritize speed and delivery; technical debt acceptable short-term.")
  | Some enterprise =>
      String nl (String nl
        "Gen as Enterprise-Grade: enforce security, feature flags, thorough docs and tests; avoid shortcuts.")
  | Some a11y =>
      String nl (String nl
        "Gen as Accessibility Zen: prioritize WCAG AA/AAA compliance, semantic HTML, aria, keyboard navigation.")
  | None => EmptyString
  end.

(** The request body [onSubmit] posts: the prompt with the hint, and the
    picked model mapped to [vibe] or [mode]; nothing else is sent. *)
Definition request_body (model : ModelOption) (prompt : string)
           (selectedVibe : option VibePreset) : Gen.Request :=
  {| Gen.prompt := prompt +:+ vibe_hint selectedVibe;
     Gen.vibe := match model with
                 | pick_grok => Some "scrappy"
                 | pick_claude => Some "enterprise"
                 | pick_dual => None
                 end;
     Gen.mode := match model with
                 | pick_dual => Some "dual"
                 | _ => None
                 end;
     Gen.scrape_url := None; Gen.context_scraped := None;
     Gen.baseFiles := None; Gen.testsSpec := None |}.

Definition route_of (model : ModelOption) : Gen.Route :=
  match model with
  | pick_grok => Gen.route_grok
  | pick_claude => Gen.route_claude
  | pick_dual => Gen.route_dual
  end.

Definition store_model (m : Codec.Model) : Store.Model :=
  match m with
  | Codec.grok => Store.grok
  | Codec.claude => Store.claude
  end.

(** [data.files.map(f => ({path, before, after, modelUsed}))], with
    [currentFiles] the file map the page rendered with. *)
Definition stage (currentFiles : gmap string string)
           (fs : list Codec.FileOut) : list Store.StagedChange :=
  (λ f, {| Store.path := Codec.path f;
           Store.before :=
             default EmptyString (currentFiles !! Codec.path f);
           Store.after := Codec.content f;
           Store.modelUsed := Some (store_model (Codec.modelUsed f)) |})
    <$> fs.

(** What [onSubmit] does to the store once the response is in. *)
Definition onResponse (currentFiles : gmap string string)
           (resp : Gen.Response) (s : Store.FilesState) : Store.FilesState :=
  match resp with
  | Gen.Json parsed =>
      let staged := stage currentFiles (Codec.files parsed) in
      if 0 <? length staged then Store.setStagedChanges staged s else s
  | Gen.Failure _ _ => s
  end.

(** X14. The picked model alone decides the route: neither the words of the
    prompt nor the appended vibe hint can redirect the request. *)
Theorem picker_routes model prompt selectedVibe :
  let body := request_body model prompt selectedVibe in
  Gen.decideRoute (Gen.prompt body) (Gen.vibe body) (Gen.mode body)
  = route_of model.
Proof.
  destruct model; cbn [request_body Gen.prompt Gen.vibe Gen.mode route_of];
    unfold Gen.decideRoute; repeat case_bool_decide; try done.
Qed.

Section Server.
Variable callGrokCollect : string → string → Gen.Outcome.
Variable callClaudeCollect : string → string → string → Gen.Outcome.
Variable maybeScrape : string → option string.
Variable ANTHROPIC_SONNET_MODEL : option string.

(** The route handler answering the page. *)
Definition answer (model : ModelOption) (prompt : string)
           (selectedVibe : option VibePreset) : Gen.Response :=
  Gen.POST callGrokCollect callClaudeCollect maybeScrape
           ANTHROPIC_SONNET_MODEL (request_body model prompt selectedVibe).

(** The page sends no base files, so no file of a response to it is
    flagged as a diff; and picking the fast or the refine model gives
    files that all carry that model's tag. *)
Theorem page_files model prompt selectedVibe parsed :
  answer model prompt selectedVibe = Gen.Json parsed →
  ∀ f, f ∈ Codec.files parsed →
    Codec.diff f = false
    ∧ (model = pick_grok → Codec.modelUsed f = Codec.grok)
    ∧ (model = pick_claude → Codec.modelUsed f = Codec.claude).
Proof.
  unfold answer, Gen.POST.
  set (body := request_body model prompt selectedVibe).
  destruct (Gen.prompt body) as [|c p] eqn:Hprompt; [done|].
  rewrite <- Hprompt.
  assert (Gen.decideRoute (Gen.prompt body) (Gen.vibe body) (Gen.mode body)
          = route_of model) as ->.
  { subst body. clear. destruct model;
      cbn [request_body Gen.prompt Gen.vibe Gen.mode route_of];
      unfold Gen.decideRoute; repeat case_bool_decide; done. }
  unfold Gen.run.
  destruct model; cbn [route_of].
  - destruct (callGrokCollect _ _) as [grokText|e]; [|by destruct e].
    intros Heq f Hf.
    destruct (GenProps.respond_files _ _ _ Codec.grok Heq
                (λ f0, GenProps.parse_tags grokText Codec.grok f0) f Hf)
      as [Hm Hd].
    done.
  - destruct (callClaudeCollect _ _ _) as [finalText|e]; [|by destruct e].
    intros Heq f Hf.
    destruct (GenProps.respond_files _ _ _ Codec.claude Heq
                (λ f0, GenProps.parse_tags finalText Codec.claude f0) f Hf)
      as [Hm Hd].
    done.
  - destruct (callGrokCollect _ _) as [grokText|e]; [|by destruct e].
    destruct (callClaudeCollect _ _ _) as [finalText|e]; [|by destruct e].
    destruct (0 <? length _); intros Heq f Hf.
    + destruct (GenProps.respond_files _ _ _ Codec.claude Heq
                  (λ f0, GenProps.parse_tags finalText Codec.claude f0) f Hf)
        as [Hm Hd].
      done.
    + destruct (GenProps.respond_files _ _ _ Codec.grok Heq
                  (λ f0, GenProps.parse_tags grokText Codec.grok f0) f Hf)
        as [Hm Hd].
      done.
Qed.

End Server.

Definition page_response : Codec.Parsed :=
  {| Codec.files := [ {| Codec.path := "a.jsx"; Codec.content := "X";
                         Codec.diff := false;
                         Codec.modelUsed := Codec.grok |} ];
     Codec.explanation := "E"; Codec.tests := "T" |}.

Lemma page_files_witness :
  answer Gen.demo_grok Gen.demo_claude_blank (λ _, None) None
         pick_grok "Create a login form" (Some enterprise)
  = Gen.Json page_response
  ∧ ∀ f, f ∈ Codec.files page_response →
      Codec.diff f = false
      ∧ (pick_grok = pick_grok → Codec.modelUsed f = Codec.grok)
      ∧ (pick_grok = pick_claude → Codec.modelUsed f = Codec.claude).
Proof.
  split; [reflexivity|].
  apply (page_files Gen.demo_grok Gen.demo_claude_blank (λ _, None) None
           pick_grok "Create a login form" (Some enterprise) page_response).
  reflexivity.
Defined.

(** *** Staging a response and applying it *)

Definition write_file (m : gmap string string) (f : Codec.FileOut)
  : gmap string string :=
  Store.js_set m (Codec.path f) (Codec.content f).

Definition unedited (edits : gset string) (f : Codec.FileOut) : bool :=
  negb (bool_decide (Codec.path f ∈ edits)).

Lemma foldl_stage cur edits fs m :
  foldl Store.write_change m
    (List.filter (λ c, negb (Store.conflicting edits c)) (stage cur fs))
  = foldl write_file m (List.filter (unedited edits) fs).
Proof.
  revert m. induction fs as [|f fs IH]; intros m; [done|].
  unfold stage. rewrite fmap_cons. fold (stage cur fs).
  cbn [List.filter]. unfold Store.conflicting at 1, unedited at 1.
  cbn [Store.path].
  destruct (bool_decide (Codec.path f ∈ edits)); cbn [negb]; [apply IH|].
  cbn [foldl]. rewrite IH. done.
Qed.

Lemma foldl_write_file_other fs m p :
  (∀ f, f ∈ fs → Codec.path f ≠ p) →
  foldl write_file m fs !! p = m !! p.
Proof.
  revert m. induction fs as [|f fs IH]; intros m Hne; simpl; [done|].
  rewrite IH.
  - unfold write_file. apply Store.js_set_lookup_ne. apply Hne. left.
  - intros f' Hf'. apply Hne. by right.
Qed.

Lemma foldl_write_file_last fs m p :
  Store.writable m p → p ∈ Codec.path <$> fs →
  ∃ f, f ∈ fs ∧ Codec.path f = p
       ∧ foldl write_file m fs !! p = Some (Codec.content f).
Proof.
  revert m. induction fs as [|d fs IH]; intros m Hw Hin.
  - by apply elem_of_nil in Hin.
  - simpl. destruct (decide (p ∈ Codec.path <$> fs)) as [Hex|Hno].
    + destruct (IH (write_file m d) (Store.writable_js_set _ _ _ _ Hw) Hex)
        as (f & ? & Hp & Hl).
      exists f. split; [by right|]. done.
    + assert (Codec.path d = p) as Hd.
      { rewrite fmap_cons in Hin.
        apply elem_of_cons in Hin as [->|Hin]; [done|contradiction]. }
      exists d. split; [left|]. split; [done|].
      rewrite foldl_write_file_other.
      * unfold write_file. rewrite Hd. by apply Store.js_set_lookup_eq.
      * intros f Hf Heq. apply Hno. rewrite <- Heq.
        by apply list_elem_of_fmap_2.
Qed.

Lemma foldl_write_file_unwritable fs m p :
  ¬ Store.writable m p → foldl write_file m fs !! p = None.
Proof.
  revert m. induction fs as [|d fs IH]; intros m Hw; simpl.
  - by apply Store.unwritable_lookup.
  - apply IH. by apply Store.unwritable_js_set.
Qed.

(** X15. Staging a response that has files and then applying the staged
    changes: every returned file is either applied or skipped; a path
    without a local edit that can be assigned (every path but
    [__proto__], and that one too when the store has a file of that
    name) ends up with the content of a returned file of that path,
    while [__proto__] on a store without such a file stays absent;
    locally edited paths keep their content; and the result does not
    depend on the file map the page rendered with (the [before] of a
    staged change is never consulted). *)
Theorem stage_apply cur parsed s :
  Codec.files parsed ≠ [] →
  let s1 := onResponse cur (Gen.Json parsed) s in
  let s' := (Store.applyStagedChanges s1).1 in
  let r := (Store.applyStagedChanges s1).2 in
  Store.stagedChanges s1 = stage cur (Codec.files parsed)
  ∧ Store.applied r + Store.skipped r = length (Codec.files parsed)
  ∧ (∀ f, f ∈ Codec.files parsed → Codec.path f ∉ Store.userEdits s →
       Store.writable (Store.files s) (Codec.path f) →
       ∃ f', f' ∈ Codec.files parsed ∧ Codec.path f' = Codec.path f
             ∧ Store.files s' !! Codec.path f = Some (Codec.content f'))
  ∧ (∀ p, ¬ Store.writable (Store.files s) p → Store.files s' !! p = None)
  ∧ (∀ p, p ∈ Store.userEdits s → Store.files s' !! p = Store.files s !! p)
  ∧ (∀ cur',
       Store.files
         (Store.applyStagedChanges (onResponse cur' (Gen.Json parsed) s)).1
       = Store.files s').
Proof.
  intros Hne s1 s' r.
  assert (∀ c, onResponse c (Gen.Json parsed) s
               = Store.setStagedChanges (stage c (Codec.files parsed)) s)
    as Hstage.
  { intros c. unfold onResponse, stage. rewrite length_fmap.
    destruct (Codec.files parsed); [done|]. done. }
  assert (∀ c, Store.files
                 (Store.applyStagedChanges
                    (onResponse c (Gen.Json parsed) s)).1
               = foldl write_file (Store.files s)
                   (List.filter (unedited (Store.userEdits s))
                      (Codec.files parsed))) as Hfiles.
  { intros c. rewrite Hstage.
    destruct (Store.foldl_apply_iter_counts
                (stage c (Codec.files parsed))
                {| Store.l_applied := 0; Store.l_skipped := 0;
                   Store.l_nextFiles := Store.files s;
                   Store.l_edits := Store.userEdits s |})
      as (_ & _ & Hf).
    cbn [Store.l_nextFiles Store.l_edits] in Hf.
    rewrite foldl_stage in Hf. exact Hf. }
  split; [by subst s1; rewrite Hstage|].
  split.
  { subst r s1. rewrite Hstage.
    destruct (Store.foldl_apply_iter_counts
                (stage cur (Codec.files parsed))
                {| Store.l_applied := 0; Store.l_skipped := 0;
                   Store.l_nextFiles := Store.files s;
                   Store.l_edits := Store.userEdits s |})
      as (Ha & Hs & _).
    cbn [Store.l_applied Store.l_skipped Store.l_edits] in Ha, Hs.
    cbn [Store.applyStagedChanges snd Store.applied Store.skipped].
    unfold Store.apply_loop.
    cbn [Store.setStagedChanges Store.files Store.userEdits
         Store.stagedChanges].
    rewrite Ha, Hs. cbn [Nat.add].
    assert (length (Codec.files parsed)
            = length (stage cur (Codec.files parsed))) as ->
      by (unfold stage; by rewrite length_fmap).
    generalize (stage cur (Codec.files parsed)). clear.
    induction l as [|c cs IH]; simpl; [done|].
    destruct (Store.conflicting (Store.userEdits s) c); simpl; lia. }
  split.
  { intros f Hf Hout Hw. subst s' s1. rewrite Hfiles.
    destruct (foldl_write_file_last
                (List.filter (unedited (Store.userEdits s))
                   (Codec.files parsed))
                (Store.files s) (Codec.path f) Hw) as (f' & Hf' & Hp & Hl).
    { apply list_elem_of_fmap_2, Store.elem_of_filter_bool.
      split; [done|]. unfold unedited.
      by rewrite bool_decide_eq_false_2. }
    apply Store.elem_of_filter_bool in Hf' as [Hf' _].
    by exists f'. }
  split.
  { intros p Hw. subst s' s1. rewrite Hfiles.
    by apply foldl_write_file_unwritable. }
  split.
  { intros p Hp. subst s' s1. rewrite Hfiles.
    apply foldl_write_file_other.
    intros f Hf Heq; subst p.
    apply Store.elem_of_filter_bool in Hf as [_ Hf].
    unfold unedited in Hf. by rewrite bool_decide_eq_true_2 in Hf. }
  intros cur'. subst s' s1. by rewrite !Hfiles.
Qed.

Definition page_store : Store.FilesState :=
  {| Store.files := {[ "a.jsx" := "old" ]}; Store.userEdits := ∅;
     Store.openTabs := []; Store.activePath := None;
     Store.stagedChanges := [] |}.

Lemma stage_apply_witness :
  let s1 := onResponse ∅ (Gen.Json page_response) page_store in
  let s' := (Store.applyStagedChanges s1).1 in
  let r := (Store.applyStagedChanges s1).2 in
  Store.stagedChanges s1 = stage ∅ (Codec.files page_response)
  ∧ Store.applied r + Store.skipped r = length (Codec.files page_response)
  ∧ (∀ f, f ∈ Codec.files page_response →
       Codec.path f ∉ Store.userEdits page_store →
       Store.writable (Store.files page_store) (Codec.path f) →
       ∃ f', f' ∈ Codec.files page_response ∧ Codec.path f' = Codec.path f
             ∧ Store.files s' !! Codec.path f = Some (Codec.content f'))
  ∧ (∀ p, ¬ Store.writable (Store.files page_store) p →
       Store.files s' !! p = None)
  ∧ (∀ p, p ∈ Store.userEdits page_store →
       Store.files s' !! p = Store.files page_store !! p)
  ∧ (∀ cur',
       Store.files
         (Store.applyStagedChanges
            (onResponse cur' (Gen.Json page_response) page_store)).1
       = Store.files s').
Proof.
  apply (stage_apply ∅ page_response page_store). discriminate.
Defined.

End GenPage.


(** ** The integration route (/api/integrate) *)

Module Integrate.
Import Text.

(** *** The cost monitor *)

Definition limit : nat := 1000.

(** [trackCall]: one more call on the module-wide counter. *)
Definition trackCall (apiCalls : nat) : nat := S apiCalls.

(** [checkLimit]: false once the counter has reached the limit. *)
Definition checkLimit (apiCalls : nat) : bool := negb (limit <=? apiCalls).

(** *** Service detection *)

Record ServiceIntegration := {
  package : string;
  authFlow : option string;
  testFramework : option string;
  description : string
}.

Definition stripe_integration : ServiceIntegration :=
  {| package := "react-stripe-js"; authFlow := Some "stripe-checkout";
     testFramework := Some "vitest";
     description := "Stripe payment integration with checkout flow" |}.

(** [Object.entries(SERVICE_MAP)], in insertion order. *)
Definition SERVICE_MAP : list (string * ServiceIntegration) :=
  [ ("stripe", stripe_integration);
    ("auth0",
     {| package := "@auth0/auth0-react"; authFlow := Some "auth0-spa";
        testFramework := Some "vitest";
        description := "Auth0 authentication integration" |});
    ("firebase",
     {| package := "firebase"; authFlow := Some "firebase-auth";
        testFramework := Some "vitest";
        description := "Firebase integration with authentication" |});
    ("sendgrid",
     {| package := "@sendgrid/mail"; authFlow := Some "api-key";
        testFramework := Some "vitest";
        description := "SendGrid email service integration" |});
    ("twilio",
     {| package := "twilio"; authFlow := Some "api-key";
        testFramework := Some "vitest";
        description := "Twilio SMS/voice integration" |}) ].

Record Intent := {
  service : option string;
  integration : option ServiceIntegration;
  needsAuth : bool;
  needsTests : bool
}.

(** The [for ... of Object.entries(SERVICE_MAP)] loop: the first service
    whose name the lower-cased prompt includes. *)
Fixpoint scan_services (lower : string)
         (entries : list (string * ServiceIntegration)) : option Intent :=
  match entries with
  | [] => None
  | (serviceName, integ) :: rest =>
      if includes lower serviceName then
        Some {| service := Some serviceName;
                integration := Some integ;
                needsAuth := includes lower "auth" || includes lower "login"
                             || includes lower "sign";
                needsTests := negb (includes lower "no test")
                              && negb (includes lower "skip test") |}
      else scan_services lower rest
  end.

Definition parseIntegrationIntent (prompt : string) : Intent :=
  let lower := toLowerCase prompt in
  match scan_services lower SERVICE_MAP with
  | Some intent => intent
  | None =>
      if includes lower "payment" || includes lower "checkout"
         || includes lower "stripe"
      then {| service := Some "stripe";
              integration := Some stripe_integration;
              needsAuth := false; needsTests := true |}
      else {| service := None; integration := None;
              needsAuth := false; needsTests := true |}
  end.

(** [isFigmaUrl] *)
Definition isFigmaUrl (url : string) : bool :=
  includes url "figma.com" || includes url "figma.io".

(** *** The parser of the route *)

Record FileItem := { path : string; content : string }.

Record Generated := {
  files : list FileItem;
  explanation : string;
  tests : string
}.

(** The [while ((match = fileRegex.exec(raw)) !== null)] loop; the
    pattern is the one of /api/gen. *)
Fixpoint file_items (fuel : nat) (s : string) : list FileItem :=
  match fuel with
  | 0 => []
  | S fuel' =>
      match Codec.exec_file s with
      | Some (p, body, rest) =>
          {| path := p; content := trim body |} :: file_items fuel' rest
      | None => []
      end
  end.

(** [parseOutput(raw, modelUsed)]; the second argument is not used. *)
Definition parseOutput (raw : string) (modelUsed : Codec.Model) : Generated :=
  {| files := file_items (String.length raw) raw;
     explanation :=
       trim (default EmptyString
               (Codec.capture_tag "<explanation>" "</explanation>" raw));
     tests :=
       trim (default EmptyString
               (Codec.capture_tag "<tests>" "</tests>" raw)) |}.

Example parseOutput_ex :
  parseOutput Codec.demo_raw Codec.grok
  = {| files := [ {| path := "a.jsx"; content := "X" |} ];
       explanation := "E"; tests := "T" |}.
Proof. reflexivity. Qed.

Example parseIntegrationIntent_ex :
  parseIntegrationIntent "Add Twilio SMS login, skip tests"
  = {| service := Some "twilio";
       integration :=
         Some {| package := "twilio"; authFlow := Some "api-key";
                 testFramework := Some "vitest";
                 description := "Twilio SMS/voice integration" |};
       needsAuth := true; needsTests := false |}.
Proof. reflexivity. Qed.

(** *** The parser against the one of /api/gen *)

Definition item_of (f : Codec.FileOut) : FileItem :=
  {| path := Codec.path f; content := Codec.content f |}.

Lemma file_items_blocks fuel s mu :
  file_items fuel s = item_of <$> Codec.file_blocks fuel s mu.
Proof.
  revert s. induction fuel as [|fuel IH]; intros s; [done|].
  cbn [file_items Codec.file_blocks].
  destruct (Codec.exec_file s) as [[[p body] rest]|]; [|done].
  rewrite fmap_cons, IH. done.
Qed.

(** X16. The route's parser finds the same blocks, explanation and tests as
    the parser of /api/gen, but it has no prose fallback: it returns no
    file exactly when the text has no well-formed block, whereas the
    other parser then wraps any non-blank text as one file. *)
Theorem parseOutput_no_fallback raw mu :
  let here := parseOutput raw mu in
  let there := Codec.parseOutputToJson raw mu in
  explanation here = Codec.explanation there
  ∧ tests here = Codec.tests there
  ∧ (files here = [] ↔ ¬ Codec.well_formed_block raw)
  ∧ (files here ≠ [] → files here = item_of <$> Codec.files there)
  ∧ (files here = [] → trim raw ≠ EmptyString →
     Codec.files there
     = [ {| Codec.path := "src/App.jsx"; Codec.content := trim raw;
            Codec.diff := false; Codec.modelUsed := mu |} ]).
Proof.
  intros here there. subst here there.
  unfold parseOutput, Codec.parseOutputToJson.
  cbn [files explanation tests Codec.files Codec.explanation Codec.tests].
  rewrite (file_items_blocks _ raw mu).
  split; [done|]. split; [done|]. split; [|split].
  - rewrite <- Codec.exec_file_None_iff.
    destruct raw as [|c raw].
    { split; [by intros _|done]. }
    cbn [String.length Codec.file_blocks].
    destruct (Codec.exec_file (String c raw)) as [[[p body] rest]|];
      split; done.
  - destruct (Codec.file_blocks _ raw mu) as [|f fs]; [done|]. done.
  - destruct (Codec.file_blocks _ raw mu) as [|f fs]; [|done].
    intros _ Htrim. cbn [length Nat.eqb andb].
    by rewrite (Codec.length_pos_ne _ Htrim).
Qed.

(** *** Which service a prompt selects *)

Lemma includes_longer s w post :
  includes s (w +:+ post) = true → includes s w = true.
Proof.
  rewrite !includes_spec. intros (pre & post' & ->).
  exists pre, (post +:+ post'). by rewrite !sapp_assoc.
Qed.

(** The keywords the detection looks for. *)
Definition keywords : list string :=
  [ "stripe"; "auth0"; "firebase"; "sendgrid"; "twilio";
    "payment"; "checkout" ].

(** X17. A prompt selects no service exactly when it mentions none of the
    seven keywords; a selected service always comes with its own entry of
    the service table; [stripe] wins over every other service mentioned;
    and a prompt naming [auth0] always asks for authentication, since the
    name itself contains [auth]. *)
Theorem parseIntegrationIntent_service prompt :
  let lower := toLowerCase prompt in
  let intent := parseIntegrationIntent prompt in
  (service intent = None ↔ integration intent = None)
  ∧ (service intent = None ↔ ∀ w, w ∈ keywords → includes lower w = false)
  ∧ (∀ name integ,
       service intent = Some name → integration intent = Some integ →
       (name, integ) ∈ SERVICE_MAP)
  ∧ (includes lower "stripe" = true → service intent = Some "stripe")
  ∧ (includes lower "auth0" = true → needsAuth intent = true).
Proof.
  intros lower intent. subst intent. unfold parseIntegrationIntent.
  fold lower. unfold keywords.
  assert (includes lower "auth0" = true → includes lower "auth" = true)
    as Hauth by apply (includes_longer lower "auth" "0").
  cbn [scan_services SERVICE_MAP].
  destruct (includes lower "stripe") eqn:H1.
  { cbn [service integration needsAuth]. repeat split; try done.
    - intros H. specialize (H "stripe"). rewrite H1 in H.
      discriminate H. left.
    - intros name integ [= <-] [= <-]. left.
    - intros H. by rewrite (Hauth H). }
  destruct (includes lower "auth0") eqn:H2.
  { cbn [service integration needsAuth]. rewrite (Hauth eq_refl).
    repeat split; try done.
    - intros H. specialize (H "auth0"). rewrite H2 in H.
      discriminate H. right; left.
    - intros name integ [= <-] [= <-]. right; left. }
  destruct (includes lower "firebase") eqn:H3.
  { cbn [service integration needsAuth]. repeat split; try done.
    - intros H. specialize (H "firebase"). rewrite H3 in H.
      discriminate H. do 2 right; left.
    - intros name integ [= <-] [= <-]. do 2 right; left. }
  destruct (includes lower "sendgrid") eqn:H4.
  { cbn [service integration needsAuth]. repeat split; try done.
    - intros H. specialize (H "sendgrid"). rewrite H4 in H.
      discriminate H. do 3 right; left.
    - intros name integ [= <-] [= <-]. do 3 right; left. }
  destruct (includes lower "twilio") eqn:H5.
  { cbn [service integration needsAuth]. repeat split; try done.
    - intros H. specialize (H "twilio"). rewrite H5 in H.
      discriminate H. do 4 right; left.
    - intros name integ [= <-] [= <-]. do 4 right; left. }
  rewrite orb_false_r.
  destruct (includes lower "payment") eqn:H6.
  { cbn [orb service integration needsAuth]. repeat split; try done.
    - intros H. specialize (H "payment"). rewrite H6 in H.
      discriminate H. do 5 right; left.
    - intros name integ [= <-] [= <-]. left. }
  destruct (includes lower "checkout") eqn:H7.
  { cbn [orb service integration needsAuth]. repeat split; try done.
    - intros H. specialize (H "checkout"). rewrite H7 in H.
      discriminate H. do 6 right; left.
    - intros name integ [= <-] [= <-]. left. }
  cbn [orb service integration needsAuth]. repeat split; try done.
  intros _ w Hw. repeat (apply elem_of_cons in Hw as [->|Hw]; [done|]).
  by apply elem_of_nil in Hw.
Qed.

(** X18. A prompt that mentions payment or checkout but names no service is
    routed to [stripe] with authentication off and tests on, whatever it
    says about logins or about skipping tests. *)
Theorem parseIntegrationIntent_generic prompt :
  let lower := toLowerCase prompt in
  (∀ name, name ∈ SERVICE_MAP.*1 → includes lower name = false) →
  includes lower "payment" = true ∨ includes lower "checkout" = true →
  parseIntegrationIntent prompt
  = {| service := Some "stripe"; integration := Some stripe_integration;
       needsAuth := false; needsTests := true |}.
Proof.
  intros lower Hnone Hpay. unfold parseIntegrationIntent. fold lower.
  cbn [scan_services SERVICE_MAP].
  rewrite !Hnone by (cbn; repeat first [left; done | right]).
  rewrite orb_false_r.
  by destruct Hpay as [-> | ->]; [|rewrite orb_true_r].
Qed.

Lemma parseIntegrationIntent_generic_witness :
  parseIntegrationIntent "Add a checkout page with login, skip tests"
  = {| service := Some "stripe"; integration := Some stripe_integration;
       needsAuth := false; needsTests := true |}.
Proof.
  apply (parseIntegrationIntent_generic
           "Add a checkout page with login, skip tests").
  - intros name Hname.
    repeat (apply elem_of_cons in Hname as [->|Hname]; [reflexivity|]).
    by apply elem_of_nil in Hname.
  - right. reflexivity.
Defined.

(** *** The chained generator *)

Inductive GrokOutcome :=
  | GrokText (text : string)
  | GrokRateLimit
  | GrokError (message : string).

(** What [dualRouterGenerate] does: it returns a result or throws. *)
Inductive Result :=
  | Ok (result : Generated)
  | Throw (message : string).

Definition grokSystem (keys : list string) : string :=
  "You are an expert React developer. Generate integration code for third-party services."
  +:+ String nl ("Current files in project:"
  +:+ String nl (join_nl ((λ p, "- " +:+ p) <$> keys)
  +:+ String nl (String nl ("Output format:"
  +:+ String nl (Codec.file_open +:+ "..." +:+ Codec.file_open_end
                 +:+ "FULL FILE CONTENT</file>"
  +:+ String nl ("<explanation>Brief explanation</explanation>"
  +:+ String nl "<tests>Vitest test suite</tests>")))))).

Definition grokUser (prompt : string) : string :=
  "USER REQUEST:" +:+ String nl (prompt +:+ String nl (String nl
    "Generate the integration code with proper setup, configuration, and tests.")).

Definition grokPrompt (prompt : string) (keys : list string) : string :=
  "SYSTEM:" +:+ String nl (grokSystem keys
  +:+ String nl (String nl (grokUser prompt))).

Definition claudeUser (grokText prompt : string) : string :=
  "The following is an initial integration scaffold produced by Grok. Refine, harden, and correct any issues, then output final <file>, <explanation>, and <tests> tags."
  +:+ String nl (String nl ("INITIAL SCAFFOLD:"
  +:+ String nl (grokText
  +:+ String nl (String nl ("ORIGINAL REQUEST:"
  +:+ String nl prompt))))).

Section Router.
(** The two model calls: the streamed fast call, collected, and the
    refine call.  [keys] below stands for [Object.keys(files)]. *)
Variable callGrok : string → string → GrokOutcome.
Variable generateText : string → string → string → Gen.Outcome.
Variable ANTHROPIC_SONNET_MODEL : option string.

(** [dualRouterGenerate(prompt, files)] on the call counter [apiCalls]:
    what it returns or throws, and the counter afterwards. *)
Definition dualRouterGenerate (prompt : string) (keys : list string)
           (apiCalls : nat) : Result * nat :=
  let apiCalls := trackCall apiCalls in
  if negb (checkLimit apiCalls) then
    (Throw "API call limit exceeded", apiCalls)
  else
    match callGrok "grok-4" (grokPrompt prompt keys) with
    | GrokRateLimit =>
        (Throw "Grok rate limit exceeded. Please try again later.",
         apiCalls)
    | GrokError e => (Throw e, apiCalls)
    | GrokText grokText =>
        let apiCalls := trackCall apiCalls in
        if negb (checkLimit apiCalls) then
          (Ok (parseOutput grokText Codec.grok), apiCalls)
        else
          match generateText (Gen.modelName ANTHROPIC_SONNET_MODEL)
                             (grokSystem keys)
                             (claudeUser grokText prompt) with
          | Gen.Thrown _ => (Ok (parseOutput grokText Codec.grok), apiCalls)
          | Gen.Returned finalText =>
              let parsedClaude := parseOutput finalText Codec.claude in
              if 0 <? length (files parsedClaude)
              then (Ok parsedClaude, apiCalls)
              else (Ok (parseOutput grokText Codec.grok), apiCalls)
          end
    end.

(** Requests served one after the other on the same counter. *)
Fixpoint serve (requests : list (string * list string)) (apiCalls : nat)
  : list Result * nat :=
  match requests with
  | [] => ([], apiCalls)
  | (prompt, keys) :: rest =>
      let '(r, apiCalls) := dualRouterGenerate prompt keys apiCalls in
      let '(rs, apiCalls) := serve rest apiCalls in
      (r :: rs, apiCalls)
  end.

Lemma parseOutput_files_iff raw mu :
  (0 <? length (files (parseOutput raw mu))) = true
  ↔ Codec.well_formed_block raw.
Proof.
  unfold parseOutput. cbn [files]. split.
  - intros Hfiles.
    destruct (Codec.exec_file raw) as [[[p body] rest]|] eqn:He.
    + apply Codec.exec_file_sound in He as (pre & Hpre & Hb).
      apply Codec.well_formed_block_iff. exists pre, p, body, rest.
      split; [done|]. rewrite Hpre. apply prefix_app_true.
    + destruct (String.length raw); cbn [file_items] in Hfiles;
        [done|]. by rewrite He in Hfiles.
  - intros Hb. apply Codec.well_formed_block_iff in Hb.
    pose proof (Codec.file_blocks_cons raw mu Hb) as Hne.
    rewrite (file_items_blocks _ raw mu).
    by destruct (Codec.file_blocks _ raw mu).
Qed.

(** The result [dualRouterGenerate] gives once the fast call returned
    [grokText]: the parsed refine text when the refine call was within
    the limit, returned, and its text has a well-formed block; the parsed
    fast text otherwise. *)
Definition degraded (refined : bool) (refine : Gen.Outcome)
           (grokText : string) : Generated :=
  match refined, refine with
  | true, Gen.Returned finalText =>
      if 0 <? length (files (parseOutput finalText Codec.claude))
      then parseOutput finalText Codec.claude
      else parseOutput grokText Codec.grok
  | _, _ => parseOutput grokText Codec.grok
  end.

(** X19. Once the fast call has returned within the call limit, the
    generator cannot fail and both calls are counted.  Its result is
    the parsed refine text exactly when the refine call was made within
    the limit, returned, and its text has a well-formed block; in every
    other case - the refine call refused by the limit, or throwing, or
    returning a text without a well-formed block - it is the parsed fast
    text. *)
Theorem dualRouterGenerate_degrades prompt keys apiCalls grokText :
  S apiCalls < limit →
  callGrok "grok-4" (grokPrompt prompt keys) = GrokText grokText →
  let refine :=
    generateText (Gen.modelName ANTHROPIC_SONNET_MODEL)
                 (grokSystem keys) (claudeUser grokText prompt) in
  ∃ result,
    dualRouterGenerate prompt keys apiCalls = (Ok result, S (S apiCalls))
    ∧ (∀ finalText,
         S (S apiCalls) < limit → refine = Gen.Returned finalText →
         Codec.well_formed_block finalText →
         result = parseOutput finalText Codec.claude)
    ∧ (limit ≤ S (S apiCalls) → result = parseOutput grokText Codec.grok)
    ∧ (∀ e, refine = Gen.Thrown e →
            result = parseOutput grokText Codec.grok)
    ∧ (∀ finalText,
         refine = Gen.Returned finalText →
         ¬ Codec.well_formed_block finalText →
         result = parseOutput grokText Codec.grok).
Proof.
  intros Hlimit Hgrok refine.
  exists (degraded (S (S apiCalls) <? limit) refine grokText).
  split.
  - unfold dualRouterGenerate, trackCall, checkLimit, degraded.
    rewrite negb_involutive.
    destruct (limit <=? S apiCalls) eqn:H1; [apply Nat.leb_le in H1; lia|].
    rewrite Hgrok, negb_involutive. fold refine.
    destruct (limit <=? S (S apiCalls)) eqn:H2.
    + apply Nat.leb_le in H2.
      by rewrite (proj2 (Nat.ltb_ge _ _)) by lia.
    + apply Nat.leb_gt in H2. rewrite (proj2 (Nat.ltb_lt _ _)) by lia.
      destruct refine as [finalText|e]; [|done].
      by destruct (0 <? length _).
  - unfold degraded. split; [|split; [|split]].
    + intros finalText Hlt -> Hb.
      rewrite (proj2 (Nat.ltb_lt _ _)) by lia.
      by rewrite (proj2 (parseOutput_files_iff finalText Codec.claude) Hb).
    + intros Hge. by rewrite (proj2 (Nat.ltb_ge _ _)) by lia.
    + intros e ->. by destruct (_ <? limit).
    + intros finalText -> Hno. destruct (_ <? limit); [|done].
      destruct (0 <? length _) eqn:Hfiles; [|done].
      by apply parseOutput_files_iff in Hfiles.
Qed.

(** X20. The call limit is never reset and refused calls are counted too:
    from the moment the counter is one short of the limit, every request
    throws the limit error without any model being called. *)
Theorem serve_limit_sticks requests apiCalls :
  limit - 1 ≤ apiCalls →
  serve requests apiCalls
  = (replicate (length requests) (Throw "API call limit exceeded"),
     apiCalls + length requests).
Proof.
  revert apiCalls.
  induction requests as [|[prompt keys] rest IH]; intros apiCalls Hle.
  - cbn [serve length replicate]. by rewrite Nat.add_0_r.
  - cbn [serve length replicate].
    unfold dualRouterGenerate at 1, trackCall, checkLimit.
    rewrite negb_involutive.
    destruct (limit <=? S apiCalls) eqn:H1;
      [|apply Nat.leb_gt in H1; unfold limit in *; lia].
    rewrite IH by lia. f_equal. lia.
Qed.

End Router.

Definition demo_callGrok (model prompt : string) : GrokOutcome :=
  GrokText Codec.demo_raw.

Definition demo_generateText (model system user : string) : Gen.Outcome :=
  Gen.Thrown "overloaded".

Definition demo_refined (model system user : string) : Gen.Outcome :=
  Gen.Returned (Codec.file_open +:+ "b.jsx" +:+ Codec.file_open_end
                +:+ "Y" +:+ Codec.file_close).

Lemma dualRouterGenerate_degrades_witness :
  let refine :=
    demo_refined (Gen.modelName None) (grokSystem ["src/App.jsx"])
                 (claudeUser Codec.demo_raw "Add Stripe") in
  ∃ result,
    dualRouterGenerate demo_callGrok demo_refined None
      "Add Stripe" ["src/App.jsx"] 0 = (Ok result, 2)
    ∧ (∀ finalText,
         2 < limit → refine = Gen.Returned finalText →
         Codec.well_formed_block finalText →
         result = parseOutput finalText Codec.claude)
    ∧ (limit ≤ 2 → result = parseOutput Codec.demo_raw Codec.grok)
    ∧ (∀ e, refine = Gen.Thrown e →
            result = parseOutput Codec.demo_raw Codec.grok)
    ∧ (∀ finalText,
         refine = Gen.Returned finalText →
         ¬ Codec.well_formed_block finalText →
         result = parseOutput Codec.demo_raw Codec.grok).
Proof.
  apply (dualRouterGenerate_degrades demo_callGrok demo_refined None
           "Add Stripe" ["src/App.jsx"] 0 Codec.demo_raw).
  - unfold limit. lia.
  - reflexivity.
Defined.

Example dualRouterGenerate_ex :
  dualRouterGenerate demo_callGrok demo_refined None
    "Add Stripe" ["src/App.jsx"] 0
  = (Ok {| files := [ {| path := "b.jsx"; content := "Y" |} ];
           explanation := EmptyString; tests := EmptyString |}, 2)
  ∧ dualRouterGenerate demo_callGrok demo_generateText None
      "Add Stripe" ["src/App.jsx"] 0
    = (Ok {| files := [ {| path := "a.jsx"; content := "X" |} ];
             explanation := "E"; tests := "T" |}, 2)
  ∧ dualRouterGenerate demo_callGrok demo_refined None
      "Add Stripe" ["src/App.jsx"] 998
    = (Ok {| files := [ {| path := "a.jsx"; content := "X" |} ];
             explanation := "E"; tests := "T" |}, 1000).
Proof. repeat split. Qed.

Lemma serve_limit_sticks_witness :
  serve demo_callGrok demo_generateText None
        [("Add Stripe", []); ("Add Twilio", [])] 999
  = ([Throw "API call limit exceeded"; Throw "API call limit exceeded"],
     1001).
Proof.
  apply (serve_limit_sticks demo_callGrok demo_generateText None
           [("Add Stripe", []); ("Add Twilio", [])] 999).
  unfold limit. lia.
Defined.

(** *** From the response to the staged changes *)

Definition info_path : string := "INTEGRATION_INFO.md".

(** The file [POST] puts in front of the generated ones when a service
    was detected. *)
Definition info_file (intent : Intent) (integ : ServiceIntegration)
  : FileItem :=
  {| path := info_path;
     content :=
       join_nl
         [ "# " +:+ default "null" (service intent) +:+ " Integration";
           EmptyString;
           "Package: `" +:+ package integ +:+ "`";
           "Description: " +:+ description integ;
           EmptyString;
           "## Installation";
           "```bash";
           "npm install " +:+ package integ;
           "```";
           EmptyString;
           "## Configuration";
           "See generated files for setup instructions.";
           EmptyString ] |}.

(** [result.files] after [if (intent.integration) result.files.unshift] *)
Definition with_info (intent : Intent) (result : Generated)
  : list FileItem :=
  match integration intent with
  | Some integ => info_file intent integ :: files result
  | None => files result
  end.

(** The staging of [handleIntegrate] in the editor, with [currentFiles]
    the file map of the store. *)
Definition integrate_stage (currentFiles : gmap string string)
           (data_files : list FileItem) : list Store.StagedChange :=
  (λ f, {| Store.path := path f;
           Store.before := default EmptyString (currentFiles !! path f);
           Store.after := content f;
           Store.modelUsed := Some Store.grok |})
    <$> List.filter (λ f, negb (String.eqb (path f) info_path)) data_files.

Definition handleIntegrate (data_files : list FileItem)
           (s : Store.FilesState) : Store.FilesState :=
  let staged := integrate_stage (Store.files s) data_files in
  if 0 <? length staged then Store.setStagedChanges staged s else s.

(** The information file of the route is never staged, and neither is a
    generated file of that very name; every staged change carries a
    generated file and is tagged with the fast model, also when the
    refine model wrote it. *)
Theorem integrate_stage_info intent result cur :
  integrate_stage cur (with_info intent result)
  = integrate_stage cur (files result)
  ∧ ∀ c, c ∈ integrate_stage cur (with_info intent result) →
      Store.path c ≠ info_path
      ∧ Store.modelUsed c = Some Store.grok
      ∧ ∃ f, f ∈ files result ∧ path f = Store.path c
             ∧ content f = Store.after c.
Proof.
  assert (integrate_stage cur (with_info intent result)
          = integrate_stage cur (files result)) as Heq.
  { unfold with_info. destruct (integration intent) as [integ|]; [|done].
    unfold integrate_stage. cbn [List.filter info_file path].
    by rewrite String.eqb_refl. }
  split; [done|]. rewrite Heq. unfold integrate_stage.
  intros c (f & -> & Hf)%list_elem_of_fmap.
  apply Store.elem_of_filter_bool in Hf as [Hf Hne].
  cbn [Store.path Store.modelUsed Store.after].
  split; [|split; [done|by exists f]].
  intros Hp. rewrite Hp, String.eqb_refl in Hne. done.
Qed.

End Integrate.


(** ** Files written as tagged blocks and read back *)

Module Blocks.
Import Text Codec.

(** [Object.entries(files).map(...).join] of the hardening route: every
    file as an opening tag with its path, a line break, the content, a
    line break and the closing tag; the blocks separated by line
    breaks. *)
Definition file_entry (e : string * string) : string :=
  file_open +:+ e.1 +:+ file_open_end
  +:+ String nl (e.2 +:+ String nl file_close).

Definition filesContext (entries : list (string * string)) : string :=
  join_nl (file_entry <$> entries).

(** *** Texts wrapped in line breaks *)

Lemma includes_snoc s a x n :
  occurs a (String x n) = false →
  includes (s +:+ String a EmptyString) (String x n)
  = includes s (String x n).
Proof.
  intros Ho. induction s as [|c s IH].
  - cbn [String.append includes String.prefix].
    cbn [occurs] in Ho. apply orb_false_iff in Ho as [Hx _].
    destruct (ascii_dec x a) as [->|]; [|done].
    by rewrite Ascii.eqb_refl in Hx.
  - change (String c s +:+ String a EmptyString)
      with (String c (s +:+ String a EmptyString)).
    cbn [includes]. rewrite IH. f_equal.
    destruct (String.prefix (String x n) (String c s)) eqn:Hp.
    + apply (prefix_extend _ _ (String a EmptyString)) in Hp. exact Hp.
    + destruct (String.prefix (String x n)
                  (String c (s +:+ String a EmptyString))) eqn:Hp'; [|done].
      change (String c (s +:+ String a EmptyString))
        with (String c s +:+ String a EmptyString) in Hp'.
      apply prefix_cut in Hp'; [congruence|done].
Qed.

(** *** Trimming a text wrapped in line breaks *)

Lemma trimEnd_snoc s : trimEnd (s +:+ String nl EmptyString) = trimEnd s.
Proof.
  induction s as [|c s IH]; [reflexivity|].
  change (String c s +:+ String nl EmptyString)
    with (String c (s +:+ String nl EmptyString)).
  cbn [trimEnd]. by rewrite IH.
Qed.

Lemma trimStart_snoc s :
  trimStart (s +:+ String nl EmptyString)
  = match trimStart s with
    | EmptyString => EmptyString
    | t => t +:+ String nl EmptyString
    end.
Proof.
  induction s as [|c s IH]; [reflexivity|].
  change (String c s +:+ String nl EmptyString)
    with (String c (s +:+ String nl EmptyString)).
  cbn [trimStart]. destruct (is_ws c); [exact IH|done].
Qed.

Lemma trim_wrapped s :
  trim (String nl (s +:+ String nl EmptyString)) = trim s.
Proof.
  unfold trim. change (trimStart (String nl ?x)) with (trimStart x).
  rewrite trimStart_snoc. destruct (trimStart s) as [|c t]; [done|].
  apply trimEnd_snoc.
Qed.

(** *** Reading the blocks back *)

Lemma match_file_here_block p body rest :
  p ≠ EmptyString → has_quote p = false →
  includes body file_close = false →
  match_file_here
    (file_open +:+ p +:+ file_open_end +:+ body +:+ file_close +:+ rest)
  = Some (p, body, rest).
Proof.
  intros Hp Hq Hbody. unfold match_file_here.
  rewrite prefix_app_true, sdrop_app.
  change (file_open_end +:+ body +:+ file_close +:+ rest)
    with (String dquote (">" +:+ body +:+ file_close +:+ rest)).
  rewrite span_nonquote_app by done.
  destruct p as [|c p]; [done|].
  change (String dquote (">" +:+ body +:+ file_close +:+ rest))
    with (file_open_end +:+ body +:+ file_close +:+ rest).
  rewrite prefix_app_true, sdrop_app.
  unfold file_close in *. by rewrite find_sub_exact.
Qed.

Lemma exec_file_here s r : match_file_here s = Some r → exec_file s = Some r.
Proof. intros H. destruct s; cbn [exec_file]; by rewrite H. Qed.

Lemma exec_file_skip_nl s : exec_file (String nl s) = exec_file s.
Proof. reflexivity. Qed.

Lemma file_blocks_skip_nl fuel s mu :
  file_blocks fuel (String nl s) mu = file_blocks fuel s mu.
Proof. destruct fuel; [done|]. cbn [file_blocks]. by rewrite exec_file_skip_nl. Qed.

Lemma file_entry_shape p c tail :
  file_entry (p, c) +:+ tail
  = file_open +:+ p +:+ file_open_end
    +:+ String nl (c +:+ String nl EmptyString) +:+ file_close +:+ tail.
Proof.
  unfold file_entry. cbn [fst snd]. rewrite !sapp_assoc. do 3 f_equal.
  cbn [String.append]. f_equal. rewrite !sapp_assoc. done.
Qed.

Lemma includes_wrapped c :
  includes c file_close = false →
  includes (String nl (c +:+ String nl EmptyString)) file_close = false.
Proof.
  intros Hc. cbn [includes]. unfold file_close in *.
  rewrite includes_snoc by reflexivity. by rewrite Hc.
Qed.

Definition entry_ok (e : string * string) : Prop :=
  e.1 ≠ EmptyString ∧ has_quote e.1 = false
  ∧ includes e.2 file_close = false.

Definition file_of (mu : Model) (e : string * string) : FileOut :=
  {| path := e.1; content := trim e.2; diff := false; modelUsed := mu |}.

Lemma filesContext_cons e entries :
  filesContext (e :: entries)
  = file_entry e +:+ match entries with
                     | [] => EmptyString
                     | _ => String nl (filesContext entries)
                     end.
Proof.
  unfold filesContext. destruct entries as [|e' entries].
  - cbn [fmap list_fmap join_nl]. by rewrite sapp_empty_r.
  - reflexivity.
Qed.

Lemma file_blocks_filesContext entries mu fuel :
  Forall entry_ok entries →
  String.length (filesContext entries) ≤ fuel →
  file_blocks fuel (filesContext entries) mu = file_of mu <$> entries.
Proof.
  intros Hok. revert fuel.
  induction Hok as [|[p c] entries (Hp & Hq & Hc) Hok IH]; intros fuel Hfuel.
  - by destruct fuel.
  - rewrite filesContext_cons in *. cbn [fst snd] in Hp, Hq, Hc.
    set (tail := match entries with
                 | [] => EmptyString
                 | _ => String nl (filesContext entries)
                 end) in *.
    rewrite file_entry_shape in *.
    destruct fuel as [|fuel].
    { rewrite !slength_app in Hfuel. cbn in Hfuel. lia. }
    cbn [file_blocks].
    rewrite (exec_file_here _ (p, String nl (c +:+ String nl EmptyString),
                               tail))
      by (apply match_file_here_block; [done|done|by apply includes_wrapped]).
    rewrite fmap_cons. unfold file_of at 1. cbn [fst snd].
    rewrite trim_wrapped. f_equal.
    assert (String.length tail ≤ fuel) as Htail.
    { rewrite !slength_app in Hfuel. cbn [String.length] in Hfuel.
      unfold file_open in Hfuel. cbn in Hfuel. lia. }
    subst tail. destruct entries as [|e entries].
    + by destruct fuel.
    + rewrite file_blocks_skip_nl. apply IH.
      cbn [String.length] in Htail. lia.
Qed.

(** X21. Files written out as tagged blocks are read back by the parser as
    exactly those files, in order, each content trimmed - provided every
    path is non-empty and has no double quote and no content contains a
    closing tag.  No fallback file appears, and nothing is read for an
    empty list. *)
Theorem parse_filesContext entries mu :
  Forall entry_ok entries →
  files (parseOutputToJson (filesContext entries) mu) = file_of mu <$> entries.
Proof.
  intros Hok. unfold parseOutputToJson. cbn [files].
  rewrite file_blocks_filesContext by done.
  destruct entries as [|e entries]; reflexivity.
Qed.

Lemma parse_filesContext_witness :
  files (parseOutputToJson
           (filesContext [("a.js", "let a = 1;"); ("b/c.txt", " x ")])
           claude)
  = file_of claude <$> [("a.js", "let a = 1;"); ("b/c.txt", " x ")].
Proof.
  apply (parse_filesContext [("a.js", "let a = 1;"); ("b/c.txt", " x ")]
           claude).
  repeat constructor; try discriminate.
Defined.

End Blocks.


(** ** The hardening route (/api/harden) *)

Module Harden.
Import Text Diff.

(** The literal pieces of [diffRegex]; the pattern has the shape of the
    file pattern of the generation route, with another tag. *)
Definition diff_open : string := "<diff path=" +:+ String dquote EmptyString.
Definition diff_open_end : string := String dquote ">".
Definition diff_close : string := "</diff>".

(** A match of the pattern at the first character of [s]: the path, the
    lazy body and the text after the match. *)
Definition match_diff_here (s : string)
  : option (string * string * string) :=
  if String.prefix diff_open s then
    let '(p, s2) :=
      Codec.span_nonquote (sdrop (String.length diff_open) s) in
    match p with
    | EmptyString => None
    | _ =>
        if String.prefix diff_open_end s2 then
          match find_sub diff_close
                         (sdrop (String.length diff_open_end) s2) with
          | Some (body, rest) => Some (p, body, rest)
          | None => None
          end
        else None
    end
  else None.

(** [diffRegex.exec]: the leftmost match. *)
Fixpoint exec_diff (s : string) : option (string * string * string) :=
  match match_diff_here s with
  | Some r => Some r
  | None =>
      match s with
      | EmptyString => None
      | String _ t => exec_diff t
      end
  end.

Record Change := { path : string; before : string; after : string }.

(** The [while ((m = diffRegex.exec(text)) !== null)] loop: a change is
    pushed only when applying the diff changed the base text.  [files] is
    the file map of the request. *)
Fixpoint changes (fuel : nat) (files : gmap string string) (text : string)
  : list Change :=
  match fuel with
  | 0 => []
  | S fuel' =>
      match exec_diff text with
      | Some (p, body, rest) =>
          let diffBody := trim body in
          let before := default EmptyString (files !! p) in
          let after := applyUnifiedDiff before diffBody in
          if String.eqb after before then changes fuel' files rest
          else {| path := p; before := before; after := after |}
               :: changes fuel' files rest
      | None => []
      end
  end.

Definition vibeRules (vibe : option string) : string :=
  if bool_decide (vibe = Some "enterprise") then
    "Enforce enterprise guardrails: security first, full documentation blocks, tests, feature flags."
  else if bool_decide (vibe = Some "scrappy") then
    "Allow minimal scaffolds but ensure critical prod hooks exist; keep changes focused."
  else if bool_decide (vibe = Some "a11y") then
    "Ensure accessibility best practices across changes, add notes on WCAG coverage."
  else "Apply reasonable production hardening.".

Definition system (vibe : option string) : string :=
  join_nl
    [ "You are a senior platform engineer performing production hardening on a JavaScript/TypeScript web app.";
      "Audit for production readiness and propose minimal, targeted diffs only.";
      "Add:";
      "- Sentry logging hooks";
      "- Snyk scan stubs (scripts/placeholders)";
      "- Performance budgets (Lighthouse/CI thresholds)";
      "- Feature flags (LaunchDarkly placeholders)";
      "- GitHub Actions YAML for CI/CD (build/test/lint & perf checks)";
      "Output only unified diffs, one per file, wrapped in " +:+ diff_open
        +:+ "..." +:+ diff_open_end +:+ " blocks. Do NOT output full files.";
      vibeRules vibe;
      "Rules:";
      "- Keep diffs minimal and precise";
      "- Include new files as diffs from empty";
      "- Do not include prose outside diff blocks" ].

Definition user (entries : list (string * string)) : string :=
  "Here are the current files:"
  +:+ String nl (Blocks.filesContext entries
  +:+ String nl (String nl "Return diffs only.")).

Record FileItem := { item_path : string; content : string }.

Inductive Response :=
  | Success (files : list FileItem)
  | Failure (status : nat) (error : string).

Section Handler.
Variable generateText : string → string → string → Gen.Outcome.
Variable ANTHROPIC_SONNET_MODEL : option string.

(** [POST]; [entries] is [Object.entries(files)] of the request (keys
    distinct), absent when the request has no [files] object. *)
Definition POST (entries : option (list (string * string)))
           (vibe : option string) : Response :=
  match entries with
  | None => Failure 400 "files object required"
  | Some entries =>
      let files : gmap string string := list_to_map entries in
      match generateText (Gen.modelName ANTHROPIC_SONNET_MODEL)
                         (system vibe) (user entries) with
      | Gen.Thrown e =>
          Failure 500 match e with
                      | EmptyString => "Internal Error"
                      | _ => e
                      end
      | Gen.Returned text =>
          Success ((λ c, {| item_path := path c; content := after c |})
                     <$> changes (String.length text) files text)
      end
  end.

End Handler.

Example POST_ex :
  POST (λ _ _ _, Gen.Returned
          (diff_open +:+ "a.txt" +:+ diff_open_end
           +:+ lines3 "@@ -1,3 +1,3 @@" " a" (lines3 "-b" "+B" " c")
           +:+ diff_close
           +:+ diff_open +:+ "b.txt" +:+ diff_open_end
           +:+ lines3 "@@" " nope" "+y" +:+ diff_close))
       None (Some [("a.txt", lines3 "a" "b" "c"); ("b.txt", "x")]) None
  = Success [ {| item_path := "a.txt"; content := lines3 "a" "B" "c" |} ].
Proof. reflexivity. Qed.

(** *** The scanner *)

Lemma match_diff_here_sound s p body rest :
  match_diff_here s = Some (p, body, rest) →
  s = diff_open +:+ p +:+ diff_open_end +:+ body +:+ diff_close +:+ rest.
Proof.
  unfold match_diff_here.
  destruct (String.prefix diff_open s) eqn:Hopen; [|done].
  apply prefix_app_sdrop in Hopen.
  destruct (Codec.span_nonquote _) as [p' s2] eqn:Hspan.
  apply Codec.span_nonquote_spec in Hspan as [Hs1 Hq].
  destruct p' as [|c p']; [done|].
  destruct (String.prefix diff_open_end s2) eqn:Hend; [|done].
  apply prefix_app_sdrop in Hend.
  destruct (find_sub diff_close _) as [[body' rest']|] eqn:Hfind; [|done].
  apply find_sub_Some in Hfind.
  intros [= <- <- <-].
  rewrite Hopen at 1. rewrite Hs1. rewrite Hend at 1. rewrite Hfind.
  by rewrite ?sapp_assoc.
Qed.

Lemma exec_diff_sound s p body rest :
  exec_diff s = Some (p, body, rest) →
  ∃ pre, s = pre +:+ diff_open +:+ p +:+ diff_open_end
               +:+ body +:+ diff_close +:+ rest.
Proof.
  induction s as [|c s IH]; cbn [exec_diff].
  - destruct (match_diff_here EmptyString) as [r|] eqn:Hm; [|done].
    intros [= ->]. exists EmptyString. by apply match_diff_here_sound.
  - destruct (match_diff_here (String c s)) as [r|] eqn:Hm.
    + intros [= ->]. exists EmptyString. by apply match_diff_here_sound.
    + intros H. destruct (IH H) as (pre & Hpre).
      exists (String c pre). cbn [String.append]. by rewrite <- Hpre.
Qed.

(** Each match consumes text, so [String.length text] rounds are enough
    for the loop. *)
Lemma exec_diff_shrinks s p body rest :
  exec_diff s = Some (p, body, rest) → String.length rest < String.length s.
Proof.
  intros [pre ->]%exec_diff_sound. rewrite !slength_app. simpl. lia.
Qed.

Lemma changes_fuel fuel fuel' files text :
  String.length text ≤ fuel → String.length text ≤ fuel' →
  changes fuel files text = changes fuel' files text.
Proof.
  revert fuel' text. induction fuel as [|fuel IH]; intros fuel' text Hf Hf'.
  - destruct text; [|simpl in Hf; lia]. by destruct fuel'.
  - destruct fuel' as [|fuel'].
    + destruct text; [reflexivity|simpl in Hf'; lia].
    + cbn [changes].
      destruct (exec_diff text) as [[[p body] rest]|] eqn:He; [|done].
      apply exec_diff_shrinks in He.
      rewrite (IH fuel' rest) by lia. done.
Qed.

(** *** What the loop pushes *)

Lemma changes_spec fuel files text c :
  c ∈ changes fuel files text →
  before c = default EmptyString (files !! path c)
  ∧ after c ≠ before c
  ∧ ∃ body pre post,
      text = pre +:+ diff_open +:+ path c +:+ diff_open_end
                 +:+ body +:+ diff_close +:+ post
      ∧ after c = applyUnifiedDiff (before c) (trim body).
Proof.
  revert text. induction fuel as [|fuel IH]; intros text; cbn [changes].
  - by intros ?%elem_of_nil.
  - destruct (exec_diff text) as [[[p body] rest]|] eqn:He;
      [|by intros ?%elem_of_nil].
    apply exec_diff_sound in He as [pre Htext].
    assert (c ∈ changes fuel files rest →
            before c = default EmptyString (files !! path c)
            ∧ after c ≠ before c
            ∧ ∃ body pre post,
                text = pre +:+ diff_open +:+ path c +:+ diff_open_end
                           +:+ body +:+ diff_close +:+ post
                ∧ after c = applyUnifiedDiff (before c) (trim body))
      as Hrest.
    { intros (Hb & Ha & body' & pre' & post' & Hr & Happ)%IH.
      split; [done|]. split; [done|].
      exists body', (pre +:+ diff_open +:+ p +:+ diff_open_end
                     +:+ body +:+ diff_close +:+ pre'), post'.
      split; [|done]. rewrite Htext, Hr. by rewrite !sapp_assoc. }
    destruct (String.eqb _ _) eqn:Heq; [done|].
    intros [->|Hin]%elem_of_cons; [|by apply Hrest].
    cbn [path before after]. split; [done|].
    split; [by apply String.eqb_neq in Heq|].
    by exists body, pre, rest.
Qed.

Section Properties.
Variable generateText : string → string → string → Gen.Outcome.
Variable ANTHROPIC_SONNET_MODEL : option string.

(** X22. Every file the route returns differs from the file of that path in
    the request (an absent file counting as empty): it is that base text
    with the diff of one block of the reply applied, and the replay of
    that diff ran to its end - a block whose replay stops at a
    mismatched context line leaves the text as it was and is dropped. *)
Theorem POST_changes entries vibe fs :
  POST generateText ANTHROPIC_SONNET_MODEL (Some entries) vibe = Success fs →
  ∀ f, f ∈ fs →
    let base :=
      default EmptyString
              ((list_to_map entries : gmap string string) !! item_path f) in
    content f ≠ base
    ∧ ∃ text body pre post,
        generateText (Gen.modelName ANTHROPIC_SONNET_MODEL)
                     (system vibe) (user entries) = Gen.Returned text
        ∧ text = pre +:+ diff_open +:+ item_path f +:+ diff_open_end
                     +:+ body +:+ diff_close +:+ post
        ∧ content f = applyUnifiedDiff base (trim body)
        ∧ is_Some (cursor (split_nl base) (parseUnifiedDiff (trim body)) 0).
Proof.
  unfold POST.
  destruct (generateText _ _ _) as [text|e] eqn:Hcall; [|done].
  intros [= <-] f (c & -> & Hc)%list_elem_of_fmap.
  cbn [item_path content].
  apply changes_spec in Hc as (Hb & Ha & body & pre & post & Ht & Happ).
  rewrite <- Hb. split; [done|].
  exists text, body, pre, post. split; [done|]. split; [done|].
  split; [done|].
  destruct (cursor _ _ 0) as [i|] eqn:Hcur; [by eexists|].
  apply applyUnifiedDiff_cursor_None in Hcur as [Hcur _]. congruence.
Qed.

End Properties.

Definition demo_reply : string :=
  diff_open +:+ "a.txt" +:+ diff_open_end
  +:+ lines3 "@@ -1,3 +1,3 @@" " a" (lines3 "-b" "+B" " c") +:+ diff_close.

Definition demo_entries : list (string * string) :=
  [("a.txt", lines3 "a" "b" "c")].

Lemma POST_changes_witness :
  POST (λ _ _ _, Gen.Returned demo_reply) None (Some demo_entries) None
  = Success [ {| item_path := "a.txt"; content := lines3 "a" "B" "c" |} ]
  ∧ ∀ f, f ∈ [ {| item_path := "a.txt"; content := lines3 "a" "B" "c" |} ] →
      let base :=
        default EmptyString
                ((list_to_map demo_entries : gmap string string)
                   !! item_path f) in
      content f ≠ base
      ∧ ∃ text body pre post,
          Gen.Returned demo_reply = Gen.Returned text
          ∧ text = pre +:+ diff_open +:+ item_path f +:+ diff_open_end
                       +:+ body +:+ diff_close +:+ post
          ∧ content f = applyUnifiedDiff base (trim body)
          ∧ is_Some (cursor (split_nl base)
                            (parseUnifiedDiff (trim body)) 0).
Proof.
  split; [reflexivity|].
  apply (POST_changes (λ _ _ _, Gen.Returned demo_reply) None
           demo_entries None).
  reflexivity.
Defined.

(** *** A context line at the head of a block *)

Lemma match_diff_here_block p body rest :
  p ≠ EmptyString → Codec.has_quote p = false →
  includes body diff_close = false →
  match_diff_here
    (diff_open +:+ p +:+ diff_open_end +:+ body +:+ diff_close +:+ rest)
  = Some (p, body, rest).
Proof.
  intros Hp Hq Hbody. unfold match_diff_here.
  rewrite prefix_app_true, sdrop_app.
  change (diff_open_end +:+ body +:+ diff_close +:+ rest)
    with (String dquote (">" +:+ body +:+ diff_close +:+ rest)).
  rewrite Codec.span_nonquote_app by done.
  destruct p as [|c p]; [done|].
  change (String dquote (">" +:+ body +:+ diff_close +:+ rest))
    with (diff_open_end +:+ body +:+ diff_close +:+ rest).
  rewrite prefix_app_true, sdrop_app.
  unfold diff_close in *. by rewrite find_sub_exact.
Qed.

Lemma exec_diff_here s r : match_diff_here s = Some r → exec_diff s = Some r.
Proof. intros H. destruct s; cbn [exec_diff]; by rewrite H. Qed.

Lemma startsWith_longer l a post :
  startsWith l (String a EmptyString) = false →
  startsWith l (String a post) = false.
Proof.
  unfold startsWith. destruct l as [|c l]; [done|]. cbn [String.prefix].
  destruct (ascii_dec a c); [|done]. by destruct l.
Qed.

(** An unmarked line alone in a diff is copied in front of the base. *)
Lemma applyUnifiedDiff_unmarked B l :
  has_nl l = false →
  startsWith l " " = false → startsWith l "-" = false →
  startsWith l "+" = false → startsWith l "@@" = false →
  applyUnifiedDiff B l = l +:+ String nl B.
Proof.
  intros Hnl Hs Hm Hp Hat. unfold applyUnifiedDiff, parseUnifiedDiff.
  rewrite (split_nl_line l Hnl). cbn [List.filter].
  rewrite (startsWith_longer l "-" "-- " Hm).
  rewrite (startsWith_longer l "+" "++ " Hp), Hat.
  cbn [negb andb apply_ops]. rewrite Hs, Hm, Hp.
  cbn [app drop]. change (drop 0 (split_nl B)) with (split_nl B).
  pose proof (split_nl_nonempty B) as Hne.
  destruct (split_nl B) as [|h r] eqn:HB; [done|].
  change (join_nl (l :: h :: r)) with (l +:+ String nl (join_nl (h :: r))).
  by rewrite <- HB, join_split.
Qed.

Section Leading.
Variable generateText : string → string → string → Gen.Outcome.
Variable ANTHROPIC_SONNET_MODEL : option string.

(** X23. The body of a block is trimmed before it is applied, and the
    trim takes the marker of a context line that leads the block.  Let
    [l] be a line that the trim of its marked form leaves as it is (no
    white space at either end), without a line break or a closing diff
    tag, and not itself starting with a marker ([-], [+]) or with [@@].
    A reply whose one block, for a path that is not empty and has no
    quote, holds the one context line made of a space and [l] is not
    checked against the base text: whatever the base holds, the route
    returns the file with [l] put in front of it. *)
Theorem POST_leading_context entries vibe p l :
  generateText (Gen.modelName ANTHROPIC_SONNET_MODEL)
               (system vibe) (user entries)
  = Gen.Returned (diff_open +:+ p +:+ diff_open_end
                  +:+ String " " l +:+ diff_close) →
  p ≠ EmptyString → Codec.has_quote p = false →
  trim (String " " l) = l → has_nl l = false →
  includes l diff_close = false →
  startsWith l " " = false → startsWith l "-" = false →
  startsWith l "+" = false → startsWith l "@@" = false →
  POST generateText ANTHROPIC_SONNET_MODEL (Some entries) vibe
  = Success
      [ {| item_path := p;
           content :=
             l +:+ String nl
               (default EmptyString
                  ((list_to_map entries : gmap string string) !! p)) |} ].
Proof.
  intros Hcall Hp Hq Htrim Hnl Hclose Hs Hm Hplus Hat.
  unfold POST. rewrite Hcall.
  set (files := list_to_map entries : gmap string string).
  set (base := default EmptyString (files !! p)).
  assert (diff_open +:+ p +:+ diff_open_end +:+ String " " l +:+ diff_close
          = diff_open +:+ p +:+ diff_open_end +:+ String " " l
            +:+ diff_close +:+ EmptyString) as Hshape
    by (by rewrite sapp_empty_r).
  rewrite Hshape.
  destruct (String.length _) as [|fuel] eqn:Hlen.
  { rewrite !slength_app in Hlen. cbn in Hlen. lia. }
  cbn [changes].
  rewrite (exec_diff_here _ (p, String " " l, EmptyString))
    by (apply match_diff_here_block; [done|done|];
        cbn [includes]; by rewrite Hclose).
  rewrite Htrim. fold files base.
  rewrite (applyUnifiedDiff_unmarked base l) by done.
  assert (String.eqb (l +:+ String nl base) base = false) as ->.
  { apply String.eqb_neq. intros Heq.
    apply (f_equal String.length) in Heq.
    rewrite slength_app in Heq. cbn in Heq. lia. }
  by destruct fuel.
Qed.

End Leading.

Lemma POST_leading_context_witness :
  POST (λ _ _ _, Gen.Returned (diff_open +:+ "b.txt" +:+ diff_open_end
                               +:+ " nope" +:+ diff_close))
       None (Some [("b.txt", "x")]) None
  = Success
      [ {| item_path := "b.txt";
           content :=
             "nope" +:+ String nl
               (default EmptyString
                  ((list_to_map [("b.txt", "x")] : gmap string string)
                     !! "b.txt")) |} ].
Proof.
  apply (POST_leading_context
           (λ _ _ _, Gen.Returned (diff_open +:+ "b.txt" +:+ diff_open_end
                                   +:+ " nope" +:+ diff_close))
           None [("b.txt", "x")] None "b.txt" "nope");
    first [reflexivity | discriminate].
Defined.

End Harden.


(** ** More about the similar-records query *)

Module RecallProps.
Import Recall.

Local Open Scope R_scope.

(** *** Ties *)

(** The entries of [l] whose score is [s], in the order of [l]. *)
Definition with_score (s : R) (l : list Scored) : list Scored :=
  List.filter (λ x, if Req_dec_T (score x) s then true else false) l.

Lemma with_score_insert s x l :
  with_score s (insert_desc x l) = with_score s (x :: l).
Proof.
  induction l as [|y l IH]; [done|].
  cbn [insert_desc]. unfold compare_desc.
  destruct (Rle_dec (score y - score x) 0) as [Hle|Hgt]; [done|].
  unfold with_score in *. cbn [List.filter] in *. rewrite IH.
  destruct (Req_dec_T (score x) s) as [Hx|Hx];
    destruct (Req_dec_T (score y) s) as [Hy|Hy]; try done.
  lra.
Qed.

Lemma with_score_sort s l : with_score s (sort_desc l) = with_score s l.
Proof.
  induction l as [|x l IH]; [done|].
  cbn [sort_desc]. rewrite with_score_insert.
  unfold with_score in *. cbn [List.filter]. by rewrite IH.
Qed.

Lemma with_score_take s n l :
  with_score s (take n l) `prefix_of` with_score s l.
Proof.
  revert n. induction l as [|x l IH]; intros [|n]; cbn [take].
  - done.
  - done.
  - apply prefix_nil.
  - unfold with_score in *. cbn [List.filter].
    destruct (Req_dec_T (score x) s); [|apply IH].
    apply prefix_cons, IH.
Qed.

Lemma with_score_keep s minSim l :
  with_score s (List.filter (keep minSim) l)
  = if Rle_dec minSim s then with_score s l else [].
Proof.
  induction l as [|x l IH]; [by destruct (Rle_dec minSim s)|].
  unfold with_score in *. cbn [List.filter]. unfold keep at 1.
  destruct (Rle_dec minSim (score x)) as [Hk|Hk];
    cbn [List.filter]; rewrite IH;
    destruct (Req_dec_T (score x) s) as [Hx|Hx];
    destruct (Rle_dec minSim s) as [Hs|Hs]; try done; lra.
Qed.

(** X27. Results that tie keep the order in which the rows were fetched: for
    every score, the results having it are the first so many of the
    scored rows having it, in the same order. *)
Theorem similar_ties_keep_order emb data minSim limit s :
  with_score s (similar emb data minSim limit)
  `prefix_of` with_score s (score_row emb <$> data).
Proof.
  unfold similar, postprocess, slice0.
  etrans; [apply with_score_take|].
  rewrite with_score_sort, with_score_keep.
  destruct (Rle_dec minSim s); [done|apply prefix_nil].
Qed.

End RecallProps.


(** ** The streaming client of the fast model (callGrok) *)

Module Stream.
Import Text.

(** What the generator yields. *)
Inductive GrokStreamChunk :=
  | text_chunk (text : string)
  | tool_call
  | done.

Definition cons_head (c : ascii) (parts : list string) : list string :=
  match parts with
  | h :: r => String c h :: r
  | [] => [String c EmptyString]
  end.

(** [buffer.split] on two line breaks: scanning from the left, every two
    consecutive line breaks met end a part. *)
Fixpoint split_blank (s : string) : list string :=
  match s with
  | EmptyString => [EmptyString]
  | String c t =>
      match t with
      | String c' t' =>
          if Ascii.eqb c nl && Ascii.eqb c' nl
          then EmptyString :: split_blank t'
          else cons_head c (split_blank t)
      | EmptyString => [String c EmptyString]
      end
  end.

Example split_blank_ex :
  split_blank
    ("a" +:+ String nl (String nl (String nl ("b" +:+ String nl "c"))))
  = ["a"; String nl ("b" +:+ String nl "c")].
Proof. reflexivity. Qed.

(** The payload of a line that, once trimmed, starts with [data:]. *)
Definition data_payload (line : string) : option string :=
  let trimmed := trim line in
  if startsWith trimmed "data:" then Some (trim (sdrop 5 trimmed))
  else None.

Section Client.
(** [JSON.parse] of a payload and the choice of what to yield for it:
    [None] when the text does not parse or holds nothing to yield. *)
Variable decode : string → option GrokStreamChunk.

(** The lines of one event: what is yielded, and whether the generator
    has returned (on the terminal marker). *)
Fixpoint run_lines (lines : list string) : list GrokStreamChunk * bool :=
  match lines with
  | [] => ([], false)
  | line :: rest =>
      match data_payload line with
      | None => run_lines rest
      | Some payloadStr =>
          if String.eqb payloadStr "[DONE]" then ([done], true)
          else
            let '(ys, returned) := run_lines rest in
            (option_list (decode payloadStr) ++ ys, returned)
      end
  end.

Fixpoint run_events (events : list string) : list GrokStreamChunk * bool :=
  match events with
  | [] => ([], false)
  | event :: rest =>
      let '(ys, returned) := run_lines (split_nl event) in
      if returned then (ys, true)
      else
        let '(ys', returned') := run_events rest in
        (ys ++ ys', returned')
  end.

(** The read loop on the decoded values of the stream, started with
    [buffer], and the flush after it. *)
Fixpoint callGrok (values : list string) (buffer : string)
  : list GrokStreamChunk :=
  match values with
  | [] => if includes buffer "[DONE]" then [done] else []
  | value :: rest =>
      let buffer := buffer +:+ value in
      let events := split_blank buffer in
      let buffer := List.last events EmptyString in
      let '(ys, returned) := run_events (removelast events) in
      if returned then ys else ys ++ callGrok rest buffer
  end.

(** [callGrokCollect] of the generation route: the text chunks, joined. *)
Definition callGrokCollect (values : list string) : string :=
  foldl (λ text chunk,
           match chunk with
           | text_chunk t => text +:+ t
           | _ => text
           end)
        EmptyString (callGrok values EmptyString).

End Client.

Definition demo_decode (payload : string) : option GrokStreamChunk :=
  Some (text_chunk payload).

Example callGrok_ex :
  callGrok demo_decode
    [ "data: he"; "llo" +:+ String nl (String nl "data:");
      " world" +:+ String nl (String nl ("data: [DONE]" +:+ String nl ""));
      String nl "data: late" ]
    EmptyString
  = [text_chunk "hello"; text_chunk "world"; done].
Proof. reflexivity. Qed.

(** *** Splitting a text that is extended *)

Lemma string_ind2 (P : string → Prop) :
  P EmptyString →
  (∀ c, P (String c EmptyString)) →
  (∀ c c' t, P t → P (String c' t) → P (String c (String c' t))) →
  ∀ s, P s.
Proof.
  intros H0 H1 H2 s.
  assert (P s ∧ ∀ c, P (String c s)) as [Hs _]; [|done].
  induction s as [|c' s [IH1 IH2]]; [by split|].
  split; [apply IH2|]. intros c. by apply H2.
Qed.

Lemma split_blank_step c c' t :
  split_blank (String c (String c' t))
  = if Ascii.eqb c nl && Ascii.eqb c' nl
    then EmptyString :: split_blank t
    else cons_head c (split_blank (String c' t)).
Proof. reflexivity. Qed.

Lemma split_blank_nonempty s : split_blank s ≠ [].
Proof.
  induction s as [|c|c c' t IH1 IH2] using string_ind2; try done.
  rewrite split_blank_step. destruct (Ascii.eqb c nl && Ascii.eqb c' nl); [done|].
  unfold cons_head. by destruct (split_blank (String c' t)).
Qed.

Lemma split_blank_single s r : split_blank s = [r] → r = s.
Proof.
  revert r. induction s as [|c|c c' t IH1 IH2] using string_ind2; intros r.
  - by intros [= <-].
  - by intros [= <-].
  - rewrite split_blank_step.
    destruct (Ascii.eqb c nl && Ascii.eqb c' nl).
    + intros [= <- Ht]. by apply split_blank_nonempty in Ht.
    + unfold cons_head.
      destruct (split_blank (String c' t)) as [|h [|h' l]] eqn:Hs;
        [by apply split_blank_nonempty in Hs| |done].
      intros [= <-]. by rewrite (IH2 h eq_refl).
Qed.

Lemma split_blank_cons c s :
  (Ascii.eqb c nl && match s with
                     | String c' _ => Ascii.eqb c' nl
                     | EmptyString => false
                     end) = false →
  split_blank (String c s) = cons_head c (split_blank s).
Proof.
  destruct s as [|c' t]; [done|]. rewrite split_blank_step. by intros ->.
Qed.

Lemma removelast_cons_ne {A} (x : A) l : l ≠ [] → removelast (x :: l) = x :: removelast l.
Proof. by destruct l. Qed.

Lemma last_cons_ne {A} (x d : A) l : l ≠ [] → List.last (x :: l) d = List.last l d.
Proof. by destruct l. Qed.

Lemma last_app_ne {A} (l1 l2 : list A) d :
  l2 ≠ [] → List.last (l1 ++ l2) d = List.last l2 d.
Proof.
  intros Hne. induction l1 as [|x l1 IH]; [done|].
  cbn [app]. rewrite last_cons_ne; [done|]. by destruct l1, l2.
Qed.

(** The parts of an extended text: the complete parts found so far stay,
    and the search goes on in the last part with the extension. *)
Lemma split_blank_app a b :
  split_blank (a +:+ b)
  = removelast (split_blank a)
    ++ split_blank (List.last (split_blank a) EmptyString +:+ b).
Proof.
  induction a as [|c|c c' t IH1 IH2] using string_ind2; [done|done|].
  change (String c (String c' t) +:+ b) with (String c (String c' (t +:+ b))).
  rewrite !split_blank_step.
  destruct (Ascii.eqb c nl && Ascii.eqb c' nl) eqn:Hsep.
  - pose proof (split_blank_nonempty t) as Hne.
    rewrite removelast_cons_ne, last_cons_ne by done.
    rewrite IH1. done.
  - change (String c' (t +:+ b)) with (String c' t +:+ b). rewrite IH2.
    pose proof (split_blank_nonempty (String c' t)) as Hne.
    destruct (split_blank (String c' t)) as [|h [|h' l]] eqn:Hs; [done| |].
    + apply split_blank_single in Hs as ->.
      cbn [removelast List.last cons_head app].
      change (String c (String c' t) +:+ b)
        with (String c (String c' t +:+ b)).
      symmetry. apply split_blank_cons.
      change (String c' t +:+ b) with (String c' (t +:+ b)). exact Hsep.
    + cbn [cons_head]. rewrite !removelast_cons_ne, !last_cons_ne by done.
      reflexivity.
Qed.

Lemma split_blank_none s :
  includes s (String nl (String nl EmptyString)) = false →
  split_blank s = [s].
Proof.
  induction s as [|c|c c' t IH1 IH2] using string_ind2; [done|done|].
  intros Hall. assert (Hall' := Hall). revert Hall'.
  rewrite split_blank_step. cbn [includes] in Hall.
  apply orb_false_iff in Hall as [Hp Hinc]. intros _.
  destruct (Ascii.eqb c nl && Ascii.eqb c' nl) eqn:Hsep.
  - apply andb_true_iff in Hsep as [->%Ascii.eqb_eq ->%Ascii.eqb_eq].
    exfalso. revert Hp. cbn [String.prefix].
    destruct (ascii_dec nl nl); [|done]. by destruct t.
  - rewrite IH2 by done. reflexivity.
Qed.

(** *** The stream does not depend on how it is cut into values *)

Fixpoint concat_values (values : list string) : string :=
  match values with
  | [] => EmptyString
  | v :: rest => v +:+ concat_values rest
  end.

Section Rechunk.
Variable decode : string → option GrokStreamChunk.

Lemma run_events_app es1 es2 :
  run_events decode (es1 ++ es2)
  = let '(ys1, returned1) := run_events decode es1 in
    if returned1 then (ys1, true)
    else let '(ys2, returned2) := run_events decode es2 in
         (ys1 ++ ys2, returned2).
Proof.
  induction es1 as [|e es1 IH]; cbn [app run_events].
  - by destruct (run_events decode es2).
  - destruct (run_lines decode (split_nl e)) as [ys [|]]; [done|].
    rewrite IH. destruct (run_events decode es1) as [ys1 [|]]; [done|].
    destruct (run_events decode es2) as [ys2 r2]. by rewrite app_assoc.
Qed.

Lemma callGrok_step v rest buffer :
  callGrok decode (v :: rest) buffer
  = let '(ys, returned) :=
      run_events decode (removelast (split_blank (buffer +:+ v))) in
    if returned then ys
    else ys ++ callGrok decode rest
                 (List.last (split_blank (buffer +:+ v)) EmptyString).
Proof. reflexivity. Qed.

Lemma callGrok_merge v w buffer :
  callGrok decode [v; w] buffer = callGrok decode [v +:+ w] buffer.
Proof.
  cbn [callGrok]. rewrite <- sapp_assoc.
  rewrite (split_blank_app (buffer +:+ v) w).
  set (parts := split_blank (buffer +:+ v)).
  set (parts' := split_blank (List.last parts EmptyString +:+ w)).
  pose proof (split_blank_nonempty (List.last parts EmptyString +:+ w))
    as Hne. fold parts' in Hne.
  assert (removelast (removelast parts ++ parts')
          = removelast parts ++ removelast parts') as ->
    by (by apply removelast_app).
  assert (List.last (removelast parts ++ parts') EmptyString
          = List.last parts' EmptyString) as ->
    by (by apply last_app_ne).
  rewrite run_events_app.
  destruct (run_events decode (removelast parts)) as [ys1 [|]]; [done|].
  destruct (run_events decode (removelast parts')) as [ys2 [|]]; [done|].
  by rewrite app_assoc.
Qed.

Lemma callGrok_concat v values buffer :
  callGrok decode (v :: values) buffer
  = callGrok decode [v +:+ concat_values values] buffer.
Proof.
  revert v buffer. induction values as [|w values IH]; intros v buffer.
  - cbn [concat_values]. by rewrite sapp_empty_r.
  - cbn [concat_values]. rewrite <- callGrok_merge.
    rewrite (callGrok_step v (w :: values)), (callGrok_step v [_]).
    by rewrite (IH w).
Qed.

(** X28. Cutting the stream into other values changes nothing: what the
    generator yields depends on the text received as a whole only. *)
Theorem callGrok_rechunk values values' :
  concat_values values = concat_values values' →
  callGrok decode values EmptyString = callGrok decode values' EmptyString
  ∧ callGrokCollect decode values = callGrokCollect decode values'.
Proof.
  assert (∀ vs, callGrok decode vs EmptyString
                = callGrok decode [concat_values vs] EmptyString) as Hone.
  { intros [|v vs]; [reflexivity|]. apply callGrok_concat. }
  intros Heq.
  assert (callGrok decode values EmptyString
          = callGrok decode values' EmptyString) as Hsame
    by (by rewrite (Hone values), (Hone values'), Heq).
  split; [done|]. unfold callGrokCollect. by rewrite Hsame.
Qed.

(** X29. A final event that no blank line ends is never decoded: a stream
    without two consecutive line breaks yields nothing, except the
    terminal chunk when the marker occurs in it. *)
Theorem callGrok_unterminated values :
  includes (concat_values values) (String nl (String nl EmptyString)) = false →
  callGrok decode values EmptyString
  = (if includes (concat_values values) "[DONE]" then [done] else [])
  ∧ callGrokCollect decode values = EmptyString.
Proof.
  intros Hnone.
  assert (callGrok decode values EmptyString
          = if includes (concat_values values) "[DONE]" then [done] else [])
    as Hy.
  { destruct values as [|v vs]; [reflexivity|].
    rewrite callGrok_concat, callGrok_step.
    change (EmptyString +:+ (v +:+ concat_values vs))
      with (concat_values (v :: vs)).
    rewrite (split_blank_none _ Hnone). reflexivity. }
  split; [done|]. unfold callGrokCollect. rewrite Hy.
  by destruct (includes _ "[DONE]").
Qed.

End Rechunk.

Lemma callGrok_rechunk_witness :
  callGrok demo_decode
    ["data: he"; "llo" +:+ String nl (String nl "data: x")] EmptyString
  = callGrok demo_decode
      ["data: hello" +:+ String nl EmptyString; String nl "data: x"]
      EmptyString
  ∧ callGrokCollect demo_decode
      ["data: he"; "llo" +:+ String nl (String nl "data: x")]
    = callGrokCollect demo_decode
        ["data: hello" +:+ String nl EmptyString; String nl "data: x"].
Proof.
  apply (callGrok_rechunk demo_decode
           ["data: he"; "llo" +:+ String nl (String nl "data: x")]
           ["data: hello" +:+ String nl EmptyString; String nl "data: x"]).
  reflexivity.
Defined.

Lemma callGrok_unterminated_witness :
  callGrok demo_decode ["data: he"; "llo" +:+ String nl "data: x"]
           EmptyString
  = (if includes
          (concat_values ["data: he"; "llo" +:+ String nl "data: x"])
          "[DONE]"
     then [done] else [])
  ∧ callGrokCollect demo_decode
      ["data: he"; "llo" +:+ String nl "data: x"] = EmptyString.
Proof.
  apply (callGrok_unterminated demo_decode
           ["data: he"; "llo" +:+ String nl "data: x"]).
  reflexivity.
Defined.

End Stream.


(** ** The retrying collector of the debug route *)

Module Debug.
Import Text.

(** One call of the streaming client, collected: the text, a rate-limit
    error (with its retry delay, if any), or another error. *)
Inductive Attempt :=
  | Collected (text : string)
  | RateLimited (retryAfterMs : option nat)
  | Failed (message : string).

(** How [callGrokCollect] ends. *)
Inductive Outcome :=
  | Return (text : string)
  | ThrowRateLimit (retryAfterMs : option nat)
  | ThrowError (message : string).

(** [error.retryAfterMs || 1000 * (retryCount + 1)] *)
Definition waitMs (retryAfterMs : option nat) (retryCount : nat) : nat :=
  match retryAfterMs with
  | Some (S n) => S n
  | _ => 1000 * (retryCount + 1)
  end.

Section Collector.
(** The outcome of each call of the client, in the order of the calls. *)
Variable callGrok : nat → Attempt.

(** The [while (retryCount <= maxRetries)] loop, every call numbered by
    the retry count it is made at; with the outcome, the delays waited. *)
Fixpoint retry_loop (fuel maxRetries retryCount : nat) (waits : list nat)
  : Outcome * list nat :=
  match fuel with
  | 0 => (Return EmptyString, waits)
  | S fuel' =>
      if retryCount <=? maxRetries then
        match callGrok retryCount with
        | Collected text => (Return text, waits)
        | RateLimited retryAfterMs =>
            if retryCount <? maxRetries then
              retry_loop fuel' maxRetries (S retryCount)
                         (waits ++ [waitMs retryAfterMs retryCount])
            else (ThrowRateLimit retryAfterMs, waits)
        | Failed message => (ThrowError message, waits)
        end
      else (Return EmptyString, waits)
  end.

Definition callGrokCollect (maxRetries : nat) : Outcome * list nat :=
  retry_loop (S maxRetries) maxRetries 0 [].

Definition limited (a : Attempt) : Prop :=
  match a with
  | RateLimited _ => True
  | _ => False
  end.

Definition end_of (a : Attempt) : Outcome :=
  match a with
  | Collected text => Return text
  | RateLimited retryAfterMs => ThrowRateLimit retryAfterMs
  | Failed message => ThrowError message
  end.

Definition retryAfter (a : Attempt) : option nat :=
  match a with
  | RateLimited retryAfterMs => retryAfterMs
  | _ => None
  end.

(** The delays waited before the calls [from .. from + n - 1] failed. *)
Definition delays (from n : nat) : list nat :=
  (λ j, waitMs (retryAfter (callGrok j)) j) <$> seq from n.

Lemma retry_loop_spec fuel maxRetries retryCount waits k :
  retryCount ≤ k → k ≤ maxRetries → k - retryCount < fuel →
  (∀ j, retryCount ≤ j → j < k → limited (callGrok j)) →
  (k < maxRetries → ¬ limited (callGrok k)) →
  retry_loop fuel maxRetries retryCount waits
  = (end_of (callGrok k), waits ++ delays retryCount (k - retryCount)).
Proof.
  revert retryCount waits.
  induction fuel as [|fuel IH]; intros retryCount waits Hle Hk Hfuel Hlim Hend;
    [lia|].
  cbn [retry_loop]. rewrite (proj2 (Nat.leb_le _ _)) by lia.
  destruct (decide (retryCount = k)) as [->|Hne].
  - rewrite Nat.sub_diag. unfold delays. cbn [seq fmap list_fmap].
    rewrite app_nil_r.
    destruct (callGrok k) as [text|r|e] eqn:Hc; try done.
    destruct (k <? maxRetries) eqn:Hlt; [|done].
    apply Nat.ltb_lt in Hlt. by destruct (Hend Hlt).
  - specialize (Hlim retryCount (le_n _) ltac:(lia)) as Hr.
    destruct (callGrok retryCount) as [text|r|e] eqn:Hc; try done.
    rewrite (proj2 (Nat.ltb_lt _ _)) by lia.
    rewrite (IH (S retryCount)); try lia.
    + f_equal. replace (k - retryCount) with (S (k - S retryCount)) by lia.
      unfold delays. cbn [seq fmap list_fmap]. rewrite Hc.
      cbn [retryAfter]. by rewrite <- app_assoc.
    + intros j Hj1 Hj2. apply Hlim; lia.
    + done.
Qed.

(** X30. The collector answers with the first call that is not rate-limited,
    among at most [maxRetries + 1] calls - its text or its error - after
    waiting, for every rate-limited call before it, the delay the error
    carried or else one more second than the time before; when all
    [maxRetries + 1] calls are rate-limited it throws the last error,
    without waiting after it. *)
Theorem callGrokCollect_retries maxRetries k :
  k ≤ maxRetries →
  (∀ j, j < k → limited (callGrok j)) →
  (k < maxRetries → ¬ limited (callGrok k)) →
  callGrokCollect maxRetries = (end_of (callGrok k), delays 0 k).
Proof.
  intros Hk Hlim Hend. unfold callGrokCollect.
  rewrite (retry_loop_spec _ _ _ _ k); try lia.
  - by rewrite Nat.sub_0_r.
  - intros j _ Hj. by apply Hlim.
  - done.
Qed.

End Collector.

Definition demo_calls (n : nat) : Attempt :=
  match n with
  | 0 => RateLimited None
  | 1 => RateLimited (Some 250)
  | _ => Collected "{}"
  end.

Lemma callGrokCollect_retries_witness :
  callGrokCollect demo_calls 3
  = (end_of (demo_calls 2), delays demo_calls 0 2).
Proof.
  apply (callGrokCollect_retries demo_calls 3 2).
  - lia.
  - intros [|[|j]] Hj; [exact I|exact I|lia].
  - intros _ H. exact H.
Defined.

Example callGrokCollect_ex :
  callGrokCollect demo_calls 3 = (Return "{}", [1000; 250])
  ∧ callGrokCollect (λ _, RateLimited None) 3
    = (ThrowRateLimit None, [1000; 2000; 3000]).
Proof. split; reflexivity. Qed.

End Debug.
